(** * Battery viewer: serial framing, connection teardown and record parsing

    A shallow embedding of [src/serial-reader.js] (class [SerialReader]) and
    [src/battery-parser.js] (class [BatteryParser]), with the properties of
    the framer, of the teardown sequence and of the parser proved over it.

    JavaScript strings are sequences of UTF-16 code units, and [length],
    [split], [trim] and the regular expressions of the parser all work on
    code units; a string is therefore a [list N] here.  JavaScript numbers
    are IEEE 754 binary64 values; they are [spec_float] values with the
    operations of the Standard Library's [SpecFloat] at precision 53 and
    maximal exponent 1024. *)

From Stdlib Require Import String Ascii.
From Stdlib Require Import List ZArith NArith PArith Bool Lia.
From Stdlib Require Import Sorting.Sorted Sorting.Permutation.
From Stdlib Require Import Floats.SpecFloat.
Import ListNotations.

(* ================================================================== *)
(** ** JavaScript strings *)
(* ================================================================== *)

Module JsString.

Definition code_unit := N.
Definition jsstring := list code_unit.

(** Source literals are written as Rocq strings (UTF-8 bytes) and decoded
    to code units; every literal of the two source files lies in the Basic
    Multilingual Plane, so one, two and three byte sequences suffice. *)
Fixpoint utf8_decode (bs : list N) : jsstring :=
  match bs with
  | [] => []
  | b :: r =>
      if (b <? 128)%N then b :: utf8_decode r
      else if (b <? 224)%N then
        match r with
        | b2 :: r' => ((b - 192) * 64 + (b2 - 128))%N :: utf8_decode r'
        | [] => []
        end
      else
        match r with
        | b2 :: b3 :: r' =>
            ((b - 224) * 4096 + (b2 - 128) * 64 + (b3 - 128))%N :: utf8_decode r'
        | _ => []
        end
  end.

Definition js (s : string) : jsstring :=
  utf8_decode (map (fun a => N_of_ascii a) (list_ascii_of_string s)).

Definition char (s : string) : code_unit := hd 0%N (js s).

(** WhiteSpace and LineTerminator code points of ECMAScript: the characters
    removed by [String.prototype.trim] and matched by [\s]. *)
Definition is_space (c : code_unit) : bool :=
  existsb (N.eqb c)
    [9; 10; 11; 12; 13; 32; 160; 5760; 8232; 8233; 8239; 8287; 12288; 65279]%N
  || ((8192 <=? c)%N && (c <=? 8202)%N).

Fixpoint trimStart (s : jsstring) : jsstring :=
  match s with
  | c :: s' => if is_space c then trimStart s' else s
  | [] => []
  end.

Definition trimEnd (s : jsstring) : jsstring := rev (trimStart (rev s)).

(** [String.prototype.trim] *)
Definition trim (s : jsstring) : jsstring := trimEnd (trimStart s).

(** A string is truthy when it is not empty. *)
Definition truthy (s : jsstring) : bool :=
  match s with [] => false | _ => true end.

Fixpoint starts_with (p s : jsstring) : bool :=
  match p, s with
  | [], _ => true
  | a :: p', b :: s' => (a =? b)%N && starts_with p' s'
  | _ :: _, [] => false
  end.

(** The leftmost occurrence of [sep] in [s]: the text before it and the
    text after it ([StringIndexOf] followed by the two substrings that
    [split] takes). *)
Fixpoint indexOf_split (sep s : jsstring) : option (jsstring * jsstring) :=
  if starts_with sep s then Some ([], skipn (length sep) s)
  else
    match s with
    | [] => None
    | c :: s' =>
        match indexOf_split sep s' with
        | Some (b, a) => Some (c :: b, a)
        | None => None
        end
    end.

Fixpoint split_from (fuel : nat) (sep s : jsstring) : list jsstring :=
  match indexOf_split sep s with
  | None => [s]
  | Some (b, a) =>
      match fuel with
      | O => [s]
      | S fuel' => b :: split_from fuel' sep a
      end
  end.

(** [String.prototype.split] with a string separator and no limit.  With an
    empty separator the string is cut into its code units; otherwise the
    occurrences are taken leftmost first, without overlap, and the text
    after the last one is the final element.  Each cut removes at least one
    code unit, so [length s] cuts are always enough. *)
Definition split (sep s : jsstring) : list jsstring :=
  match sep with
  | [] => map (fun c => [c]) s
  | _ => split_from (length s) sep s
  end.

(** The [length] property of a string. *)
Definition strlen (s : jsstring) : Z := Z.of_nat (length s).

(** [sep] occurs somewhere in [s]. *)
Definition occurs (sep s : jsstring) : Prop :=
  exists a b, s = a ++ sep ++ b.

End JsString.
Import JsString.

(* ================================================================== *)
(** ** serial-reader.js: the [SerialReader] object *)
(* ================================================================== *)

Module Serial.

(** Status strings passed to [updateStatus]. *)
Inductive Status := connected | disconnected | connecting | error.

(** The fields of a [SerialReader].  The port, the reader, the writer and
    the two pipe promises are opaque handles ([None] is [null]); the two
    callbacks are recorded by whether one is registered, and their calls
    are returned by the functions that make them. *)
Record SerialReader := {
  port : option nat;
  reader : option nat;
  writer : option nat;
  isConnected : bool;
  onDataCallback : bool;
  onStatusChangeCallback : bool;
  readableStreamClosed : option nat;
  writableStreamClosed : option nat;
  buffer : jsstring;
  keepReading : bool;
  isDisconnecting : bool
}.

(** [constructor()] *)
Definition constructor : SerialReader := {|
  port := None; reader := None; writer := None; isConnected := false;
  onDataCallback := false; onStatusChangeCallback := false;
  readableStreamClosed := None; writableStreamClosed := None;
  buffer := []; keepReading := false; isDisconnecting := false |}.

Definition set_buffer (b : jsstring) (r : SerialReader) : SerialReader := {|
  port := port r; reader := reader r; writer := writer r;
  isConnected := isConnected r;
  onDataCallback := onDataCallback r;
  onStatusChangeCallback := onStatusChangeCallback r;
  readableStreamClosed := readableStreamClosed r;
  writableStreamClosed := writableStreamClosed r;
  buffer := b; keepReading := keepReading r;
  isDisconnecting := isDisconnecting r |}.

(** [onData(callback)] with a function as argument *)
Definition onData (r : SerialReader) : SerialReader := {|
  port := port r; reader := reader r; writer := writer r;
  isConnected := isConnected r;
  onDataCallback := true;
  onStatusChangeCallback := onStatusChangeCallback r;
  readableStreamClosed := readableStreamClosed r;
  writableStreamClosed := writableStreamClosed r;
  buffer := buffer r; keepReading := keepReading r;
  isDisconnecting := isDisconnecting r |}.

(** The separator line of [processData]: 58 equals signs. *)
Definition separator : jsstring := repeat (char "=") 58.

(** The loop of [processData] over [parts[0 .. length-2]]: the arguments
    of the calls of [onDataCallback], in order. *)
Definition emit (cb : bool) (parts : list jsstring) : list jsstring :=
  filter (fun reading => truthy reading && cb) (map trim (removelast parts)).

(** [processData(chunk)]: the new object and the readings handed to the
    data callback. *)
Definition processData (r : SerialReader) (chunk : jsstring)
  : SerialReader * list jsstring :=
  let buf := buffer r ++ chunk in
  let parts := split separator buf in
  let out := emit (onDataCallback r) parts in
  let rest := last parts [] in
  if (10000 <? strlen rest)%Z then (set_buffer [] r, out)
  else (set_buffer rest r, out).

(** Successive [processData] calls, one per chunk. *)
Fixpoint feed (r : SerialReader) (chunks : list jsstring)
  : SerialReader * list jsstring :=
  match chunks with
  | [] => (r, [])
  | c :: cs =>
      let (r1, out1) := processData r c in
      let (r2, out2) := feed r1 cs in
      (r2, out1 ++ out2)
  end.

(** No call of [feed] takes the overflow branch. *)
Fixpoint no_overflow (r : SerialReader) (chunks : list jsstring) : bool :=
  match chunks with
  | [] => true
  | c :: cs =>
      (strlen (last (split separator (buffer r ++ c)) []) <=? 10000)%Z
      && no_overflow (fst (processData r c)) cs
  end.

(** *** Connection teardown

    The asynchronous methods are run to completion one after the other: a
    method is a function from the object to its outcome (it returns or it
    throws), the object it leaves and the events it caused.  What an
    awaited operation of the browser does is not in the source; whether it
    rejects is a parameter of the model. *)

(** The awaited operations of [_cleanupConnection]: [reader.cancel()],
    [writer.close()], the two pipe promises and [port.close()]. *)
Inductive Operation :=
  | cancel_reader | close_writer | readable_pipe | writable_pipe | close_port.

Inductive Event :=
  | Attempted (op : Operation)
  | Warned (op : Operation)
  | StatusChanged (s : Status).

Inductive Outcome (A : Type) :=
  | Returned (a : A)
  | Thrown.
Arguments Returned {A} a.
Arguments Thrown {A}.

Definition Async (A : Type) : Type :=
  SerialReader -> Outcome A * SerialReader * list Event.

Definition ret {A} (a : A) : Async A := fun r => (Returned a, r, []).

Definition bind {A B} (c : Async A) (k : A -> Async B) : Async B :=
  fun r =>
    match c r with
    | (Returned a, r1, ev1) =>
        match k a r1 with (o, r2, ev2) => (o, r2, ev1 ++ ev2) end
    | (Thrown, r1, ev1) => (Thrown, r1, ev1)
    end.

(** [try { c } catch (error) { handler }] *)
Definition try_catch {A} (c handler : Async A) : Async A :=
  fun r =>
    match c r with
    | (Returned a, r1, ev1) => (Returned a, r1, ev1)
    | (Thrown, r1, ev1) =>
        match handler r1 with (o, r2, ev2) => (o, r2, ev1 ++ ev2) end
    end.

Definition get : Async SerialReader := fun r => (Returned r, r, []).
Definition modify (f : SerialReader -> SerialReader) : Async unit :=
  fun r => (Returned tt, f r, []).
Definition tell (e : Event) : Async unit := fun r => (Returned tt, r, [e]).

Notation "x <- c ;; k" := (bind c (fun x => k))
  (at level 61, c at next level, right associativity).
Notation "c ;; k" := (bind c (fun _ => k))
  (at level 61, right associativity).

Definition set_isConnected (b : bool) (r : SerialReader) : SerialReader := {|
  port := port r; reader := reader r; writer := writer r;
  isConnected := b;
  onDataCallback := onDataCallback r;
  onStatusChangeCallback := onStatusChangeCallback r;
  readableStreamClosed := readableStreamClosed r;
  writableStreamClosed := writableStreamClosed r;
  buffer := buffer r; keepReading := keepReading r;
  isDisconnecting := isDisconnecting r |}.

Definition set_keepReading (b : bool) (r : SerialReader) : SerialReader := {|
  port := port r; reader := reader r; writer := writer r;
  isConnected := isConnected r;
  onDataCallback := onDataCallback r;
  onStatusChangeCallback := onStatusChangeCallback r;
  readableStreamClosed := readableStreamClosed r;
  writableStreamClosed := writableStreamClosed r;
  buffer := buffer r; keepReading := b;
  isDisconnecting := isDisconnecting r |}.

Definition set_isDisconnecting (b : bool) (r : SerialReader) : SerialReader := {|
  port := port r; reader := reader r; writer := writer r;
  isConnected := isConnected r;
  onDataCallback := onDataCallback r;
  onStatusChangeCallback := onStatusChangeCallback r;
  readableStreamClosed := readableStreamClosed r;
  writableStreamClosed := writableStreamClosed r;
  buffer := buffer r; keepReading := keepReading r;
  isDisconnecting := b |}.

(** The assignments of the catch block of [disconnect]. *)
Definition force_cleanup (r : SerialReader) : SerialReader := {|
  port := None; reader := None; writer := None;
  isConnected := isConnected r;
  onDataCallback := onDataCallback r;
  onStatusChangeCallback := onStatusChangeCallback r;
  readableStreamClosed := None;
  writableStreamClosed := None;
  buffer := buffer r; keepReading := keepReading r;
  isDisconnecting := false |}.

(** Step 7 of [_cleanupConnection]: the same, and the buffer emptied. *)
Definition clear_references (r : SerialReader) : SerialReader :=
  set_buffer [] (force_cleanup r).

(** [updateStatus(status, message)] *)
Definition updateStatus (status : Status) : Async unit :=
  modify (set_isConnected
            (match status with connected => true | _ => false end)) ;;
  r <- get ;;
  if onStatusChangeCallback r then tell (StatusChanged status) else ret tt.

Section Teardown.

(** Whether the awaited operation rejects. *)
Variable rejects : Operation -> bool.

Definition await (op : Operation) : Async unit :=
  fun r => (if rejects op then Thrown else Returned tt, r, [Attempted op]).

(** [_safeOperation(operation, operationName)] *)
Definition _safeOperation (operation : Async unit) (operationName : Operation)
  : Async unit :=
  try_catch operation (tell (Warned operationName)).

(** [if (this.field) { await this._safeOperation(...) }] *)
Definition if_set (field : SerialReader -> option nat) (op : Operation)
  : Async unit :=
  r <- get ;;
  match field r with
  | Some _ => _safeOperation (await op) op
  | None => ret tt
  end.

(** [_cleanupConnection()] *)
Definition _cleanupConnection : Async unit :=
  modify (set_keepReading false) ;;
  if_set reader cancel_reader ;;
  if_set writer close_writer ;;
  if_set readableStreamClosed readable_pipe ;;
  if_set writableStreamClosed writable_pipe ;;
  if_set port close_port ;;
  modify clear_references.

(** [disconnect()] *)
Definition disconnect : Async unit :=
  r <- get ;;
  if isDisconnecting r then ret tt
  else
    match port r with
    | None => updateStatus disconnected
    | Some _ =>
        modify (set_isDisconnecting true) ;;
        modify (set_keepReading false) ;;
        try_catch _cleanupConnection (modify force_cleanup) ;;
        updateStatus disconnected
    end.

End Teardown.

(** The operations that a teardown starts on an object: those whose
    handle is set, in the order of the steps. *)
Definition is_set (handle : option nat) : bool :=
  match handle with Some _ => true | None => false end.

Definition operations_due (r : SerialReader) : list Operation :=
  (if is_set (reader r) then [cancel_reader] else [])
  ++ (if is_set (writer r) then [close_writer] else [])
  ++ (if is_set (readableStreamClosed r) then [readable_pipe] else [])
  ++ (if is_set (writableStreamClosed r) then [writable_pipe] else [])
  ++ (if is_set (port r) then [close_port] else []).

Definition attempts (evs : list Event) : list Operation :=
  flat_map (fun e => match e with Attempted op => [op] | _ => [] end) evs.

Definition status_changes (evs : list Event) : list Status :=
  flat_map (fun e => match e with StatusChanged s => [s] | _ => [] end) evs.

(** The events of one guarded step of the teardown. *)
Definition step_events (rejects : Operation -> bool) (r : SerialReader)
    (field : SerialReader -> option nat) (op : Operation) : list Event :=
  if is_set (field r)
  then Attempted op :: (if rejects op then [Warned op] else [])
  else [].

(** The state that every teardown leaves. *)
Definition torn_down (r : SerialReader) : Prop :=
  port r = None /\ reader r = None /\ writer r = None /\
  readableStreamClosed r = None /\ writableStreamClosed r = None /\
  buffer r = [] /\ isDisconnecting r = false /\ keepReading r = false.

(** A chunk one character longer than the cap, without separator. *)
Definition overlong : jsstring := repeat (char "a") (Z.to_nat 10001).

(** The invariant of the retained buffer. *)
Definition framed (r : SerialReader) : Prop :=
  ~ occurs separator (buffer r) /\ (strlen (buffer r) <= 10000)%Z.

End Serial.

(* ================================================================== *)
(** ** JavaScript numbers *)
(* ================================================================== *)

Module JsNumber.

Definition prec : Z := 53.
Definition emax : Z := 1024.

Definition Number := spec_float.

Definition NaN : Number := S754_nan.
Definition zero : Number := S754_zero false.

(** The Number value of an integer (round to nearest, ties to even). *)
Definition of_Z (z : Z) : Number := binary_normalize prec emax z 0 false.

(** The Number value of the decimal [m / 10^k], with the given sign: the
    correctly rounded quotient of the two integers. *)
Definition of_decimal (neg : bool) (m : N) (k : nat) : Number :=
  match m with
  | N0 => S754_zero neg
  | Npos p =>
      SFdiv prec emax (S754_finite neg p 0)
            (S754_finite false (Z.to_pos (10 ^ Z.of_nat k)) 0)
  end.

Definition sub (x y : Number) : Number := SFsub prec emax x y.
Definition abs (x : Number) : Number := SFabs x.
(** [x < y], [x <= y], [x > y], [x >= y] and [x === y] *)
Definition lt (x y : Number) : bool := SFltb x y.
Definition le (x y : Number) : bool := SFleb x y.
Definition gt (x y : Number) : bool := SFltb y x.
Definition ge (x y : Number) : bool := SFleb y x.
Definition strict_eq (x y : Number) : bool := SFeqb x y.
Definition isNaN (x : Number) : bool :=
  match x with S754_nan => true | _ => false end.

Definition is_digit (c : code_unit) : bool := (48 <=? c)%N && (c <=? 57)%N.

(** The longest prefix of [s] whose code units satisfy [p], and the rest. *)
Fixpoint span (p : code_unit -> bool) (s : jsstring) : jsstring * jsstring :=
  match s with
  | c :: s' =>
      if p c then let (a, b) := span p s' in (c :: a, b) else ([], s)
  | [] => ([], [])
  end.

(** The mathematical value of a string of decimal digits. *)
Definition digits_value (ds : jsstring) : N :=
  fold_left (fun acc c => (acc * 10 + (c - 48))%N) ds 0%N.

(** An optional sign in front of the rest of the string. *)
Definition sign_of (s : jsstring) : bool * jsstring :=
  match s with
  | c :: s' =>
      if (c =? char "-")%N then (true, s')
      else if (c =? char "+")%N then (false, s')
      else (false, s)
  | [] => (false, [])
  end.

(** [parseInt(s)] without a radix, for strings that do not start with a
    hexadecimal prefix (the capture groups [(\d+)] and [([-\d]+)] that the
    parser converts contain no letter): leading white space is skipped, a
    sign is read, and the longest run of decimal digits is converted; with
    no digit the result is [NaN]. *)
Definition parseInt (s : jsstring) : Number :=
  let (neg, s1) := sign_of (trimStart s) in
  let (ds, _) := span is_digit s1 in
  match ds with
  | [] => NaN
  | _ =>
      match digits_value ds with
      | N0 => S754_zero neg
      | Npos p => binary_normalize prec emax (if neg then Zneg p else Zpos p) 0 false
      end
  end.

(** [parseFloat(s)] for strings without exponent part or [Infinity] (the
    capture group [([-\d.]+)] contains neither): leading white space is
    skipped, and the longest prefix of the form sign, digits, optional
    point and digits is converted; with no digit the result is [NaN]. *)
Definition parseFloat (s : jsstring) : Number :=
  let (neg, s1) := sign_of (trimStart s) in
  let (ip, s2) := span is_digit s1 in
  let fp :=
    match s2 with
    | c :: s3 => if (c =? char ".")%N then fst (span is_digit s3) else []
    | [] => []
    end in
  match ip ++ fp with
  | [] => NaN
  | ds => of_decimal neg (digits_value ds) (length fp)
  end.

(** The positive normal numbers of exponent at least [lo], and plus
    infinity. *)
Definition normal_or_inf (lo : Z) (x : Number) : Prop :=
  match x with
  | S754_infinity false => True
  | S754_finite false m e => digits2_pos m = 53%positive /\ (lo <= e)%Z
  | _ => False
  end.

(** Plus zero, plus infinity, and the positive normal numbers of exponent
    at least -52: the shapes of the Number values of the naturals. *)
Definition natural (x : Number) : Prop :=
  match x with
  | S754_zero false | S754_infinity false => True
  | S754_finite false m e => digits2_pos m = 53%positive /\ (-52 <= e)%Z
  | _ => False
  end.

End JsNumber.

(* ================================================================== *)
(** ** Regular expressions of the parser *)
(* ================================================================== *)

Module Regex.
Import JsNumber.

(** The four patterns are sequences of literal characters and of greedy
    repetitions [c+] of a character class, some of them captured. *)
Inductive item :=
  | Lit (c : code_unit)
  | Plus (cls : code_unit -> bool) (captured : bool).

Definition pattern := list item.

Definition lits (s : string) : pattern := map Lit (js s).

(** [cls+] followed by the continuation [k]: the longest run is tried
    first, and shorter ones on failure; [acc] is the run taken so far, in
    reverse. *)
Fixpoint plus (cls : code_unit -> bool)
    (k : jsstring -> jsstring -> option (list jsstring))
    (acc s : jsstring) : option (list jsstring) :=
  match s with
  | c :: s' =>
      if cls c then
        match plus cls k (c :: acc) s' with
        | Some r => Some r
        | None => k (rev (c :: acc)) s'
        end
      else None
  | [] => None
  end.

(** A match of the pattern at the start of [s]: the captured groups. *)
Fixpoint match_here (p : pattern) (s : jsstring) : option (list jsstring) :=
  match p with
  | [] => Some []
  | Lit c :: p' =>
      match s with
      | c' :: s' => if (c =? c')%N then match_here p' s' else None
      | [] => None
      end
  | Plus cls cap :: p' =>
      plus cls
        (fun run rest =>
           match match_here p' rest with
           | Some caps => Some (if cap then run :: caps else caps)
           | None => None
           end)
        [] s
  end.

(** [s.match(p)] for a pattern without the global flag: the groups of the
    match at the leftmost position where there is one. *)
Fixpoint exec (p : pattern) (s : jsstring) : option (list jsstring) :=
  match match_here p s with
  | Some caps => Some caps
  | None =>
      match s with
      | [] => None
      | _ :: s' => exec p s'
      end
  end.

Definition is_hex (c : code_unit) : bool :=
  is_digit c || ((65 <=? c)%N && (c <=? 70)%N) || ((97 <=? c)%N && (c <=? 102)%N).
(** [[-\d.]] and [[-\d]] *)
Definition is_decimal_char (c : code_unit) : bool :=
  (c =? char "-")%N || is_digit c || (c =? char ".")%N.
Definition is_integer_char (c : code_unit) : bool :=
  (c =? char "-")%N || is_digit c.

(** The classes of the captured groups of a pattern, in order. *)
Definition capture_classes (p : pattern) : list (code_unit -> bool) :=
  flat_map (fun i => match i with Plus cls true => [cls] | _ => [] end) p.

(** A string that starts with a character of the class. *)
Definition starts_in (cls : code_unit -> bool) (s : jsstring) : Prop :=
  exists c t, s = c :: t /\ cls c = true.

End Regex.

(** [this.patterns] of the [BatteryParser] constructor *)
Module patterns.
Import JsNumber Regex.

(** [/BATERIA TOTAL \((\d+)S\):\s+([-\d.]+)V/] *)
Definition totalVoltage : pattern :=
  lits "BATERIA TOTAL (" ++ [Plus is_digit true] ++ lits "S):"
  ++ [Plus is_space false; Plus is_decimal_char true] ++ lits "V".

(** [/Cel\s+(\d+):\s+([-\d.]+)V/] *)
Definition individualCell : pattern :=
  lits "Cel" ++ [Plus is_space false; Plus is_digit true] ++ lits ":"
  ++ [Plus is_space false; Plus is_decimal_char true] ++ lits "V".

(** [/Módulo\s+(\d+)\s+\(0x([0-9A-Fa-f]+)\):/] *)
Definition moduleHeader : pattern :=
  lits "Módulo" ++ [Plus is_space false; Plus is_digit true; Plus is_space false]
  ++ lits "(0x" ++ [Plus is_hex true] ++ lits "):".

(** [/A(\d+)\s+\((\d+)S\):\s+RAW=([-\d]+)\s+Tensão=([-\d.]+)V/] *)
Definition pinData : pattern :=
  lits "A" ++ [Plus is_digit true; Plus is_space false] ++ lits "("
  ++ [Plus is_digit true] ++ lits "S):" ++ [Plus is_space false]
  ++ lits "RAW=" ++ [Plus is_integer_char true; Plus is_space false]
  ++ lits "Tensão=" ++ [Plus is_decimal_char true] ++ lits "V".

End patterns.

(* ================================================================== *)
(** ** battery-parser.js: the [BatteryParser] class *)
(* ================================================================== *)

Module Parser.
Import JsNumber Regex.

(** The status strings ['good'], ['warning'] and ['danger']. *)
Inductive CellStatus := good | warning | danger.

(** [getCellStatus(voltage)] *)
Definition getCellStatus (voltage : Number) : CellStatus :=
  let absVoltage := abs voltage in
  if lt absVoltage (of_decimal false 1 1) then danger
  else if ge absVoltage (of_decimal false 30 1)
          && le absVoltage (of_decimal false 43 1) then good
  else if gt absVoltage (of_decimal false 43 1)
          || (gt absVoltage (of_decimal false 1 1)
              && lt absVoltage (of_decimal false 25 1)) then warning
  else good.

(** An entry of [data.individualCells].  Its [name] property, the decimal
    rendering of the cell number followed by [S], is read by no function
    of the parser and is left out. *)
Module IndividualCell.
Record t := mk {
  number : Number;
  individualVoltage : Number;
  status : CellStatus
}.
End IndividualCell.

(** A pin of a module. *)
Module Pin.
Record t := mk {
  pin : jsstring;
  cell : jsstring;
  cellNumber : Number;
  raw : Number;
  voltage : Number
}.
End Pin.

(** An element of [data.modules]. *)
Module BatteryModule.
Record t := mk {
  id : Number;
  address : jsstring;
  pins : list Pin.t
}.
End BatteryModule.

(** An element of [data.cells]; [individualVoltage] and [status] are
    absent ([None]) until the reconciliation assigns them. *)
Module Cell.
Record t := mk {
  name : jsstring;
  number : Number;
  voltage : Number;
  raw : Number;
  module : Number;
  pin : jsstring;
  individualVoltage : option Number;
  status : option CellStatus
}.

Definition assign (c : t) (v : Number) (s : CellStatus) : t :=
  mk (name c) (number c) (voltage c) (raw c) (module c) (pin c)
     (Some v) (Some s).
End Cell.

(** The object returned by [parse], without its [timestamp]. *)
Module Reading.
Record t := mk {
  totalVoltage : Number;
  cellCount : Number;
  cells : list Cell.t;
  individualCells : list IndividualCell.t;
  modules : list BatteryModule.t
}.
End Reading.

(** [m[i]] for a match [m] and a group index [i >= 1]. *)
Definition group (m : list jsstring) (i : nat) : jsstring :=
  nth (pred i) m [].

(** [text.split('\n').map(line => line.trim()).filter(line => line)] *)
Definition lines_of (text : jsstring) : list jsstring :=
  filter truthy (map trim (split [10%N] text)).

(** The body of the first loop of [parse]: the entry that a line pushes
    onto [data.individualCells], if any. *)
Definition individualCell_of_line (line : jsstring) : list IndividualCell.t :=
  match exec patterns.individualCell line with
  | Some cellMatch =>
      let cellNumber := parseInt (group cellMatch 1) in
      let voltage := parseFloat (group cellMatch 2) in
      [IndividualCell.mk cellNumber voltage (getCellStatus voltage)]
  | None => []
  end.

(** The variables of the second loop of [parse]. *)
Record loop_state := {
  currentModule : option BatteryModule.t;
  modules_so_far : list BatteryModule.t;
  cells_so_far : list Cell.t
}.

Definition push_module (st : loop_state) : list BatteryModule.t :=
  match currentModule st with
  | Some m => modules_so_far st ++ [m]
  | None => modules_so_far st
  end.

(** The body of the second loop of [parse]. *)
Definition module_step (st : loop_state) (line : jsstring) : loop_state :=
  match exec patterns.moduleHeader line with
  | Some moduleMatch =>
      {| currentModule :=
           Some (BatteryModule.mk (parseInt (group moduleMatch 1))
                                  (group moduleMatch 2) []);
         modules_so_far := push_module st;
         cells_so_far := cells_so_far st |}
  | None =>
      match exec patterns.pinData line, currentModule st with
      | Some pinMatch, Some cm =>
          let pin :=
            Pin.mk (char "A" :: group pinMatch 1)
                   (group pinMatch 2 ++ js "S")
                   (parseInt (group pinMatch 2))
                   (parseInt (group pinMatch 3))
                   (parseFloat (group pinMatch 4)) in
          {| currentModule :=
               Some (BatteryModule.mk (BatteryModule.id cm)
                       (BatteryModule.address cm)
                       (BatteryModule.pins cm ++ [pin]));
             modules_so_far := modules_so_far st;
             cells_so_far :=
               cells_so_far st ++
               [Cell.mk (Pin.cell pin) (Pin.cellNumber pin) (Pin.voltage pin)
                        (Pin.raw pin) (BatteryModule.id cm) (Pin.pin pin)
                        None None] |}
      | _, _ => st
      end
  end.

(** The comparator [(a, b) => a.number - b.number], and [SortCompare] of
    ECMAScript, which reads a [NaN] result as [+0]. *)
Definition comparefn (a b : Cell.t) : Number :=
  sub (Cell.number a) (Cell.number b).

Definition SortCompare (a b : Cell.t) : Number :=
  let v := comparefn a b in if isNaN v then zero else v.

(** [Array.prototype.sort] is stable: an element goes after the elements
    it compares greater than and before the others, the elements that
    compare equal keeping their order.  For a consistent comparator this
    determines the result, here computed by insertion. *)
Fixpoint insert (x : Cell.t) (l : list Cell.t) : list Cell.t :=
  match l with
  | [] => [x]
  | y :: l' =>
      if gt (SortCompare x y) zero then y :: insert x l' else x :: l
  end.

Fixpoint sort (l : list Cell.t) : list Cell.t :=
  match l with
  | [] => []
  | x :: l' => insert x (sort l')
  end.

(** The body of the merging loop of [parse]. *)
Definition merge (individualCells : list IndividualCell.t) (cell : Cell.t)
  : Cell.t :=
  match find (fun ic => strict_eq (IndividualCell.number ic) (Cell.number cell))
             individualCells with
  | Some individualCell =>
      Cell.assign cell (IndividualCell.individualVoltage individualCell)
                  (IndividualCell.status individualCell)
  | None => Cell.assign cell zero danger
  end.

(** The loop of [calculateIndividualVoltages] from index [i] on; [prev] is
    [cells[i - 1].voltage], absent when [i] is 0. *)
Fixpoint calculate_from (prev : option Number) (cells : list Cell.t)
  : list Cell.t :=
  match cells with
  | [] => []
  | c :: cs =>
      let individualVoltage :=
        match prev with
        | None => Cell.voltage c
        | Some p => sub (Cell.voltage c) p
        end in
      Cell.assign c individualVoltage (getCellStatus individualVoltage)
      :: calculate_from (Some (Cell.voltage c)) cs
  end.

(** [calculateIndividualVoltages(cells)] *)
Definition calculateIndividualVoltages (cells : list Cell.t) : list Cell.t :=
  calculate_from None cells.

(** The second loop of [parse], from [currentModule = null] and the two
    empty arrays. *)
Definition no_module : loop_state :=
  {| currentModule := None; modules_so_far := []; cells_so_far := [] |}.

Definition scan (lines : list jsstring) : loop_state :=
  fold_left module_step lines no_module.

(** Lines joined by line feeds, for writing records down. *)
Fixpoint unlines (ls : list string) : jsstring :=
  match ls with
  | [] => []
  | [l] => js l
  | l :: rest => js l ++ 10%N :: unlines rest
  end.

(** [parse(text)] *)
Definition parse (text : jsstring) : Reading.t :=
  let lines := lines_of text in
  let totalMatch := exec patterns.totalVoltage text in
  let cellCount :=
    match totalMatch with Some m => parseInt (group m 1) | None => zero end in
  let totalVoltage :=
    match totalMatch with Some m => parseFloat (group m 2) | None => zero end in
  let individualCells := flat_map individualCell_of_line lines in
  let st := scan lines in
  let modules := push_module st in
  let cells := sort (cells_so_far st) in
  let cells :=
    match individualCells with
    | _ :: _ => map (merge individualCells) cells
    | [] => calculateIndividualVoltages cells
    end in
  Reading.mk totalVoltage cellCount cells individualCells modules.

(** *** Predicates and records used in the statements *)

(** The four clauses of the classification, on the absolute value [a];
    the thresholds are the Number values of 0.1, 3.0, 4.3 and 2.5. *)
Definition classified (v : Number) : Prop :=
  let a := abs v in
  (lt a (of_decimal false 1 1) = true -> getCellStatus v = danger) /\
  (ge a (of_decimal false 30 1) = true -> le a (of_decimal false 43 1) = true ->
   getCellStatus v = good) /\
  (gt a (of_decimal false 43 1) = true \/
   (gt a (of_decimal false 1 1) = true /\ lt a (of_decimal false 25 1) = true) ->
   getCellStatus v = warning) /\
  (lt a (of_decimal false 1 1) = false ->
   ge a (of_decimal false 30 1) && le a (of_decimal false 43 1) = false ->
   gt a (of_decimal false 43 1)
   || (gt a (of_decimal false 1 1) && lt a (of_decimal false 25 1)) = false ->
   getCellStatus v = good).

(** The cell numbers of the pins of a list of modules, in order. *)
Definition pin_numbers (ms : list BatteryModule.t) : list Number :=
  flat_map (fun m => map Pin.cellNumber (BatteryModule.pins m)) ms.

(** The order of the cells by number. *)
Definition ascending (a b : Cell.t) : Prop :=
  le (Cell.number a) (Cell.number b) = true.

(** The entry of the section that [find] returns for a cell. *)
Definition matching (c : Cell.t) (ic : IndividualCell.t) : bool :=
  strict_eq (IndividualCell.number ic) (Cell.number c).

(** The rule of the specification for the section: a cell takes the
    voltage and the status of every entry of the section with its
    number, and a cell without such an entry gets 0 and "danger". *)
Definition every_matching_entry_is_taken (text : jsstring) : Prop :=
  let section := Reading.individualCells (parse text) in
  section <> [] ->
  forall c, In c (Reading.cells (parse text)) ->
    (forall ic, In ic section -> matching c ic = true ->
       Cell.individualVoltage c = Some (IndividualCell.individualVoltage ic) /\
       Cell.status c = Some (IndividualCell.status ic)) /\
    ((forall ic, In ic section -> matching c ic = false) ->
       Cell.individualVoltage c = Some zero /\ Cell.status c = Some danger).

(** The rule of the specification for duplicates in the section: of the
    entries with the number of a cell, the one that no later one follows
    gives the cell its voltage and status. *)
Definition last_duplicate_wins (text : jsstring) : Prop :=
  forall c pre ic post,
    In c (Reading.cells (parse text)) ->
    Reading.individualCells (parse text) = pre ++ ic :: post ->
    matching c ic = true ->
    (forall later, In later post -> matching c later = false) ->
    Cell.individualVoltage c = Some (IndividualCell.individualVoltage ic) /\
    Cell.status c = Some (IndividualCell.status ic).

Definition duplicated_section : jsstring :=
  unlines ["Cel 1: 3.50V"; "Cel 1: 0.05V"; "Módulo 1 (0x48):";
           "A0 (1S): RAW=20000  Tensão=3.500V"]%string.

(** The record of the example of the specification. *)
Definition example_record : jsstring :=
  unlines ["BATERIA TOTAL (2S): 7.95V"; "Cel 1: 3.96V"; "Cel 2: 3.99V";
           "Módulo 1 (0x48):"; "  A0 (1S): RAW=22645  Tensão=3.963V";
           "  A1 (2S): RAW=22723  Tensão=7.953V"]%string.

(** Two pin lines of two modules for the same cell. *)
Definition one_cell_two_pins : jsstring :=
  unlines ["Módulo 1 (0x48):"; "A0 (1S): RAW=22645  Tensão=3.963V";
           "Módulo 2 (0x49):"; "A0 (1S): RAW=22650  Tensão=3.964V"]%string.

(** A section with two entries for cell 1 and none for cell 2. *)
Definition section_with_gap : jsstring :=
  unlines ["Cel 1: 3.50V"; "Cel 1: 0.05V"; "Módulo 1 (0x48):";
           "A0 (1S): RAW=20000  Tensão=3.500V";
           "A1 (2S): RAW=40000  Tensão=7.000V"]%string.

(** A record without individual-cells section, its pins out of order. *)
Definition no_section_record : jsstring :=
  unlines ["Módulo 1 (0x48):"; "A1 (2S): RAW=22723  Tensão=7.953V";
           "A0 (1S): RAW=22645  Tensão=3.963V"]%string.

End Parser.

(* ================================================================== *)
(** ** battery-parser.js: [getSummary], and the cells the application shows *)
(* ================================================================== *)

Module Summary.
Import JsNumber Parser.

(** [a + b] and [a / b] *)
Definition add (x y : Number) : Number := SFadd prec emax x y.
Definition div (x y : Number) : Number := SFdiv prec emax x y.

Definition is_zero (s : bool) (x : Number) : bool :=
  match x with S754_zero s' => Bool.eqb s s' | _ => false end.

(** The loop of [Math.min]: a [NaN] argument makes the result [NaN]; a
    smaller number replaces the lowest one, and so does [-0] when the
    lowest one is [+0]. *)
Fixpoint min_from (lowest : Number) (l : list Number) : Number :=
  match l with
  | [] => lowest
  | x :: l' =>
      if isNaN x then NaN
      else if is_zero true x && is_zero false lowest then min_from x l'
      else if lt x lowest then min_from x l'
      else min_from lowest l'
  end.

(** The loop of [Math.max], in the same way. *)
Fixpoint max_from (highest : Number) (l : list Number) : Number :=
  match l with
  | [] => highest
  | x :: l' =>
      if isNaN x then NaN
      else if is_zero false x && is_zero true highest then max_from x l'
      else if gt x highest then max_from x l'
      else max_from highest l'
  end.

(** [Math.min(...l)] and [Math.max(...l)] *)
Definition Math_min (l : list Number) : Number :=
  min_from (S754_infinity false) l.
Definition Math_max (l : list Number) : Number :=
  max_from (S754_infinity true) l.

(** The object returned by [getSummary]. *)
Record t := mk {
  count : Number;
  avgVoltage : Number;
  minVoltage : Number;
  maxVoltage : Number;
  voltageSpread : Number
}.

Definition empty : t := mk zero zero zero zero zero.

(** [cells.map(c => c.individualVoltage).filter(v => v > 0)]; an absent
    individual voltage is [undefined], which is not greater than 0. *)
Definition positive_voltages (cells : list Cell.t) : list Number :=
  flat_map (fun c =>
              match Cell.individualVoltage c with
              | Some v => if gt v zero then [v] else []
              | None => []
              end) cells.

(** The [length] of an array, as a Number. *)
Definition length_of {A} (l : list A) : Number := of_Z (Z.of_nat (length l)).

(** [getSummary(data)] *)
Definition getSummary (data : Reading.t) : t :=
  match Reading.cells data with
  | [] => empty
  | _ =>
      let voltages := positive_voltages (Reading.cells data) in
      match voltages with
      | [] => empty
      | _ =>
          let minVoltage := Math_min voltages in
          let maxVoltage := Math_max voltages in
          let avgVoltage :=
            div (fold_left add voltages zero) (length_of voltages) in
          mk (length_of voltages) avgVoltage minVoltage maxVoltage
             (sub maxVoltage minVoltage)
      end
  end.

(** A Number greater than 0: positive and finite, or plus infinity. *)
Definition positive (x : Number) : Prop :=
  match x with
  | S754_infinity false | S754_finite false _ _ => True
  | _ => False
  end.

End Summary.

(** The application (the class [BatteryMonitor]) filters the cells it
    draws and charts. *)
Module App.
Import JsNumber Parser.

(** The test [cell.individualVoltage > 0.1] of [updateCellsGrid] and of
    [updateChart]. *)
Definition valid (cell : Cell.t) : bool :=
  match Cell.individualVoltage cell with
  | Some v => gt v (of_decimal false 1 1)
  | None => false
  end.

(** [cells.filter(cell => cell.individualVoltage > 0.1)] *)
Definition validCells (cells : list Cell.t) : list Cell.t :=
  filter valid cells.

End App.

(** What the statements about the cells, the pins and the lines are
    written with. *)
Module ParserViews.
Import JsNumber Regex Parser.

(** What a cell keeps of the pin it was made from: name, number,
    cumulative voltage, raw value, module and pin label. *)
Definition cell_source (c : Cell.t)
  : jsstring * Number * Number * Number * Number * jsstring :=
  (Cell.name c, Cell.number c, Cell.voltage c, Cell.raw c, Cell.module c,
   Cell.pin c).

Definition pin_sources (ms : list BatteryModule.t)
  : list (jsstring * Number * Number * Number * Number * jsstring) :=
  flat_map (fun m =>
              map (fun p => (Pin.cell p, Pin.cellNumber p, Pin.voltage p,
                             Pin.raw p, BatteryModule.id m, Pin.pin p))
                  (BatteryModule.pins m)) ms.

(** The identifier and address that a module header line declares. *)
Definition header_of_line (line : jsstring) : list (Number * jsstring) :=
  match exec patterns.moduleHeader line with
  | Some moduleMatch => [(parseInt (group moduleMatch 1), group moduleMatch 2)]
  | None => []
  end.

(** A line that one of the three line patterns matches. *)
Definition relevant (line : jsstring) : bool :=
  match exec patterns.individualCell line, exec patterns.moduleHeader line,
        exec patterns.pinData line with
  | None, None, None => false
  | _, _, _ => true
  end.

(** A cell with an individual voltage and the status of that voltage. *)
Definition reconciled (c : Cell.t) : Prop :=
  exists v, Cell.individualVoltage c = Some v /\
            Cell.status c = Some (getCellStatus v).

(** A record whose pin lines come under no module header. *)
Definition orphan_pins : jsstring :=
  unlines ["BATERIA TOTAL (2S): 7.95V"; "Cel 1: 3.96V";
           "A0 (1S): RAW=22645  Tensão=3.963V";
           "A1 (2S): RAW=22723  Tensão=7.953V"]%string.

(** The example record inside the banners and blank lines of the device. *)
Definition framed_record : jsstring :=
  unlines ["--- LEITURA ATUAL ---"; "BATERIA TOTAL (2S): 7.95V"; "";
           "--- Tensoes Individuais ---"; "  Cel 1: 3.96V"; "  Cel 2: 3.99V";
           ""; "--- Debug ---"; "Módulo 1 (0x48):";
           "  A0 (1S): RAW=22645  Tensão=3.963V";
           "  A1 (2S): RAW=22723  Tensão=7.953V"; ""]%string.

End ParserViews.

(** What the statements about the readings and the line endings are
    written with. *)
Module Framing.
Import Serial.

(** A segment that ends where the leftmost separator of a text begins:
    the separator occurs neither inside it nor across its end. *)
Definition ends_at_first (sep segment : jsstring) : Prop :=
  ~ occurs sep (segment ++ removelast sep).

(** A reading as the data callback can get it: not empty, without white
    space at either end and without a separator inside. *)
Definition well_formed (reading : jsstring) : Prop :=
  reading <> [] /\ trim reading = reading /\ ~ occurs separator reading.

(** The text with a carriage return put before every line feed. *)
Definition with_carriage_returns (text : jsstring) : jsstring :=
  flat_map (fun c => if (c =? 10)%N then [13%N; 10%N] else [c]) text.

(** A line, or the same line with a carriage return at its end. *)
Definition same_line (p q : jsstring) : Prop := p = q \/ p = q ++ [13%N].

End Framing.

(* ================================================================== *)
(** ** serial-reader.js: [connect], [readLoop] and [write] *)
(* ================================================================== *)

Module Connection.
Import Serial.

(** The [name] of a thrown error, as far as the source looks at it. *)
Inductive ErrorName := NetworkError | AbortError | OtherError.

(** The steps of [connect] that call into the browser:
    [navigator.serial.requestPort()], [port.open(...)],
    [port.readable.pipeTo(...)], [textDecoder.readable.getReader()] and
    [port.writable.getWriter()]. *)
Inductive Setup :=
  | request_port | open_port | pipe_decoder | get_reader | get_writer.

(** What a method does that can be observed: the events of the teardown
    and of [updateStatus], the browser calls of [connect], the readings
    handed to the data callback, and the text given to [writer.write]
    (before its encoding). *)
Inductive Trace :=
  | Serial_event (e : Event)
  | Setup_started (op : Setup)
  | Data (reading : jsstring)
  | Written (text : jsstring).

Inductive Result (A : Type) :=
  | Ok (a : A)
  | Err (name : ErrorName).
Arguments Ok {A} a.
Arguments Err {A} name.

(** A method run to completion, as [Async] above, with the name of the
    error when it throws. *)
Definition Promise (A : Type) : Type :=
  SerialReader -> Result A * SerialReader * list Trace.

Definition pure {A} (a : A) : Promise A := fun r => (Ok a, r, []).

Definition throw {A} (name : ErrorName) : Promise A := fun r => (Err name, r, []).

Definition and_then {A B} (c : Promise A) (k : A -> Promise B) : Promise B :=
  fun r =>
    match c r with
    | (Ok a, r1, t1) =>
        match k a r1 with (o, r2, t2) => (o, r2, t1 ++ t2) end
    | (Err name, r1, t1) => (Err name, r1, t1)
    end.

(** [try { c } catch (error) { handler(error) }] *)
Definition catching {A} (c : Promise A) (handler : ErrorName -> Promise A)
  : Promise A :=
  fun r =>
    match c r with
    | (Ok a, r1, t1) => (Ok a, r1, t1)
    | (Err name, r1, t1) =>
        match handler name r1 with (o, r2, t2) => (o, r2, t1 ++ t2) end
    end.

Definition this : Promise SerialReader := fun r => (Ok r, r, []).
Definition update (f : SerialReader -> SerialReader) : Promise unit :=
  fun r => (Ok tt, f r, []).

(** A method of the teardown part, as such a method. *)
Definition lift {A} (c : Async A) : Promise A :=
  fun r =>
    match c r with
    | (Returned a, r1, ev) => (Ok a, r1, map Serial_event ev)
    | (Thrown, r1, ev) => (Err OtherError, r1, map Serial_event ev)
    end.

Declare Scope promise_scope.
Delimit Scope promise_scope with promise.
Notation "x <- c ;; k" := (and_then c (fun x => k))
  (at level 61, c at next level, right associativity) : promise_scope.
Notation "c ;; k" := (and_then c (fun _ => k))
  (at level 61, right associativity) : promise_scope.
Local Open Scope promise_scope.

Definition set_port (h : option nat) (r : SerialReader) : SerialReader := {|
  port := h; reader := reader r; writer := writer r;
  isConnected := isConnected r;
  onDataCallback := onDataCallback r;
  onStatusChangeCallback := onStatusChangeCallback r;
  readableStreamClosed := readableStreamClosed r;
  writableStreamClosed := writableStreamClosed r;
  buffer := buffer r; keepReading := keepReading r;
  isDisconnecting := isDisconnecting r |}.

Definition set_reader (h : option nat) (r : SerialReader) : SerialReader := {|
  port := port r; reader := h; writer := writer r;
  isConnected := isConnected r;
  onDataCallback := onDataCallback r;
  onStatusChangeCallback := onStatusChangeCallback r;
  readableStreamClosed := readableStreamClosed r;
  writableStreamClosed := writableStreamClosed r;
  buffer := buffer r; keepReading := keepReading r;
  isDisconnecting := isDisconnecting r |}.

Definition set_writer (h : option nat) (r : SerialReader) : SerialReader := {|
  port := port r; reader := reader r; writer := h;
  isConnected := isConnected r;
  onDataCallback := onDataCallback r;
  onStatusChangeCallback := onStatusChangeCallback r;
  readableStreamClosed := readableStreamClosed r;
  writableStreamClosed := writableStreamClosed r;
  buffer := buffer r; keepReading := keepReading r;
  isDisconnecting := isDisconnecting r |}.

Definition set_readableStreamClosed (h : option nat) (r : SerialReader)
  : SerialReader := {|
  port := port r; reader := reader r; writer := writer r;
  isConnected := isConnected r;
  onDataCallback := onDataCallback r;
  onStatusChangeCallback := onStatusChangeCallback r;
  readableStreamClosed := h;
  writableStreamClosed := writableStreamClosed r;
  buffer := buffer r; keepReading := keepReading r;
  isDisconnecting := isDisconnecting r |}.

(** [onStatusChange(callback)] with a function as argument *)
Definition onStatusChange (r : SerialReader) : SerialReader := {|
  port := port r; reader := reader r; writer := writer r;
  isConnected := isConnected r;
  onDataCallback := onDataCallback r;
  onStatusChangeCallback := true;
  readableStreamClosed := readableStreamClosed r;
  writableStreamClosed := writableStreamClosed r;
  buffer := buffer r; keepReading := keepReading r;
  isDisconnecting := isDisconnecting r |}.

(** [getConnectionStatus()] *)
Definition getConnectionStatus (r : SerialReader) : bool := isConnected r.

(** The browser of one [connect] call: whether it has the Web Serial API,
    the error, if any, that each setup step throws, whether each awaited
    operation of the teardown rejects, and the objects it hands out. *)
Record Browser := {
  supported : bool;
  fails : Setup -> option ErrorName;
  rejects : Operation -> bool;
  new_port : nat;
  new_pipe : nat;
  new_reader : nat;
  new_writer : nat
}.

Section Connect.
Variable env : Browser.

Definition attempt (op : Setup) : Promise unit :=
  fun r =>
    (match fails env op with Some name => Err name | None => Ok tt end,
     r, [Setup_started op]).

(** The [try] block of [connect], up to the start of the read loop. *)
Definition establish : Promise unit :=
  lift (updateStatus connecting) ;;
  attempt request_port ;;
  update (set_port (Some (new_port env))) ;;
  attempt open_port ;;
  attempt pipe_decoder ;;
  update (set_readableStreamClosed (Some (new_pipe env))) ;;
  attempt get_reader ;;
  update (set_reader (Some (new_reader env))) ;;
  attempt get_writer ;;
  update (set_writer (Some (new_writer env))) ;;
  update (set_keepReading true) ;;
  update (set_isDisconnecting false) ;;
  lift (updateStatus connected).

(** [connect(baudRate)]; the read loop that it starts runs after it has
    returned, and is [readLoop_caught] below. *)
Definition connect : Promise unit :=
  if negb (supported env) then
    lift (updateStatus error) ;; throw OtherError
  else
    r <- this ;;
    if isDisconnecting r then pure tt
    else
      (if is_set (port r) && negb (isConnected r)
       then lift (_cleanupConnection (rejects env)) else pure tt) ;;
      r <- this ;;
      if is_set (port r) && isConnected r then pure tt
      else
        catching establish
          (fun name =>
             lift (_cleanupConnection (rejects env)) ;;
             lift (updateStatus error) ;;
             throw name).

End Connect.

(** What [reader.read()] resolves to, or the error it rejects with. *)
Inductive ReadResult :=
  | chunk (value : jsstring)
  | done
  | failure (name : ErrorName).

(** How the loop stops: it has returned, or it waits for a read that the
    list of results does not answer. *)
Inductive LoopEnd := finished | waiting.

(** [this.processData(value)] as a step of the loop. *)
Definition process (value : jsstring) : Promise unit :=
  fun r => let (r1, out) := processData r value in (Ok tt, r1, map Data out).

Definition expected (name : ErrorName) : bool :=
  match name with NetworkError | AbortError => true | OtherError => false end.

(** The [while] loop of [readLoop], on the successive results of
    [reader.read()]. *)
Fixpoint read_iterations (reads : list ReadResult) : Promise LoopEnd :=
  r <- this ;;
  if is_set (port r) && keepReading r && negb (isDisconnecting r) then
    match reads with
    | [] => pure waiting
    | done :: _ => pure finished
    | chunk value :: rest =>
        (if truthy value then process value else pure tt) ;;
        read_iterations rest
    | failure name :: _ => throw name
    end
  else pure finished.

(** [readLoop()] *)
Definition readLoop (reads : list ReadResult) : Promise LoopEnd :=
  catching (read_iterations reads)
    (fun name =>
       r <- this ;;
       if expected name || isDisconnecting r then pure finished
       else throw name).

(** [this.readLoop().catch(error => ...)] of [connect] *)
Definition readLoop_caught (reads : list ReadResult) : Promise unit :=
  catching (readLoop reads ;; pure tt)
    (fun name =>
       r <- this ;;
       if negb (isDisconnecting r) && negb (expected name)
       then lift (updateStatus error) else pure tt).

(** [write(data)]; [write_fails] is the error, if any, that
    [writer.write] rejects with. *)
Definition write (write_fails : option ErrorName) (data : jsstring)
  : Promise unit :=
  r <- this ;;
  if negb (is_set (writer r)) || isDisconnecting r then throw OtherError
  else
    catching
      (fun r =>
         (match write_fails with Some name => Err name | None => Ok tt end,
          r, [Written (data ++ [13%N; 10%N])]))
      (fun name =>
         r <- this ;;
         if negb (isDisconnecting r) then throw name else pure tt).

(** The calls that the application and the read loop make on the
    object, with what the browser does in each. *)
Inductive Call :=
  | call_onData
  | call_onStatusChange
  | call_connect (env : Browser)
  | call_disconnect (rejects : Operation -> bool)
  | call_read (reads : list ReadResult)
  | call_write (write_fails : option ErrorName) (data : jsstring).

Definition state_after {A} (x : A * SerialReader * list Trace) : SerialReader :=
  snd (fst x).
Definition trace_of {A} (x : A * SerialReader * list Trace) : list Trace :=
  snd x.
Definition result_of {A} (x : Result A * SerialReader * list Trace) : Result A :=
  fst (fst x).

Definition run_call (r : SerialReader) (c : Call) : SerialReader :=
  match c with
  | call_onData => onData r
  | call_onStatusChange => onStatusChange r
  | call_connect env => state_after (connect env r)
  | call_disconnect rejects => state_after (lift (disconnect rejects) r)
  | call_read reads => state_after (readLoop_caught reads r)
  | call_write write_fails data => state_after (write write_fails data r)
  end.

Definition call_trace (r : SerialReader) (c : Call) : list Trace :=
  match c with
  | call_onData | call_onStatusChange => []
  | call_connect env => trace_of (connect env r)
  | call_disconnect rejects => trace_of (lift (disconnect rejects) r)
  | call_read reads => trace_of (readLoop_caught reads r)
  | call_write write_fails data => trace_of (write write_fails data r)
  end.

(** The states of an object after a sequence of calls on a new one. *)
Definition reachable (r : SerialReader) : Prop :=
  exists calls, r = fold_left run_call calls constructor.

(** The browser calls, the status notifications and the teardown
    operations of a trace. *)
Definition setup_steps (t : list Trace) : list Setup :=
  flat_map (fun e => match e with Setup_started op => [op] | _ => [] end) t.

Definition statuses (t : list Trace) : list Status :=
  flat_map (fun e => match e with
                     | Serial_event (StatusChanged s) => [s]
                     | _ => []
                     end) t.

Definition teardown_steps (t : list Trace) : list Operation :=
  flat_map (fun e => match e with
                     | Serial_event (Attempted op) => [op]
                     | _ => []
                     end) t.

Definition readings (t : list Trace) : list jsstring :=
  flat_map (fun e => match e with Data s => [s] | _ => [] end) t.

Definition writes (t : list Trace) : list jsstring :=
  flat_map (fun e => match e with Written s => [s] | _ => [] end) t.

Definition all_setup : list Setup :=
  [request_port; open_port; pipe_decoder; get_reader; get_writer].

(** The first setup step that throws, with its error. *)
Fixpoint first_failure (fails : Setup -> option ErrorName) (ops : list Setup)
  : option (Setup * ErrorName) :=
  match ops with
  | [] => None
  | op :: ops' =>
      match fails op with
      | Some name => Some (op, name)
      | None => first_failure fails ops'
      end
  end.

Definition Setup_eqb (a b : Setup) : bool :=
  match a, b with
  | request_port, request_port | open_port, open_port
  | pipe_decoder, pipe_decoder | get_reader, get_reader
  | get_writer, get_writer => true
  | _, _ => false
  end.

(** The steps up to and including [op]. *)
Fixpoint through (op : Setup) (ops : list Setup) : list Setup :=
  match ops with
  | [] => []
  | o :: ops' => if Setup_eqb o op then [o] else o :: through op ops'
  end.

(** An object that [connect] goes on to connect: no disconnection under
    way and no live connection. *)
Definition connectable (r : SerialReader) : Prop :=
  isDisconnecting r = false /\
  (is_set (port r) = true -> isConnected r = false).

(** The handles are all set or all cleared (the pipe of the writable
    side is never set), the flags agree with them, and without a port the
    buffer is empty. *)
Definition consistent (r : SerialReader) : Prop :=
  isDisconnecting r = false /\
  writableStreamClosed r = None /\
  is_set (reader r) = is_set (port r) /\
  is_set (writer r) = is_set (port r) /\
  is_set (readableStreamClosed r) = is_set (port r) /\
  (isConnected r = true -> is_set (port r) = true) /\
  (keepReading r = true -> is_set (port r) = true) /\
  (is_set (port r) = false -> buffer r = []) /\
  framed r.

(** The call of the status listener, if one is registered. *)
Definition status_event (r : SerialReader) (s : Status) : list Trace :=
  if onStatusChangeCallback r then [Serial_event (StatusChanged s)] else [].

(** The object when every setup step has succeeded. *)
Definition set_up (env : Browser) (r : SerialReader) : SerialReader :=
  set_isConnected true
    (set_isDisconnecting false
       (set_keepReading true
          (set_writer (Some (new_writer env))
             (set_reader (Some (new_reader env))
                (set_readableStreamClosed (Some (new_pipe env))
                   (set_port (Some (new_port env))
                      (set_isConnected false r))))))).

(** The object and the trace after the teardown of a stale port, which
    [connect] runs first when a port is set without a live connection. *)
Definition freshened (env : Browser) (r : SerialReader)
  : SerialReader * list Trace :=
  if is_set (port r)
  then (clear_references (set_keepReading false r),
        map Serial_event (snd (_cleanupConnection (rejects env) r)))
  else (r, []).

(** The [catch] block of [connect]. *)
Definition on_failure (env : Browser) (name : ErrorName) : Promise unit :=
  lift (_cleanupConnection (rejects env)) ;;
  lift (updateStatus error) ;;
  throw name.

(** No handle is set. *)
Definition idle (r : SerialReader) : Prop :=
  port r = None /\ reader r = None /\ writer r = None /\
  readableStreamClosed r = None /\ writableStreamClosed r = None.

(** The teardown operations that undo the setup steps before [op]. *)
Definition undone (op : Setup) : list Operation :=
  match op with
  | request_port => []
  | open_port | pipe_decoder => [close_port]
  | get_reader => [readable_pipe; close_port]
  | get_writer => [cancel_reader; readable_pipe; close_port]
  end.

(** The loop condition of [readLoop]. *)
Definition reading (r : SerialReader) : Prop :=
  is_set (port r) = true /\ keepReading r = true /\ isDisconnecting r = false.

(** A browser in which every step succeeds. *)
Definition working_browser : Browser := {|
  supported := true;
  fails := fun _ => None;
  rejects := fun _ => false;
  new_port := 0; new_pipe := 1; new_reader := 2; new_writer := 3 |}.

(** A browser in which the chosen port cannot be opened. *)
Definition busy_port : Browser := {|
  supported := true;
  fails := fun op => match op with
                     | open_port => Some NetworkError
                     | _ => None
                     end;
  rejects := fun _ => false;
  new_port := 0; new_pipe := 1; new_reader := 2; new_writer := 3 |}.

(** A browser without the Web Serial API. *)
Definition no_serial : Browser := {|
  supported := false;
  fails := fun _ => None;
  rejects := fun _ => false;
  new_port := 0; new_pipe := 1; new_reader := 2; new_writer := 3 |}.

(** A new object with both listeners registered, and the same after a
    successful [connect]. *)
Definition listening : SerialReader := onStatusChange (onData constructor).

Definition live : SerialReader :=
  fold_left run_call
    [call_onData; call_onStatusChange; call_connect working_browser]
    constructor.

(** The teardown as the specification words it: the five operations are
    all attempted, in the order of the steps, and the object is left
    without port, reader and writer, with an empty buffer, not
    disconnecting and not connected. *)
Definition five_steps_then_idle (run : Async unit) (r : SerialReader)
  : Prop :=
  let '(_, r', events) := run r in
  attempts events =
    [cancel_reader; close_writer; readable_pipe; writable_pipe; close_port] /\
  port r' = None /\ reader r' = None /\ writer r' = None /\
  buffer r' = [] /\ isDisconnecting r' = false /\ isConnected r' = false.

End Connection.

(* ================================================================== *)
(** ** The chart: [ChartManager] and [updateChart] *)
(* ================================================================== *)

(** The class [ChartManager] keeps the rolling window of the chart: the
    time labels and, for each cell name, a dataset with the voltages
    drawn.  The Chart.js object that it also updates is left out; what
    is modelled are the fields of the manager itself. *)
Module Chart.
Import JsNumber Parser.

(** Strict equality of strings. *)
Definition string_eqb (a b : jsstring) : bool :=
  if list_eq_dec N.eq_dec a b then true else false.

(** [String.prototype.replace] with a string pattern and a replacement
    without [$]: the first occurrence is replaced. *)
Definition replace (pattern replacement s : jsstring) : jsstring :=
  match indexOf_split pattern s with
  | Some (before, after) => before ++ replacement ++ after
  | None => s
  end.

(** An entry of [this.datasets]. *)
Record Dataset := {
  label : jsstring;
  data : list Number;
  borderColor : jsstring;
  backgroundColor : jsstring;
  fill : bool
}.

(** The fields of a [ChartManager]; the [Map] of datasets is the list of
    its entries in insertion order. *)
Record ChartManager := {
  maxDataPoints : Z;
  datasets : list (jsstring * Dataset);
  labels : list jsstring;
  colorIndex : nat
}.

(** [generateColors()] *)
Definition generateColors : list jsstring :=
  map js ["rgba(47, 129, 247, 1)"; "rgba(63, 185, 80, 1)";
          "rgba(210, 153, 34, 1)"; "rgba(248, 81, 73, 1)";
          "rgba(163, 113, 247, 1)"; "rgba(242, 130, 37, 1)";
          "rgba(31, 199, 212, 1)"; "rgba(255, 115, 179, 1)";
          "rgba(139, 233, 139, 1)"; "rgba(255, 205, 86, 1)"]%string.

(** [constructor(canvasElement)] *)
Definition new_manager : ChartManager := {|
  maxDataPoints := 50; datasets := []; labels := []; colorIndex := 0 |}.

(** [setMaxDataPoints(max)] with an integer *)
Definition setMaxDataPoints (max : Z) (cm : ChartManager) : ChartManager := {|
  maxDataPoints := max; datasets := datasets cm; labels := labels cm;
  colorIndex := colorIndex cm |}.

(** [clear()] *)
Definition clear (cm : ChartManager) : ChartManager := {|
  maxDataPoints := maxDataPoints cm; datasets := []; labels := [];
  colorIndex := 0 |}.

(** [Map.prototype.get], and the value of a key in a list of entries. *)
Fixpoint lookup {V} (key : jsstring) (entries : list (jsstring * V)) : option V :=
  match entries with
  | [] => None
  | (k, v) :: rest => if string_eqb k key then Some v else lookup key rest
  end.

(** The entries after a change to the value of [key]. *)
Fixpoint change {V} (key : jsstring) (f : V -> V)
    (entries : list (jsstring * V)) : list (jsstring * V) :=
  match entries with
  | [] => []
  | (k, v) :: rest =>
      if string_eqb k key then (k, f v) :: rest
      else (k, v) :: change key f rest
  end.

(** [array.push(x); if (array.length > this.maxDataPoints) array.shift()] *)
Definition push_within {A} (max : Z) (array : list A) (x : A) : list A :=
  let pushed := array ++ [x] in
  if (max <? Z.of_nat (length pushed))%Z then tl pushed else pushed.

Definition push_data (max : Z) (voltage : Number) (dataset : Dataset)
  : Dataset := {|
  label := label dataset;
  data := push_within max (data dataset) voltage;
  borderColor := borderColor dataset;
  backgroundColor := backgroundColor dataset;
  fill := fill dataset |}.

(** [getNextColor()]: the colour, and the manager with the next index. *)
Definition getNextColor (cm : ChartManager) : jsstring * ChartManager :=
  (nth (colorIndex cm mod length generateColors) generateColors [],
   {| maxDataPoints := maxDataPoints cm; datasets := datasets cm;
      labels := labels cm; colorIndex := S (colorIndex cm) |}).

Definition set_datasets (d : list (jsstring * Dataset)) (cm : ChartManager)
  : ChartManager := {|
  maxDataPoints := maxDataPoints cm; datasets := d; labels := labels cm;
  colorIndex := colorIndex cm |}.

Definition set_labels (l : list jsstring) (cm : ChartManager)
  : ChartManager := {|
  maxDataPoints := maxDataPoints cm; datasets := datasets cm; labels := l;
  colorIndex := colorIndex cm |}.

(** The body of the loop of [updateCells], for one entry of
    [Object.entries(cellsData)]. *)
Definition add_point (cm : ChartManager) (entry : jsstring * Number)
  : ChartManager :=
  let (cellName, voltage) := entry in
  match lookup cellName (datasets cm) with
  | Some _ =>
      set_datasets
        (change cellName (push_data (maxDataPoints cm) voltage) (datasets cm))
        cm
  | None =>
      let (color, cm1) := getNextColor cm in
      let dataset := {|
        label := cellName; data := []; borderColor := color;
        backgroundColor := replace (js "1)") (js "0.1)") color;
        fill := false |} in
      set_datasets
        (datasets cm1
         ++ [(cellName, push_data (maxDataPoints cm) voltage dataset)])
        cm1
  end.

(** [updateCells(cellsData, timestamp)] on the entries of [cellsData] *)
Definition updateCells (cm : ChartManager)
    (cellsData : list (jsstring * Number)) (timestamp : jsstring)
  : ChartManager :=
  fold_left add_point cellsData
    (set_labels (push_within (maxDataPoints cm) (labels cm) timestamp) cm).

(** [cellsData[name] = voltage] on the entries of an object whose
    property names are not array indices: a new name comes last, a known
    one keeps its place. *)
Fixpoint set_property (obj : list (jsstring * Number)) (name : jsstring)
    (voltage : Number) : list (jsstring * Number) :=
  match obj with
  | [] => [(name, voltage)]
  | (k, v) :: rest =>
      if string_eqb k name then (k, voltage) :: rest
      else (k, v) :: set_property rest name voltage
  end.

(** The loop of [updateChart] that fills [cellsData]; the names of the
    cells end in [S] and so are never array indices. *)
Definition cellsData_of (cells : list Cell.t) : list (jsstring * Number) :=
  fold_left
    (fun obj cell =>
       match Cell.individualVoltage cell with
       | Some v =>
           if gt v (of_decimal false 1 1)
           then set_property obj (Cell.name cell) v else obj
       | None => obj
       end)
    cells [].

(** [updateChart(data)], given the formatted timestamp. *)
Definition updateChart (cm : ChartManager) (data : Reading.t)
    (timestamp : jsstring) : ChartManager :=
  updateCells cm (cellsData_of (Reading.cells data)) timestamp.

(** The calls of [updateCells] so far: the entries and the timestamp of
    each. *)
Definition History : Type := list (list (jsstring * Number) * jsstring).

Definition replay (cm : ChartManager) (history : History) : ChartManager :=
  fold_left (fun cm call => updateCells cm (fst call) (snd call)) history cm.

(** The voltages given for a cell name, in order. *)
Definition points_of (name : jsstring) (cellsData : list (jsstring * Number))
  : list Number :=
  map snd (filter (fun e => string_eqb (fst e) name) cellsData).

Definition points (name : jsstring) (history : History) : list Number :=
  flat_map (fun call => points_of name (fst call)) history.

(** The names in the order in which they first appear. *)
Fixpoint first_seen (names seen : list jsstring) : list jsstring :=
  match names with
  | [] => []
  | n :: rest =>
      if existsb (string_eqb n) seen then first_seen rest seen
      else n :: first_seen rest (seen ++ [n])
  end.

(** The last [max] elements. *)
Definition last_of {A} (max : Z) (l : list A) : list A :=
  skipn (length l - Z.to_nat max) l.

(** The colours of [generateColors] with the alpha of the fill. *)
Definition translucent : list jsstring :=
  map js ["rgba(47, 129, 247, 0.1)"; "rgba(63, 185, 80, 0.1)";
          "rgba(210, 153, 34, 0.1)"; "rgba(248, 81, 73, 0.1)";
          "rgba(163, 113, 247, 0.1)"; "rgba(242, 130, 37, 0.1)";
          "rgba(31, 199, 212, 0.1)"; "rgba(255, 115, 179, 0.1)";
          "rgba(139, 233, 139, 0.1)"; "rgba(255, 205, 86, 0.1)"]%string.

(** The last cell of the given name among those that the chart takes. *)
Definition last_valid (name : jsstring) (cells : list Cell.t)
  : option Cell.t :=
  find (fun c => string_eqb (Cell.name c) name) (rev (App.validCells cells)).

(** Two readings of the example record and one without its second cell. *)
Definition three_readings : History :=
  [([(js "1S", of_decimal false 396 2); (js "2S", of_decimal false 399 2)],
    js "10:00:00");
   ([(js "1S", of_decimal false 395 2)], js "10:00:01");
   ([(js "2S", of_decimal false 398 2); (js "1S", of_decimal false 394 2)],
    js "10:00:02")].

(** The state of the datasets, for the points given so far. *)
Definition tracks (max : Z) (cm : ChartManager)
    (given : jsstring -> list Number) : Prop :=
  maxDataPoints cm = max /\
  forall name,
    match lookup name (datasets cm) with
    | Some dataset =>
        label dataset = name /\ data dataset = last_of max (given name)
    | None => given name = []
    end.

(** Every dataset has the colour of its place. *)
Definition painted (cm : ChartManager) : Prop :=
  colorIndex cm = length (datasets cm) /\
  forall i name dataset,
    nth_error (datasets cm) i = Some (name, dataset) ->
    borderColor dataset = nth (i mod 10) generateColors [] /\
    backgroundColor dataset = nth (i mod 10) translucent [].

(** The names of all the entries of the calls, in order. *)
Definition names_given (history : History) : list jsstring :=
  flat_map (fun call => map fst (fst call)) history.

End Chart.

(* ================================================================== *)
(** * Properties *)
(* ================================================================== *)

(** ** Splitting a string *)

Module SplitFacts.

Lemma starts_with_length (p s : jsstring) :
  starts_with p s = true -> (length p <= length s)%nat.
Proof.
  revert s; induction p as [|a p IH]; intros [|b s]; simpl; try lia; try discriminate.
  intros H; apply andb_true_iff in H as [_ H]. apply IH in H. lia.
Qed.

Lemma starts_with_app (p s t : jsstring) :
  (length p <= length s)%nat -> starts_with p (s ++ t) = starts_with p s.
Proof.
  revert s; induction p as [|a p IH]; intros [|b s]; simpl; intros H;
    try reflexivity; try lia.
  rewrite IH by lia. reflexivity.
Qed.

Lemma starts_with_prefix (p s : jsstring) :
  starts_with p s = true -> s = p ++ skipn (length p) s.
Proof.
  revert s; induction p as [|a p IH]; intros [|b s]; simpl;
    try reflexivity; try discriminate.
  intros H; apply andb_true_iff in H as [E H].
  apply N.eqb_eq in E; subst b. f_equal. now apply IH.
Qed.

Lemma starts_with_self_app (p t : jsstring) : starts_with p (p ++ t) = true.
Proof.
  induction p as [|a p IH]; simpl; [reflexivity|].
  now rewrite N.eqb_refl, IH.
Qed.

(** The two halves returned by [indexOf_split] are what surrounds an
    occurrence of the separator. *)
Lemma indexOf_split_Some (sep s b a : jsstring) :
  indexOf_split sep s = Some (b, a) -> s = b ++ sep ++ a.
Proof.
  revert b a; induction s as [|c s IH]; intros b a; simpl.
  - destruct (starts_with sep []) eqn:E; [|discriminate].
    intros [= <- <-]. destruct sep; [reflexivity | discriminate].
  - destruct (starts_with sep (c :: s)) eqn:E.
    + intros [= <- <-]. now apply starts_with_prefix in E.
    + destruct (indexOf_split sep s) as [[b' a']|] eqn:R; [|discriminate].
      intros [= <- <-]. simpl. f_equal. now apply IH.
Qed.

Lemma indexOf_split_None (sep s : jsstring) :
  indexOf_split sep s = None -> ~ occurs sep s.
Proof.
  induction s as [|c s IH]; simpl.
  - destruct (starts_with sep []) eqn:E; [discriminate|].
    intros _ (a & b & H). destruct a; [|discriminate].
    destruct sep; [discriminate E | discriminate H].
  - destruct (starts_with sep (c :: s)) eqn:E; [discriminate|].
    destruct (indexOf_split sep s) as [[b' a']|] eqn:R; [discriminate|].
    intros _ (a & b & H). destruct a as [|x a].
    + simpl in H. rewrite H, starts_with_self_app in E. discriminate.
    + injection H as _ H. apply IH; [reflexivity|]. now exists a, b.
Qed.

(** The leftmost occurrence stays the leftmost one when text is appended. *)
Lemma indexOf_split_app (sep s t b a : jsstring) :
  indexOf_split sep s = Some (b, a) ->
  indexOf_split sep (s ++ t) = Some (b, a ++ t).
Proof.
  revert b a; induction s as [|c s IH]; intros b a.
  - simpl. destruct (starts_with sep []) eqn:E; [|discriminate].
    intros [= <- <-]. destruct sep; [|discriminate].
    simpl. destruct t; reflexivity.
  - cbn [indexOf_split app]. fold (app (A := code_unit)).
    change (c :: s ++ t) with ((c :: s) ++ t).
    destruct (starts_with sep (c :: s)) eqn:E.
    + intros [= <- <-].
      pose proof (starts_with_length _ _ E) as L.
      rewrite starts_with_app, E by exact L.
      f_equal. f_equal. rewrite skipn_app.
      replace (length sep - length (c :: s))%nat with 0%nat by lia.
      reflexivity.
    + destruct (indexOf_split sep s) as [[b' a']|] eqn:R; [|discriminate].
      intros [= <- <-].
      pose proof (indexOf_split_Some _ _ _ _ R) as Hs.
      assert (L : (length sep <= length (c :: s))%nat).
      { rewrite Hs. simpl. rewrite !length_app. lia. }
      rewrite starts_with_app, E by exact L.
      simpl. now rewrite (IH _ _ eq_refl).
Qed.

Lemma indexOf_split_shorter (sep s b a : jsstring) :
  sep <> [] -> indexOf_split sep s = Some (b, a) ->
  (length a < length s)%nat.
Proof.
  intros Hsep H. apply indexOf_split_Some in H. subst s.
  rewrite !length_app. destruct sep; [congruence | simpl; lia].
Qed.

(** More fuel than the length of the string changes nothing. *)
Lemma split_from_fuel (sep : jsstring) (n m : nat) (s : jsstring) :
  sep <> [] -> (length s <= n)%nat -> (length s <= m)%nat ->
  split_from n sep s = split_from m sep s.
Proof.
  intros Hsep. revert m s; induction n as [|n IH]; intros m s Hn Hm.
  - destruct s; [|simpl in Hn; lia].
    destruct m; simpl; destruct (starts_with sep []) eqn:E; try reflexivity;
      destruct sep; congruence || discriminate.
  - simpl. destruct (indexOf_split sep s) as [[b a]|] eqn:R.
    + pose proof (indexOf_split_shorter _ _ _ _ Hsep R) as L.
      destruct m as [|m]; [lia|]. simpl. rewrite R.
      f_equal. apply IH; lia.
    + destruct m; simpl; now rewrite R.
Qed.

Lemma split_unfold (sep s : jsstring) :
  sep <> [] ->
  split sep s =
    match indexOf_split sep s with
    | None => [s]
    | Some (b, a) => b :: split sep a
    end.
Proof.
  intros Hsep. unfold split. destruct sep as [|x sep]; [congruence|].
  destruct (indexOf_split (x :: sep) s) as [[b a]|] eqn:R.
  - pose proof (indexOf_split_shorter _ _ _ _ Hsep R) as L.
    destruct (length s) as [|n] eqn:Hl; [lia|].
    cbn [split_from]. rewrite R. f_equal. apply split_from_fuel; auto; lia.
  - destruct (length s); simpl; now rewrite R.
Qed.

Lemma split_not_nil (sep s : jsstring) : sep <> [] -> split sep s <> [].
Proof.
  intros Hsep. rewrite split_unfold by exact Hsep.
  destruct (indexOf_split sep s) as [[b a]|]; discriminate.
Qed.

(** Induction on the occurrences of the separator. *)
Lemma split_ind (sep : jsstring) (Hsep : sep <> []) (P : jsstring -> Prop) :
  (forall s, indexOf_split sep s = None -> P s) ->
  (forall s b a, indexOf_split sep s = Some (b, a) -> P a -> P s) ->
  forall s, P s.
Proof.
  intros Hnone Hsome s.
  remember (length s) as n eqn:Hn. revert s Hn.
  induction n as [n IH] using lt_wf_ind. intros s ->.
  destruct (indexOf_split sep s) as [[b a]|] eqn:R.
  - apply (Hsome s b a R). apply (IH (length a)); [|reflexivity].
    exact (indexOf_split_shorter _ _ _ _ Hsep R).
  - now apply Hnone.
Qed.

(** No separator is left in the last element. *)
Lemma split_last_clean (sep s : jsstring) :
  sep <> [] -> ~ occurs sep (last (split sep s) []).
Proof.
  intros Hsep. induction s as [s R | s b a R IH] using (split_ind sep Hsep);
    rewrite split_unfold, R by exact Hsep.
  - simpl. now apply indexOf_split_None.
  - pose proof (split_not_nil _ a Hsep) as Hne.
    destruct (split sep a) eqn:E; [congruence|]. exact IH.
Qed.

(** Splitting a concatenation: the elements already complete in the first
    string are kept, and the split goes on from its last element. *)
Lemma split_app (sep s t : jsstring) :
  sep <> [] ->
  split sep (s ++ t) =
    removelast (split sep s) ++ split sep (last (split sep s) [] ++ t).
Proof.
  intros Hsep. induction s as [s R | s b a R IH] using (split_ind sep Hsep).
  - rewrite (split_unfold _ s Hsep), R. reflexivity.
  - rewrite (split_unfold _ s Hsep), R.
    rewrite (split_unfold _ (s ++ t) Hsep), (indexOf_split_app _ _ t _ _ R).
    pose proof (split_not_nil _ a Hsep) as Hne.
    destruct (split sep a) as [|p ps] eqn:E; [congruence|].
    rewrite IH. reflexivity.
Qed.

End SplitFacts.

(** ** The framer *)

Module FramerProofs.
Import Serial SplitFacts.

Lemma separator_not_nil : separator <> [].
Proof. discriminate. Qed.

Lemma split_clean (sep s : jsstring) :
  sep <> [] -> ~ occurs sep s -> split sep s = [s].
Proof.
  intros Hsep Hs. rewrite split_unfold by exact Hsep.
  destruct (indexOf_split sep s) as [[b a]|] eqn:R; [|reflexivity].
  exfalso. apply Hs. exists b, a. now apply indexOf_split_Some.
Qed.

Lemma emit_app (cb : bool) (done more : list jsstring) :
  more <> [] ->
  emit cb (done ++ more) = emit cb (done ++ [[]]) ++ emit cb more.
Proof.
  intros Hm. unfold emit.
  rewrite (removelast_app done Hm).
  rewrite (removelast_app (l' := [[]]) done) by discriminate.
  simpl removelast at 2. rewrite app_nil_r, map_app, filter_app. reflexivity.
Qed.

Lemma emit_removelast (cb : bool) (parts : list jsstring) :
  emit cb (removelast parts ++ [[]]) = emit cb parts.
Proof.
  unfold emit. rewrite removelast_app by discriminate.
  simpl. now rewrite app_nil_r.
Qed.

Lemma processData_out (r : SerialReader) (chunk : jsstring) :
  snd (processData r chunk) =
  emit (onDataCallback r) (split separator (buffer r ++ chunk)).
Proof.
  unfold processData.
  destruct (10000 <? strlen (last (split separator (buffer r ++ chunk)) []))%Z;
    reflexivity.
Qed.

Lemma processData_callback (r : SerialReader) (chunk : jsstring) :
  onDataCallback (fst (processData r chunk)) = onDataCallback r.
Proof.
  unfold processData.
  destruct (10000 <? strlen (last (split separator (buffer r ++ chunk)) []))%Z;
    reflexivity.
Qed.

Lemma processData_buffer (r : SerialReader) (chunk : jsstring) :
  buffer (fst (processData r chunk)) =
  let rest := last (split separator (buffer r ++ chunk)) [] in
  if (10000 <? strlen rest)%Z then [] else rest.
Proof.
  unfold processData.
  destruct (10000 <? strlen (last (split separator (buffer r ++ chunk)) []))%Z;
    reflexivity.
Qed.

(** What successive calls hand to the callback is what one split of the
    whole text gives, as long as no call empties an overlong buffer. *)
Lemma feed_out (chunks : list jsstring) (r : SerialReader) :
  ~ occurs separator (buffer r) ->
  no_overflow r chunks = true ->
  snd (feed r chunks) =
  emit (onDataCallback r) (split separator (buffer r ++ concat chunks)).
Proof.
  revert r; induction chunks as [|c cs IH]; intros r Hclean Hno.
  - cbn [feed concat snd].
    rewrite app_nil_r, split_clean by (exact separator_not_nil || exact Hclean).
    reflexivity.
  - cbn [feed no_overflow concat] in *.
    apply andb_true_iff in Hno as [Hfit Hno].
    pose proof (processData_out r c) as Hout.
    pose proof (processData_buffer r c) as Hbuf.
    pose proof (processData_callback r c) as Hcb.
    destruct (processData r c) as [r1 out1]. cbn [fst snd] in *.
    assert (Hb1 : buffer r1 = last (split separator (buffer r ++ c)) []).
    { rewrite Hbuf. apply Z.leb_le in Hfit.
      destruct (Z.ltb_spec 10000 (strlen (last (split separator (buffer r ++ c)) [])));
        [lia | reflexivity]. }
    specialize (IH r1).
    destruct (feed r1 cs) as [r2 out2]. cbn [fst snd] in *.
    rewrite IH, Hcb, Hb1, Hout; [| | exact Hno].
    + rewrite app_assoc, (split_app _ (buffer r ++ c) (concat cs) separator_not_nil).
      rewrite emit_app by (apply split_not_nil; exact separator_not_nil).
      now rewrite emit_removelast.
    + rewrite Hb1. apply split_last_clean. exact separator_not_nil.
Qed.

(** C1, refuted as stated: a first chunk of 10,001 characters without a
    separator is dropped by the overflow rule, so feeding it and then a
    separator hands nothing to the callback, while the concatenation fed
    in one call hands over the 10,001 characters as one record. *)
Lemma chunk_independence_fails_on_overflow :
  snd (feed (onData constructor) [overlong; separator])
  <> snd (processData (onData constructor) (concat [overlong; separator])).
Proof.
  assert (A : snd (feed (onData constructor) [overlong; separator]) = [])
    by (vm_compute; reflexivity).
  assert (B : length (snd (processData (onData constructor)
                             (concat [overlong; separator]))) = 1%nat)
    by (vm_compute; reflexivity).
  intros H. rewrite <- H, A in B. discriminate B.
Qed.

(** C1, amended: for every sequence of chunks fed one call at a time from
    an empty buffer, if no call takes the overflow branch, the readings
    handed to the data callback over all the calls are, in the same order,
    those handed over when the concatenation of the chunks is fed in one
    call from an empty buffer. *)
Theorem chunk_independence (r : SerialReader) (chunks : list jsstring) :
  buffer r = [] ->
  no_overflow r chunks = true ->
  snd (feed r chunks) = snd (processData r (concat chunks)).
Proof.
  intros Hempty Hno. rewrite processData_out. apply feed_out; [|exact Hno].
  rewrite Hempty. intros (a & b & H).
  destruct a; discriminate H.
Qed.

Lemma chunk_independence_witness :
  let r := onData constructor in
  let chunks := [js "one" ++ repeat (char "=") 30;
                 repeat (char "=") 28 ++ js " two "; separator ++ js "rest"] in
  buffer r = [] /\ no_overflow r chunks = true /\
  snd (feed r chunks) = [js "one"; js "two"] /\
  snd (feed r chunks) = snd (processData r (concat chunks)).
Proof.
  split; [reflexivity|]. split; [reflexivity|]. split; [reflexivity|].
  apply chunk_independence; reflexivity.
Defined.

(** C7, refuted as stated: 10,001 characters, a separator and one more
    character make a buffer of 10,060 characters after the chunk is
    appended, yet the retained buffer is the final character, not the
    empty string. *)
Lemma cap_is_checked_after_split :
  ~ (forall r chunk,
       (10000 < strlen (buffer r ++ chunk))%Z ->
       buffer (fst (processData r chunk)) = []).
Proof.
  intros H.
  specialize (H (onData constructor) (overlong ++ separator ++ js "b")).
  assert (L : (10000 < strlen (buffer (onData constructor)
                                 ++ overlong ++ separator ++ js "b"))%Z)
    by (vm_compute; reflexivity).
  assert (B : buffer (fst (processData (onData constructor)
                             (overlong ++ separator ++ js "b"))) = [98%N])
    by (vm_compute; reflexivity).
  apply H in L. rewrite B in L. discriminate L.
Qed.

(** C7, amended: for every [processData] call in which the segment left
    after the last separator is longer than 10,000 characters, the retained
    buffer is reset to empty, while every segment split out by that call is
    still handed, trimmed and if not empty, to the data callback. *)
Theorem overflow_keeps_records (r : SerialReader) (chunk : jsstring) :
  onDataCallback r = true ->
  (10000 < strlen (last (split separator (buffer r ++ chunk)) []))%Z ->
  buffer (fst (processData r chunk)) = [] /\
  snd (processData r chunk) =
    filter truthy (map trim (removelast (split separator (buffer r ++ chunk)))).
Proof.
  intros Hcb Hover. split.
  - rewrite processData_buffer. cbv zeta.
    apply Z.ltb_lt in Hover. now rewrite Hover.
  - rewrite processData_out, Hcb. unfold emit.
    apply filter_ext. intros x. apply andb_true_r.
Qed.

Lemma overflow_keeps_records_witness :
  let r := onData constructor in
  let chunk := js " first " ++ separator ++ overlong in
  onDataCallback r = true /\
  (10000 < strlen (last (split separator (buffer r ++ chunk)) []))%Z /\
  buffer (fst (processData r chunk)) = [] /\
  snd (processData r chunk) =
    filter truthy (map trim (removelast (split separator (buffer r ++ chunk)))).
Proof.
  intros r chunk.
  assert (Hcb : onDataCallback r = true) by reflexivity.
  assert (Hover : (10000 < strlen (last (split separator (buffer r ++ chunk)) []))%Z)
    by (vm_compute; reflexivity).
  split; [exact Hcb|]. split; [exact Hover|].
  exact (overflow_keeps_records r chunk Hcb Hover).
Defined.

Lemma processData_framed (r : SerialReader) (chunk : jsstring) :
  framed (fst (processData r chunk)).
Proof.
  unfold framed. rewrite processData_buffer. cbv zeta.
  destruct (Z.ltb_spec 10000
              (strlen (last (split separator (buffer r ++ chunk)) [])))
    as [Hover | Hfit].
  - split; [|unfold strlen; simpl; lia].
    intros (a & b & H). destruct a; discriminate H.
  - split; [|exact Hfit]. apply split_last_clean. exact separator_not_nil.
Qed.

Lemma feed_framed (chunks : list jsstring) (r : SerialReader) :
  framed r -> framed (fst (feed r chunks)).
Proof.
  revert r; induction chunks as [|c cs IH]; intros r Hr; [exact Hr|].
  cbn [feed]. pose proof (processData_framed r c) as H1.
  destruct (processData r c) as [r1 out1]. specialize (IH r1 H1).
  destruct (feed r1 cs) as [r2 out2]. exact IH.
Qed.

(** C10: the buffer of a new object is free of separators and at most
    10,000 characters long; so is the buffer left by every [processData]
    call, for every object and every chunk, and hence the buffer after
    every sequence of calls. *)
Theorem buffer_invariant :
  framed constructor /\
  (forall r chunk, framed (fst (processData r chunk))) /\
  (forall chunks, framed (fst (feed constructor chunks))).
Proof.
  assert (H0 : framed constructor).
  { split; [|unfold strlen; simpl; lia].
    intros (a & b & H). destruct a; discriminate H. }
  split; [exact H0|]. split; [exact processData_framed|].
  intros chunks. apply feed_framed. exact H0.
Qed.

End FramerProofs.

(** ** The teardown *)

Module TeardownProofs.
Import Serial.

Section Runs.
Variable rejects : Operation -> bool.

(** A guarded step always returns normally and leaves the object as it
    is; it starts the operation when the handle is set, and logs a warning
    when the operation rejects. *)
Lemma if_set_run (field : SerialReader -> option nat) (op : Operation)
    (r : SerialReader) :
  if_set rejects field op r =
  (Returned tt, r,
   if is_set (field r)
   then Attempted op :: (if rejects op then [Warned op] else [])
   else []).
Proof.
  unfold if_set, bind, get, _safeOperation, try_catch, await, tell, ret.
  destruct (field r); [destruct (rejects op)|]; reflexivity.
Qed.

Lemma cleanup_run (r : SerialReader) :
  _cleanupConnection rejects r =
  (Returned tt, clear_references (set_keepReading false r),
   step_events rejects r reader cancel_reader
   ++ step_events rejects r writer close_writer
   ++ step_events rejects r readableStreamClosed readable_pipe
   ++ step_events rejects r writableStreamClosed writable_pipe
   ++ step_events rejects r port close_port).
Proof.
  unfold _cleanupConnection, bind at 1, modify at 1.
  unfold bind. rewrite !if_set_run. unfold modify, step_events.
  cbn [app reader writer readableStreamClosed writableStreamClosed port
       set_keepReading].
  rewrite !app_nil_r. reflexivity.
Qed.

Lemma attempts_step (r : SerialReader)
    (field : SerialReader -> option nat) (op : Operation) :
  attempts (step_events rejects r field op) = if is_set (field r) then [op] else [].
Proof.
  unfold step_events. destruct (is_set (field r)); [|reflexivity].
  destruct (rejects op); reflexivity.
Qed.

Lemma status_changes_step (r : SerialReader)
    (field : SerialReader -> option nat) (op : Operation) :
  status_changes (step_events rejects r field op) = [].
Proof.
  unfold step_events. destruct (is_set (field r)); [|reflexivity].
  destruct (rejects op); reflexivity.
Qed.

Lemma attempts_app (e1 e2 : list Event) :
  attempts (e1 ++ e2) = attempts e1 ++ attempts e2.
Proof. apply flat_map_app. Qed.

Lemma status_changes_app (e1 e2 : list Event) :
  status_changes (e1 ++ e2) = status_changes e1 ++ status_changes e2.
Proof. apply flat_map_app. Qed.

Lemma cleanup_attempts (r : SerialReader) :
  attempts (snd (_cleanupConnection rejects r)) = operations_due r.
Proof.
  rewrite cleanup_run. cbn [snd].
  rewrite !attempts_app, !attempts_step. reflexivity.
Qed.

Lemma cleanup_status_changes (r : SerialReader) :
  status_changes (snd (_cleanupConnection rejects r)) = [].
Proof.
  rewrite cleanup_run. cbn [snd].
  rewrite !status_changes_app, !status_changes_step. reflexivity.
Qed.

Lemma disconnect_run (r : SerialReader) :
  isDisconnecting r = false -> is_set (port r) = true ->
  disconnect rejects r =
  (Returned tt,
   set_isConnected false (clear_references (set_keepReading false r)),
   snd (_cleanupConnection rejects r)
   ++ (if onStatusChangeCallback r then [StatusChanged disconnected] else [])).
Proof.
  intros Hd Hp. unfold disconnect, bind at 1, get at 1. rewrite Hd.
  destruct (port r) as [p|] eqn:Ep; [|discriminate Hp].
  unfold bind, modify, try_catch.
  replace (_cleanupConnection rejects
             (set_keepReading false (set_isDisconnecting true r)))
    with (Returned tt, clear_references (set_keepReading false r),
          snd (_cleanupConnection rejects r)).
  2:{ rewrite !cleanup_run. cbn [snd]. reflexivity. }
  unfold updateStatus, bind, modify, get, tell, ret.
  cbn [onStatusChangeCallback set_isConnected clear_references set_buffer
       force_cleanup set_keepReading app].
  destruct (onStatusChangeCallback r); rewrite ?app_nil_r; reflexivity.
Qed.

End Runs.

End TeardownProofs.

(** ** Binary64 arithmetic *)

Module NumberFacts.
Import JsNumber.
Local Open Scope Z_scope.

(** *** Binary digits *)

Lemma pow2_succ (d : Z) : 0 < d -> 2 ^ d = 2 * 2 ^ (d - 1).
Proof.
  intros H. replace d with (Z.succ (d - 1)) at 1 by lia.
  apply Z.pow_succ_r. lia.
Qed.

Lemma digits2_bounds (p : positive) :
  2 ^ (Zpos (digits2_pos p) - 1) <= Zpos p < 2 ^ Zpos (digits2_pos p).
Proof.
  induction p as [p IH | p IH |]; cbn [digits2_pos].
  - rewrite Pos2Z.inj_succ, (Pos2Z.inj_xI p).
    replace (Z.succ (Zpos (digits2_pos p)) - 1) with (Zpos (digits2_pos p)) by lia.
    rewrite Z.pow_succ_r by lia. rewrite (pow2_succ (Zpos (digits2_pos p))) in * by lia. lia.
  - rewrite Pos2Z.inj_succ, (Pos2Z.inj_xO p).
    replace (Z.succ (Zpos (digits2_pos p)) - 1) with (Zpos (digits2_pos p)) by lia.
    rewrite Z.pow_succ_r by lia. rewrite (pow2_succ (Zpos (digits2_pos p))) in * by lia. lia.
  - cbn. lia.
Qed.

Lemma digits2_unique (p : positive) (d : Z) :
  2 ^ (d - 1) <= Zpos p < 2 ^ d -> Zpos (digits2_pos p) = d.
Proof.
  intros [Hlo Hhi]. pose proof (digits2_bounds p) as [Blo Bhi].
  assert (0 < d).
  { destruct (Z.ltb_spec 0 d) as [|Hd]; [assumption|].
    assert (2 ^ d <= 2 ^ 0) by (apply Z.pow_le_mono_r; lia).
    change (2 ^ 0) with 1 in *. lia. }
  assert (Zpos (digits2_pos p) - 1 < d).
  { apply (Z.pow_lt_mono_r_iff 2); lia. }
  assert (d - 1 < Zpos (digits2_pos p)).
  { apply (Z.pow_lt_mono_r_iff 2); lia. }
  lia.
Qed.

Lemma digits2_mono (p q : positive) :
  Zpos p <= Zpos q -> Zpos (digits2_pos p) <= Zpos (digits2_pos q).
Proof.
  intros H. pose proof (digits2_bounds p) as [Plo _].
  pose proof (digits2_bounds q) as [_ Qhi].
  assert (Zpos (digits2_pos p) - 1 < Zpos (digits2_pos q)).
  { apply (Z.pow_lt_mono_r_iff 2); lia. }
  lia.
Qed.

(** A mantissa of 53 digits lies between [2^52] and [2^53]. *)
Lemma digits53_bounds (p : positive) :
  digits2_pos p = 53%positive ->
  4503599627370496 <= Zpos p < 9007199254740992.
Proof.
  intros H. pose proof (digits2_bounds p) as B. rewrite H in B. exact B.
Qed.

Lemma iter_xO_spec (m k : positive) :
  Zpos (Pos.iter xO m k) = Zpos m * 2 ^ Zpos k /\
  Zpos (digits2_pos (Pos.iter xO m k)) = Zpos (digits2_pos m) + Zpos k.
Proof.
  induction k as [|k [IHv IHd]] using Pos.peano_ind.
  - cbn [Pos.iter digits2_pos]. rewrite Pos2Z.inj_xO, Pos2Z.inj_succ. lia.
  - rewrite Pos.iter_succ. cbn [digits2_pos].
    rewrite Pos2Z.inj_xO, !Pos2Z.inj_succ, IHv, IHd, Z.pow_succ_r by lia. lia.
Qed.

(** [shl_align] lowers the exponent to the smaller of the two and keeps
    the value. *)
Lemma shl_align_spec (m : positive) (e e' : Z) :
  snd (shl_align m e e') = Z.min e e' /\
  Zpos (fst (shl_align m e e')) = Zpos m * 2 ^ (e - Z.min e e') /\
  Zpos (digits2_pos (fst (shl_align m e e'))) =
    Zpos (digits2_pos m) + (e - Z.min e e').
Proof.
  unfold shl_align. destruct (e' - e) as [|d|d] eqn:E; cbn [fst snd].
  - replace (Z.min e e') with e by lia. rewrite Z.sub_diag. cbn. lia.
  - replace (Z.min e e') with e by lia. rewrite Z.sub_diag. cbn. lia.
  - replace (Z.min e e') with e' by lia.
    replace (e - e') with (Zpos d) by lia.
    split; [reflexivity|]. apply iter_xO_spec.
Qed.

(** *** Shifting right *)

Lemma shr_1_digits (s : shr_record) :
  Zdigits2 (shr_m (shr_1 s)) = Z.max 0 (Zdigits2 (shr_m s) - 1) /\
  (0 <= shr_m s -> 0 <= shr_m (shr_1 s)).
Proof.
  destruct s as [[|[p|p|]|[p|p|]] r t]; cbn [shr_1 shr_m Zdigits2 digits2_pos];
    rewrite ?Pos2Z.inj_succ; lia.
Qed.

Lemma iter_shr_1_digits (k : positive) (s : shr_record) :
  Zdigits2 (shr_m (iter_pos shr_1 k s)) = Z.max 0 (Zdigits2 (shr_m s) - Zpos k) /\
  (0 <= shr_m s -> 0 <= shr_m (iter_pos shr_1 k s)).
Proof.
  assert (Hd : forall t, 0 <= Zdigits2 t) by (intros [|t|t]; cbn; lia).
  revert s; induction k as [k IH | k IH |]; intros s; cbn [iter_pos].
  - destruct (shr_1_digits s) as [D1 N1].
    destruct (IH (shr_1 s)) as [D2 N2].
    destruct (IH (iter_pos shr_1 k (shr_1 s))) as [D3 N3].
    rewrite D3, D2, D1. rewrite Pos2Z.inj_xI.
    pose proof (Hd (shr_m s)). split; [lia | auto].
  - destruct (IH s) as [D2 N2].
    destruct (IH (iter_pos shr_1 k s)) as [D3 N3].
    rewrite D3, D2. rewrite Pos2Z.inj_xO.
    pose proof (Hd (shr_m s)). split; [lia | auto].
  - apply shr_1_digits.
Qed.

Lemma Zdigits2_pos (m : Z) (d : Z) :
  0 <= m -> Zdigits2 m = d -> 0 < d ->
  exists q, m = Zpos q /\ Zpos (digits2_pos q) = d.
Proof.
  destruct m as [|q|q]; cbn; intros; try lia. now exists q.
Qed.

(** Truncation to 53 digits of a mantissa that has at least as many. *)
Lemma shr_fexp_normal (m : positive) (e : Z) (l : location) :
  53 <= Zpos (digits2_pos m) -> -1074 <= e ->
  exists q,
    shr_m (fst (shr_fexp prec emax (Zpos m) e l)) = Zpos q /\
    digits2_pos q = 53%positive /\
    snd (shr_fexp prec emax (Zpos m) e l) = e + (Zpos (digits2_pos m) - 53).
Proof.
  intros Hd He. unfold shr_fexp, shr, fexp, emin, prec, emax. cbn [Zdigits2].
  assert (Hm : forall x, shr_m (shr_record_of_loc x l) = x)
    by (intros x; destruct l as [|[]]; reflexivity).
  replace (Z.max (Zpos (digits2_pos m) + e - 53) (3 - 1024 - 53) - e)
    with (Zpos (digits2_pos m) - 53) by lia.
  destruct (Zpos (digits2_pos m) - 53) as [|k|k] eqn:E; try lia; cbn [fst snd].
  - exists m. rewrite Hm. repeat split; [|lia].
    apply Pos2Z.inj. lia.
  - destruct (iter_shr_1_digits k (shr_record_of_loc (Zpos m) l)) as [D N].
    rewrite Hm in D, N. cbn [Zdigits2] in D.
    destruct (Zdigits2_pos (shr_m (iter_pos shr_1 k (shr_record_of_loc (Zpos m) l))) 53)
      as (q & Hq & Dq); try lia.
    exists q. repeat split; [exact Hq | apply Pos2Z.inj; exact Dq].
Qed.

Lemma round_nearest_even_pos (q : positive) (l : location) :
  exists q', round_nearest_even (Zpos q) l = Zpos q' /\
             Zpos q <= Zpos q' <= Zpos q + 1.
Proof.
  unfold round_nearest_even. destruct l as [|[]].
  - exists q; lia.
  - destruct (Z.even (Zpos q)); [exists q | exists (q + 1)%positive]; lia.
  - exists q; lia.
  - exists (q + 1)%positive; lia.
Qed.

Lemma binary_round_aux_normal (m : positive) (e : Z) (l : location) :
  53 <= Zpos (digits2_pos m) -> -1074 <= e ->
  normal_or_inf e (binary_round_aux prec emax false (Zpos m) e l).
Proof.
  intros Hd He. unfold binary_round_aux.
  destruct (shr_fexp_normal m e l Hd He) as (q & Hq & Dq & He1).
  destruct (shr_fexp prec emax (Zpos m) e l) as [mrs1 e1]. cbn [fst snd] in *.
  rewrite Hq.
  destruct (round_nearest_even_pos q (loc_of_shr_record mrs1)) as (q' & Hq' & Bq').
  rewrite Hq'.
  assert (Hd' : 53 <= Zpos (digits2_pos q')).
  { rewrite <- Dq. apply digits2_mono. lia. }
  assert (He1' : -1074 <= e1) by lia.
  destruct (shr_fexp_normal q' e1 loc_Exact Hd' He1') as (q2 & Hq2 & Dq2 & He2).
  destruct (shr_fexp prec emax (Zpos q') e1 loc_Exact) as [mrs2 e2].
  cbn [fst snd] in *. rewrite Hq2.
  destruct (e2 <=? emax - prec); cbn; [|exact I].
  split; [exact Dq2 | lia].
Qed.

Lemma binary_round_normal (p : positive) (e : Z) :
  -1022 <= e -> normal_or_inf (e - 52) (binary_round prec emax false p e).
Proof.
  intros He. unfold binary_round.
  pose proof (shl_align_spec p e (fexp prec emax (Zpos (digits2_pos p) + e)))
    as (Hs & _ & Hdz).
  destruct (shl_align p e (fexp prec emax (Zpos (digits2_pos p) + e))) as [mz ez].
  cbn [fst snd] in *. unfold fexp, emin, prec, emax in *.
  assert (1 <= Zpos (digits2_pos p)) by lia.
  assert (H1 : 53 <= Zpos (digits2_pos mz)) by lia.
  assert (H2 : -1074 <= ez) by lia.
  pose proof (binary_round_aux_normal mz ez loc_Exact H1 H2) as N.
  unfold prec, emax in N.
  destruct (binary_round_aux 53 1024 false (Zpos mz) ez loc_Exact) as [[]|[]| |[] m' e'];
    cbn [normal_or_inf] in *; try exact N.
  destruct N as [N1 N2]. split; [exact N1 | lia].
Qed.

(** Rounding keeps the sign. *)
Lemma binary_round_sign (s : bool) (p : positive) (e : Z) :
  match binary_round prec emax s p e with
  | S754_zero s' | S754_infinity s' | S754_finite s' _ _ => s' = s
  | S754_nan => True
  end.
Proof.
  unfold binary_round, binary_round_aux.
  destruct (shl_align p e _) as [mz ez].
  destruct (shr_fexp prec emax (Zpos mz) ez loc_Exact) as [mrs1 e1].
  destruct (shr_fexp prec emax _ e1 loc_Exact) as [mrs2 e2].
  destruct (shr_m mrs2); [reflexivity | | exact I].
  destruct (e2 <=? emax - prec); reflexivity.
Qed.

(** *** Comparisons of finite positive numbers *)

Lemma ltb_finite (m1 m2 : positive) (e1 e2 : Z) :
  SFltb (S754_finite false m1 e1) (S754_finite false m2 e2) = true <->
  (e1 < e2 \/ (e1 = e2 /\ Zpos m1 < Zpos m2)).
Proof.
  unfold SFltb, SFcompare.
  change (Pos.compare_cont Eq m1 m2) with (Pos.compare m1 m2).
  destruct (Z.compare_spec e1 e2), (Pos.compare_spec m1 m2);
    split; intros; try discriminate; try reflexivity; try lia.
Qed.

Lemma leb_finite (m1 m2 : positive) (e1 e2 : Z) :
  SFleb (S754_finite false m1 e1) (S754_finite false m2 e2) = true <->
  (e1 < e2 \/ (e1 = e2 /\ Zpos m1 <= Zpos m2)).
Proof.
  unfold SFleb, SFcompare.
  change (Pos.compare_cont Eq m1 m2) with (Pos.compare m1 m2).
  destruct (Z.compare_spec e1 e2), (Pos.compare_spec m1 m2);
    split; intros; try discriminate; try reflexivity; try lia.
Qed.

Lemma false_iff_not {b : bool} {P : Prop} :
  (b = true <-> P) -> (b = false <-> ~ P).
Proof. destruct b; intuition congruence. Qed.

(** *** The numbers that [parseInt] makes of digit strings *)

(** Two normal mantissas brought to the smaller exponent compare as the
    pairs of exponent and mantissa do. *)
Lemma aligned_lt (mx my : positive) (ex ey : Z) :
  digits2_pos mx = 53%positive -> digits2_pos my = 53%positive ->
  (Zpos mx * 2 ^ (ex - Z.min ex ey) < Zpos my * 2 ^ (ey - Z.min ex ey) <->
   (ex < ey \/ (ex = ey /\ Zpos mx < Zpos my))).
Proof.
  intros Hx Hy. apply digits53_bounds in Hx, Hy.
  destruct (Z.lt_trichotomy ex ey) as [L|[E|G]].
  - replace (Z.min ex ey) with ex by lia. rewrite Z.sub_diag, Z.pow_0_r.
    assert (2 ^ 1 <= 2 ^ (ey - ex)) by (apply Z.pow_le_mono_r; lia).
    rewrite Z.pow_1_r in *. split; [lia | intros _; nia].
  - subst ey. rewrite Z.min_id, Z.sub_diag, Z.pow_0_r. lia.
  - replace (Z.min ex ey) with ey by lia. rewrite Z.sub_diag, Z.pow_0_r.
    assert (2 ^ 1 <= 2 ^ (ex - ey)) by (apply Z.pow_le_mono_r; lia).
    rewrite Z.pow_1_r in *. split; [intros; nia | lia].
Qed.

(** The sign of a difference of two naturals decides their order: the
    test of the sort on [a.number - b.number] is the test [b < a]. *)
Lemma sub_sign (x y : Number) :
  natural x -> natural y ->
  SFltb zero (let v := sub x y in if isNaN v then zero else v) = SFltb y x.
Proof.
  destruct x as [[]|[]| |[] mx ex], y as [[]|[]| |[] my ey];
    cbn [natural]; try contradiction; intros Hx Hy; try reflexivity.
  destruct Hx as [Dx Ex], Hy as [Dy Ey].
  unfold sub, SFsub. cbn [cond_Zopp].
  pose proof (shl_align_spec mx ex (Z.min ex ey)) as (_ & Va & _).
  pose proof (shl_align_spec my ey (Z.min ex ey)) as (_ & Vb & _).
  replace (Z.min ex (Z.min ex ey)) with (Z.min ex ey) in Va by lia.
  replace (Z.min ey (Z.min ex ey)) with (Z.min ex ey) in Vb by lia.
  pose proof (aligned_lt mx my ex ey Dx Dy) as Lxy.
  pose proof (aligned_lt my mx ey ex Dy Dx) as Lyx.
  rewrite (Z.min_comm ey ex) in Lyx.
  rewrite <- Va, <- Vb in Lxy, Lyx.
  set (a := fst (shl_align mx ex (Z.min ex ey))) in *.
  set (b := fst (shl_align my ey (Z.min ex ey))) in *.
  destruct (Zpos a - Zpos b) as [|M|M] eqn:E; cbn [binary_normalize].
  - cbn. symmetry. apply (false_iff_not (ltb_finite my mx ey ex)). lia.
  - assert (N : normal_or_inf (Z.min ex ey - 52)
                  (binary_round prec emax false M (Z.min ex ey)))
      by (apply binary_round_normal; lia).
    assert (R : SFltb (S754_finite false my ey) (S754_finite false mx ex) = true)
      by (apply ltb_finite; lia).
    rewrite R.
    destruct (binary_round prec emax false M (Z.min ex ey)) as [[]|[]| |[] m' e'];
      cbn [normal_or_inf] in N; try contradiction; reflexivity.
  - pose proof (binary_round_sign true M (Z.min ex ey)) as S.
    assert (R : SFltb (S754_finite false my ey) (S754_finite false mx ex) = false)
      by (apply (false_iff_not (ltb_finite my mx ey ex)); lia).
    rewrite R.
    destruct (binary_round prec emax true M (Z.min ex ey)) as [[]|[]| |[] m' e'];
      try discriminate S; reflexivity.
Qed.

Lemma natural_not_lt_le (x y : Number) :
  natural x -> natural y -> SFltb y x = false -> SFleb x y = true.
Proof.
  destruct x as [[]|[]| |[] mx ex], y as [[]|[]| |[] my ey];
    cbn [natural]; try contradiction; intros Hx Hy; try (cbn; congruence).
  intros H. apply (false_iff_not (ltb_finite my mx ey ex)) in H.
  apply leb_finite. lia.
Qed.

Lemma natural_lt_le (x y : Number) :
  SFltb y x = true -> SFleb y x = true.
Proof.
  unfold SFltb, SFleb. destruct (SFcompare y x) as [[]|]; congruence.
Qed.

Lemma natural_le_trans (x y z : Number) :
  natural x -> natural y -> natural z ->
  SFleb x y = true -> SFleb y z = true -> SFleb x z = true.
Proof.
  destruct x as [[]|[]| |[] mx ex], y as [[]|[]| |[] my ey],
           z as [[]|[]| |[] mz ez];
    cbn [natural]; try contradiction; intros Hx Hy Hz; try (cbn; congruence).
  rewrite !leb_finite. lia.
Qed.

(** *** The conversions on sample literals

    The Number values of 3.96, 7.95, 0.05 and 1, as mantissa and exponent
    of their binary64 representations. *)
Lemma literal_values :
  of_decimal false 396 2 = S754_finite false 8917127262193582 (-51) /\
  of_decimal false 795 2 = S754_finite false 8950904259398861 (-50) /\
  of_decimal false 5 2 = S754_finite false 7205759403792794 (-57) /\
  of_Z 1 = S754_finite false 4503599627370496 (-52) /\
  parseFloat (js "-0.001") = S754_finite true 4611686018427388 (-62) /\
  parseInt (js "9007199254740993") = S754_finite false 4503599627370496 1.
Proof. vm_compute. repeat split; reflexivity. Qed.

(** *** [parseInt] on a string that starts with a digit *)

Lemma digit_not_space (c : code_unit) : is_digit c = true -> is_space c = false.
Proof.
  unfold is_digit, is_space. intros H. apply andb_true_iff in H as [L U].
  apply N.leb_le in L, U. cbn [existsb].
  repeat match goal with
  | |- context [(c =? ?k)%N] =>
      rewrite (proj2 (N.eqb_neq c k)) by lia
  end.
  cbn [orb]. apply andb_false_iff. left. apply N.leb_gt. lia.
Qed.

Lemma parseInt_natural (c : code_unit) (s : jsstring) :
  is_digit c = true -> natural (parseInt (c :: s)).
Proof.
  intros Hc. unfold parseInt. cbn [trimStart].
  rewrite (digit_not_space c Hc). unfold sign_of.
  assert (Hb : (48 <= c <= 57)%N).
  { unfold is_digit in Hc. apply andb_true_iff in Hc as [L U].
    apply N.leb_le in L, U. lia. }
  change (char "-") with 45%N. change (char "+") with 43%N.
  rewrite (proj2 (N.eqb_neq c 45)), (proj2 (N.eqb_neq c 43)) by lia.
  cbn [span]. rewrite Hc. destruct (span is_digit s) as [ds rest].
  destruct (digits_value (c :: ds)) as [|p]; [exact I|].
  cbn [binary_normalize].
  assert (N : normal_or_inf (0 - 52) (binary_round prec emax false p 0))
    by (apply binary_round_normal; lia).
  destruct (binary_round prec emax false p 0) as [[]|[]| |[] m' e'];
    cbn [normal_or_inf natural] in *; try contradiction; try exact I.
  destruct N as [N1 N2]. split; [exact N1 | lia].
Qed.

End NumberFacts.

(** ** The regular expressions *)

Module RegexFacts.
Import JsNumber Regex.

Lemma plus_sound (cls : code_unit -> bool)
    (k : jsstring -> jsstring -> option (list jsstring))
    (s acc : jsstring) (r : list jsstring) :
  plus cls k acc s = Some r ->
  exists c t rest, cls c = true /\ k (rev acc ++ c :: t) rest = Some r.
Proof.
  revert acc; induction s as [|c s IH]; intros acc; cbn [plus]; [discriminate|].
  destruct (cls c) eqn:Hc; [|discriminate].
  destruct (plus cls k (c :: acc) s) as [r'|] eqn:E.
  - intros [= <-]. destruct (IH _ E) as (c' & t & rest & Hc' & Hk).
    exists c, (c' :: t), rest. split; [exact Hc|].
    cbn [rev] in Hk. now rewrite <- app_assoc in Hk.
  - intros Hk. exists c, [], s. split; [exact Hc | exact Hk].
Qed.

(** Every captured group of a match starts with a character of its
    class; in particular it is not empty. *)
Lemma match_here_captures (p : pattern) (s : jsstring) (caps : list jsstring) :
  match_here p s = Some caps -> Forall2 starts_in (capture_classes p) caps.
Proof.
  revert s caps; induction p as [|[c|cls cap] p IH]; intros s caps;
    cbn [match_here].
  - intros [= <-]. constructor.
  - destruct s as [|c' s]; [discriminate|].
    destruct (c =? c')%N; [apply IH | discriminate].
  - intros H. apply plus_sound in H as (c & t & rest & Hc & Hk).
    destruct (match_here p rest) as [caps'|] eqn:E; [|discriminate].
    injection Hk as <-. specialize (IH _ _ E).
    destruct cap; [|exact IH].
    change (capture_classes (Plus cls true :: p))
      with (cls :: capture_classes p).
    constructor; [|exact IH]. now exists c, t.
Qed.

Lemma exec_captures (p : pattern) (s : jsstring) (caps : list jsstring) :
  exec p s = Some caps -> Forall2 starts_in (capture_classes p) caps.
Proof.
  induction s as [|c s IH]; cbn [exec];
    destruct (match_here p _) as [caps'|] eqn:E; try discriminate.
  - intros [= <-]. now apply match_here_captures in E.
  - intros [= <-]. now apply match_here_captures in E.
  - exact IH.
Qed.

End RegexFacts.

(** ** The parser *)

Module ParserProofs.
Import JsNumber Regex Parser NumberFacts RegexFacts.

(** *** Classification *)

(** The thresholds as binary64 mantissas and exponents. *)
Lemma tenth_eq : of_decimal false 1 1 = S754_finite false 7205759403792794 (-56).
Proof. vm_compute. reflexivity. Qed.
Lemma three_eq : of_decimal false 30 1 = S754_finite false 6755399441055744 (-51).
Proof. vm_compute. reflexivity. Qed.
Lemma four_three_eq : of_decimal false 43 1 = S754_finite false 4841369599423283 (-50).
Proof. vm_compute. reflexivity. Qed.
Lemma two_half_eq : of_decimal false 25 1 = S754_finite false 5629499534213120 (-51).
Proof. vm_compute. reflexivity. Qed.

Ltac to_order :=
  repeat match goal with
  | H : SFltb (S754_finite false _ _) (S754_finite false _ _) = true |- _ =>
      apply ltb_finite in H
  | H : SFleb (S754_finite false _ _) (S754_finite false _ _) = true |- _ =>
      apply leb_finite in H
  | H : SFltb (S754_finite false _ _) (S754_finite false _ _) = false |- _ =>
      apply (false_iff_not (ltb_finite _ _ _ _)) in H
  | H : SFleb (S754_finite false _ _) (S754_finite false _ _) = false |- _ =>
      apply (false_iff_not (leb_finite _ _ _ _)) in H
  end.

Lemma classified_all (v : Number) : classified v.
Proof.
  unfold classified, getCellStatus, lt, ge, le, gt, abs.
  rewrite tenth_eq, three_eq, four_three_eq, two_half_eq. cbv zeta.
  destruct v as [s|s| |s m e]; cbn [SFabs].
  1-3: cbn; repeat split; intros; try reflexivity; try discriminate;
       intuition discriminate.
  destruct (SFltb (S754_finite false m e)
              (S754_finite false 7205759403792794 (-56))) eqn:H1;
  destruct (SFleb (S754_finite false 6755399441055744 (-51))
              (S754_finite false m e)) eqn:H2;
  destruct (SFleb (S754_finite false m e)
              (S754_finite false 4841369599423283 (-50))) eqn:H3;
  destruct (SFltb (S754_finite false 4841369599423283 (-50))
              (S754_finite false m e)) eqn:H4;
  destruct (SFltb (S754_finite false 7205759403792794 (-56))
              (S754_finite false m e)) eqn:H5;
  destruct (SFltb (S754_finite false m e)
              (S754_finite false 5629499534213120 (-51))) eqn:H6;
  cbv [andb orb]; repeat split; intros;
  try reflexivity; try discriminate;
  try (exfalso; to_order; lia); intuition discriminate.
Qed.

(** C5: [getCellStatus], which works on the absolute value, returns
    "danger" below 0.1, "good" from 3.0 to 4.3 inclusive, "warning" above
    4.3 or strictly between 0.1 and 2.5, and "good" for every other value
    (NaN included); and the four sample voltages are classified as the
    specification lists them. *)
Theorem getCellStatus_cases :
  (forall v : Number,
     let a := abs v in
     (lt a (of_decimal false 1 1) = true -> getCellStatus v = danger) /\
     (ge a (of_decimal false 30 1) = true ->
      le a (of_decimal false 43 1) = true -> getCellStatus v = good) /\
     (gt a (of_decimal false 43 1) = true \/
      (gt a (of_decimal false 1 1) = true /\
       lt a (of_decimal false 25 1) = true) -> getCellStatus v = warning) /\
     (lt a (of_decimal false 1 1) = false ->
      ge a (of_decimal false 30 1) && le a (of_decimal false 43 1) = false ->
      gt a (of_decimal false 43 1)
      || (gt a (of_decimal false 1 1) && lt a (of_decimal false 25 1)) = false ->
      getCellStatus v = good)) /\
  getCellStatus (of_decimal false 396 2) = good /\
  getCellStatus (of_decimal false 5 2) = danger /\
  getCellStatus (of_decimal false 20 1) = warning /\
  getCellStatus (of_decimal false 45 1) = warning.
Proof.
  split; [exact classified_all|]. repeat split; vm_compute; reflexivity.
Qed.

Lemma getCellStatus_cases_witness :
  ge (abs (of_decimal true 396 2)) (of_decimal false 30 1) = true /\
  le (abs (of_decimal true 396 2)) (of_decimal false 43 1) = true /\
  getCellStatus (of_decimal true 396 2) = good.
Proof.
  assert (H1 : ge (abs (of_decimal true 396 2)) (of_decimal false 30 1) = true)
    by (vm_compute; reflexivity).
  assert (H2 : le (abs (of_decimal true 396 2)) (of_decimal false 43 1) = true)
    by (vm_compute; reflexivity).
  split; [exact H1|]. split; [exact H2|].
  destruct getCellStatus_cases as [H _].
  destruct (H (of_decimal true 396 2)) as (_ & Hgood & _).
  exact (Hgood H1 H2).
Defined.

(** *** The cells collected by the second loop *)

Lemma scan_ind (P : loop_state -> Prop) :
  P no_module ->
  (forall st line, P st -> P (module_step st line)) ->
  forall lines, P (scan lines).
Proof.
  intros H0 Hstep lines. unfold scan.
  generalize no_module H0. induction lines as [|l ls IH]; intros st Hst.
  - exact Hst.
  - cbn [fold_left]. apply IH. now apply Hstep.
Qed.

(** The cells are pushed together with the pins, one for one. *)
Lemma scan_numbers (lines : list jsstring) :
  map Cell.number (cells_so_far (scan lines)) =
  pin_numbers (push_module (scan lines)).
Proof.
  apply scan_ind; [reflexivity|]. intros st line IH.
  unfold module_step, pin_numbers, push_module in *.
  destruct (exec patterns.moduleHeader line) as [mm|].
  - cbn [currentModule modules_so_far cells_so_far].
    rewrite flat_map_app. cbn [flat_map BatteryModule.pins map app].
    rewrite app_nil_r. exact IH.
  - destruct (exec patterns.pinData line) as [pm|]; [|exact IH].
    destruct (currentModule st) as [cm|] eqn:Ecm; [|rewrite Ecm; exact IH].
    cbn [currentModule modules_so_far cells_so_far].
    rewrite flat_map_app in *.
    cbn [flat_map BatteryModule.pins map app Cell.number Pin.cellNumber] in *.
    rewrite !app_nil_r in *. rewrite !map_app, IH, <- app_assoc. reflexivity.
Qed.

Lemma pinData_classes :
  capture_classes patterns.pinData =
  [is_digit; is_digit; is_integer_char; is_decimal_char].
Proof. reflexivity. Qed.

(** The cell number of a pin line is the Number value of a natural. *)
Lemma pinData_number (line : jsstring) (pinMatch : list jsstring) :
  exec patterns.pinData line = Some pinMatch ->
  natural (parseInt (group pinMatch 2)).
Proof.
  intros H. apply exec_captures in H. rewrite pinData_classes in H.
  inversion H as [|c1 g1 l1 r1 _ H1]; subst.
  inversion H1 as [|c2 g2 l2 r2 (c & t & -> & Hc) _]; subst.
  cbn [group pred nth]. now apply parseInt_natural.
Qed.

Lemma scan_natural (lines : list jsstring) :
  Forall (fun c => natural (Cell.number c)) (cells_so_far (scan lines)).
Proof.
  apply scan_ind; [constructor|]. intros st line IH. unfold module_step.
  destruct (exec patterns.moduleHeader line) as [mm|]; [exact IH|].
  destruct (exec patterns.pinData line) as [pm|] eqn:Epm; [|exact IH].
  destruct (currentModule st) as [cm|]; [|exact IH].
  cbn [cells_so_far]. apply Forall_app. split; [exact IH|].
  constructor; [|constructor]. cbn [Cell.number Pin.cellNumber].
  exact (pinData_number _ _ Epm).
Qed.

(** *** The sort *)

Lemma sort_test (x y : Cell.t) :
  natural (Cell.number x) -> natural (Cell.number y) ->
  gt (SortCompare x y) zero = lt (Cell.number y) (Cell.number x).
Proof. intros Hx Hy. exact (sub_sign _ _ Hx Hy). Qed.

Lemma insert_perm (x : Cell.t) (l : list Cell.t) :
  Permutation (insert x l) (x :: l).
Proof.
  induction l as [|y l IH]; cbn [insert]; [reflexivity|].
  destruct (gt (SortCompare x y) zero); [|reflexivity].
  rewrite IH. apply perm_swap.
Qed.

Lemma sort_perm (l : list Cell.t) : Permutation (sort l) l.
Proof.
  induction l as [|x l IH]; cbn [sort]; [reflexivity|].
  rewrite insert_perm. now constructor.
Qed.

Lemma insert_sorted (x : Cell.t) (l : list Cell.t) :
  natural (Cell.number x) ->
  Forall (fun c => natural (Cell.number c)) l ->
  StronglySorted ascending l -> StronglySorted ascending (insert x l).
Proof.
  intros Hx Hl Hs. induction l as [|y l IH]; cbn [insert].
  - constructor; constructor.
  - inversion Hl as [|? ? Hy Hl']; subst.
    inversion Hs as [|? ? Hs' Hall]; subst.
    rewrite (sort_test _ _ Hx Hy).
    destruct (lt (Cell.number y) (Cell.number x)) eqn:T.
    + constructor; [now apply IH|].
      apply (Permutation_Forall (Permutation_sym (insert_perm x l))).
      constructor; [|exact Hall]. exact (natural_lt_le _ _ T).
    + assert (Hxy : ascending x y) by exact (natural_not_lt_le _ _ Hx Hy T).
      constructor; [exact Hs|]. constructor; [exact Hxy|].
      rewrite Forall_forall in *. intros z Hz.
      exact (natural_le_trans _ _ _ Hx Hy (Hl' z Hz) Hxy (Hall z Hz)).
Qed.

Lemma sort_sorted (l : list Cell.t) :
  Forall (fun c => natural (Cell.number c)) l ->
  StronglySorted ascending (sort l).
Proof.
  induction l as [|x l IH]; intros Hl; cbn [sort]; [constructor|].
  inversion Hl; subst. apply insert_sorted; auto.
  now apply (Permutation_Forall (Permutation_sym (sort_perm l))).
Qed.

Lemma StronglySorted_map_number (l : list Cell.t) :
  StronglySorted ascending l ->
  StronglySorted (fun a b => le a b = true) (map Cell.number l).
Proof.
  induction 1 as [|x l Hs IH Hall]; cbn [map]; constructor; [exact IH|].
  rewrite Forall_map. exact Hall.
Qed.

(** *** The reconciliation keeps the cells and their order *)

Lemma calculate_from_numbers (prev : option Number) (l : list Cell.t) :
  map Cell.number (calculate_from prev l) = map Cell.number l.
Proof.
  revert prev; induction l as [|c l IH]; intros prev; [reflexivity|].
  cbn [calculate_from map]. now rewrite IH.
Qed.

Lemma merge_number (ics : list IndividualCell.t) (c : Cell.t) :
  Cell.number (merge ics c) = Cell.number c.
Proof. unfold merge. destruct (find _ ics); reflexivity. Qed.

Lemma parse_numbers (text : jsstring) :
  map Cell.number (Reading.cells (parse text)) =
  map Cell.number (sort (cells_so_far (scan (lines_of text)))).
Proof.
  unfold parse. cbn [Reading.cells].
  destruct (flat_map individualCell_of_line (lines_of text)).
  - apply calculate_from_numbers.
  - rewrite map_map. apply map_ext. intros c. apply merge_number.
Qed.

(** C2, refuted as stated: two pin lines that name the same cell give two
    cells with that number. *)
Lemma repeated_cell_number_is_kept :
  ~ NoDup (map Cell.number (Reading.cells (parse one_cell_two_pins))).
Proof.
  assert (E : map Cell.number (Reading.cells (parse one_cell_two_pins))
              = [of_Z 1; of_Z 1]) by (vm_compute; reflexivity).
  rewrite E. intros H. inversion H as [|? ? Hin _]; subst.
  apply Hin. now left.
Qed.

(** C2, amended: for every input text, the cells of the Reading returned
    by [parse] are sorted ascending by cell number, also when the pin lines
    mention the numbers out of order; there is one cell per pin of the
    modules, so a cell number repeated on several pin lines appears as
    many times, and no number appears twice when the pins carry distinct
    numbers. *)
Theorem cells_sorted_by_number (text : jsstring) :
  StronglySorted (fun a b => le a b = true)
    (map Cell.number (Reading.cells (parse text))) /\
  Permutation (map Cell.number (Reading.cells (parse text)))
    (pin_numbers (Reading.modules (parse text))) /\
  (NoDup (pin_numbers (Reading.modules (parse text))) ->
   NoDup (map Cell.number (Reading.cells (parse text)))).
Proof.
  assert (P : Permutation (map Cell.number (Reading.cells (parse text)))
                (pin_numbers (Reading.modules (parse text)))).
  { rewrite parse_numbers.
    rewrite (Permutation_map Cell.number (sort_perm _)), scan_numbers.
    reflexivity. }
  split; [|split; [exact P|]].
  - rewrite parse_numbers.
    apply StronglySorted_map_number, sort_sorted, scan_natural.
  - apply Permutation_NoDup. symmetry. exact P.
Qed.

(** *** Reconciliation with the individual-cells section *)

Lemma parse_cells (text : jsstring) :
  Reading.cells (parse text) =
  match Reading.individualCells (parse text) with
  | _ :: _ =>
      map (merge (Reading.individualCells (parse text)))
          (sort (cells_so_far (scan (lines_of text))))
  | [] => calculateIndividualVoltages (sort (cells_so_far (scan (lines_of text))))
  end.
Proof.
  unfold parse. cbn [Reading.cells Reading.individualCells].
  destruct (flat_map individualCell_of_line (lines_of text)); reflexivity.
Qed.

(** What the merging loop does to a cell, shared by the statements on the
    section below. *)
Lemma merged_from_section_aux (text : jsstring) (c : Cell.t) :
  Reading.individualCells (parse text) <> [] ->
  In c (Reading.cells (parse text)) ->
  match find (matching c) (Reading.individualCells (parse text)) with
  | Some ic =>
      Cell.individualVoltage c = Some (IndividualCell.individualVoltage ic) /\
      Cell.status c = Some (IndividualCell.status ic)
  | None =>
      Cell.individualVoltage c = Some zero /\ Cell.status c = Some danger
  end.
Proof.
  intros Hne Hin. rewrite parse_cells in Hin.
  destruct (Reading.individualCells (parse text)) as [|ic0 rest] eqn:E;
    [congruence|].
  apply in_map_iff in Hin as (c0 & <- & _).
  unfold matching. rewrite merge_number. unfold merge.
  destruct (find _ (ic0 :: rest)); split; reflexivity.
Qed.

Lemma find_split {A : Type} (f : A -> bool) (l : list A) (x : A) :
  find f l = Some x ->
  exists pre post,
    l = pre ++ x :: post /\ (forall y, In y pre -> f y = false) /\ f x = true.
Proof.
  induction l as [|y l IH]; cbn [find]; [discriminate|].
  destruct (f y) eqn:E.
  - intros [= ->]. exists [], l. split; [reflexivity|].
    split; [intros z [] | exact E].
  - intros H. destruct (IH H) as (pre & post & -> & Hpre & Hx).
    exists (y :: pre), post. split; [reflexivity|]. split; [|exact Hx].
    intros z [<- | Hz]; [exact E | now apply Hpre].
Qed.

(** C3, refuted as stated: with the lines [Cel 1: 3.50V] and
    [Cel 1: 0.05V], the second entry has the number of cell 1 as well,
    but cell 1 has 3.5 V and "good", not the 0.05 V and "danger" of that
    entry: a cell does not take the values of every entry with its
    number. *)
Lemma a_second_matching_entry_is_not_taken :
  ~ every_matching_entry_is_taken duplicated_section.
Proof.
  intros H. unfold every_matching_entry_is_taken in H. cbv zeta in H.
  assert (Ei : Reading.individualCells (parse duplicated_section) =
               [IndividualCell.mk (of_Z 1) (of_decimal false 350 2) good;
                IndividualCell.mk (of_Z 1) (of_decimal false 5 2) danger])
    by (vm_compute; reflexivity).
  assert (Ec : exists c, In c (Reading.cells (parse duplicated_section)) /\
                 Cell.number c = of_Z 1 /\
                 Cell.status c = Some good).
  { vm_compute. eexists. split; [left; reflexivity | split; reflexivity]. }
  destruct Ec as (c & Hin & Hn & Hs).
  assert (Hne : Reading.individualCells (parse duplicated_section) <> [])
    by (rewrite Ei; discriminate).
  destruct (H Hne c Hin) as [Htake _].
  destruct (Htake (IndividualCell.mk (of_Z 1) (of_decimal false 5 2) danger))
    as [_ Hs'].
  - rewrite Ei. right. left. reflexivity.
  - unfold matching. rewrite Hn. vm_compute. reflexivity.
  - rewrite Hs in Hs'. discriminate Hs'.
Qed.

(** C3, amended: for every record whose individual-cells section has an
    entry, every cell of the result takes the individual voltage and the
    status, as they are, of the first entry of the section with its
    number (no entry before it has that number; entries after it are
    not looked at), and a cell with no such entry gets the voltage 0 and
    the status "danger"; the cells are the sorted cumulative cells so
    merged, the differential computation having no part in them. *)
Theorem merged_from_section (text : jsstring) (c : Cell.t) :
  Reading.individualCells (parse text) <> [] ->
  In c (Reading.cells (parse text)) ->
  let section := Reading.individualCells (parse text) in
  Reading.cells (parse text) =
    map (merge section) (sort (cells_so_far (scan (lines_of text)))) /\
  match find (matching c) section with
  | Some ic =>
      (exists pre post,
         section = pre ++ ic :: post /\
         forall earlier, In earlier pre -> matching c earlier = false) /\
      matching c ic = true /\
      Cell.individualVoltage c = Some (IndividualCell.individualVoltage ic) /\
      Cell.status c = Some (IndividualCell.status ic)
  | None =>
      (forall ic, In ic section -> matching c ic = false) /\
      Cell.individualVoltage c = Some zero /\
      Cell.status c = Some danger
  end.
Proof.
  intros Hne Hin section. subst section.
  pose proof (merged_from_section_aux text c Hne Hin) as H.
  split.
  - rewrite parse_cells at 1.
    destruct (Reading.individualCells (parse text)); [congruence | reflexivity].
  - destruct (find (matching c) (Reading.individualCells (parse text)))
      as [ic|] eqn:F.
    + destruct (find_split _ _ _ F) as (pre & post & E & Hpre & Hm).
      destruct H as [Hv Hs].
      split; [exists pre, post; split; [exact E | exact Hpre]|].
      split; [exact Hm|]. split; [exact Hv | exact Hs].
    + destruct H. repeat split; try assumption.
      intros ic Hi. exact (find_none _ _ F ic Hi).
Qed.

Lemma merged_from_section_witness :
  Reading.individualCells (parse section_with_gap) <> [] /\
  (exists c,
     In c (Reading.cells (parse section_with_gap)) /\
     Cell.number c = of_Z 1 /\
     Cell.individualVoltage c = Some (of_decimal false 350 2) /\
     Cell.status c = Some good) /\
  (exists c,
     In c (Reading.cells (parse section_with_gap)) /\
     Cell.number c = of_Z 2 /\
     Cell.individualVoltage c = Some zero /\
     Cell.status c = Some danger).
Proof.
  assert (Hne : Reading.individualCells (parse section_with_gap) <> [])
    by (vm_compute; discriminate).
  split; [exact Hne|]. split.
  - assert (Hc : exists c, In c (Reading.cells (parse section_with_gap)) /\
                           Cell.number c = of_Z 1).
    { vm_compute. eexists. split; [left; reflexivity | reflexivity]. }
    destruct Hc as (c & Hin & Hn). exists c.
    destruct (merged_from_section section_with_gap c Hne Hin) as [_ H].
    unfold matching in H. rewrite Hn in H.
    assert (F : find (fun ic => strict_eq (IndividualCell.number ic) (of_Z 1))
                  (Reading.individualCells (parse section_with_gap))
                = Some (IndividualCell.mk (of_Z 1) (of_decimal false 350 2) good))
      by (vm_compute; reflexivity).
    rewrite F in H. destruct H as (_ & _ & Hv & Hs).
    repeat split; assumption.
  - assert (Hc : exists c, In c (Reading.cells (parse section_with_gap)) /\
                           Cell.number c = of_Z 2).
    { vm_compute. eexists. split; [right; left; reflexivity | reflexivity]. }
    destruct Hc as (c & Hin & Hn). exists c.
    destruct (merged_from_section section_with_gap c Hne Hin) as [_ H].
    unfold matching in H. rewrite Hn in H.
    assert (F : find (fun ic => strict_eq (IndividualCell.number ic) (of_Z 2))
                  (Reading.individualCells (parse section_with_gap))
                = None)
      by (vm_compute; reflexivity).
    rewrite F in H. destruct H as (_ & Hv & Hs).
    repeat split; assumption.
Defined.

(** *** The differential fallback *)

Lemma calculate_from_nth (l : list Cell.t) (prev : option Number)
    (k : nat) (c : Cell.t) :
  nth_error (calculate_from prev l) k = Some c ->
  let before :=
    match k with
    | O => prev
    | S k' => option_map Cell.voltage (nth_error (calculate_from prev l) k')
    end in
  let v :=
    match before with
    | None => Cell.voltage c
    | Some p => sub (Cell.voltage c) p
    end in
  Cell.individualVoltage c = Some v /\ Cell.status c = Some (getCellStatus v).
Proof.
  revert prev k; induction l as [|x l IH]; intros prev k; cbn [calculate_from].
  - destruct k; discriminate.
  - destruct k as [|k]; cbn [nth_error].
    + intros [= <-]. cbn. split; reflexivity.
    + intros H. specialize (IH _ _ H). destruct k as [|k]; exact IH.
Qed.

(** C4: for every record without individual-cells entries and with at
    least one cumulative cell, the first cell of the result (the lowest
    number) has its cumulative voltage as individual voltage, every later
    cell has its cumulative voltage minus that of the cell before it, and
    the status of each is [getCellStatus] of that individual voltage. *)
Theorem differential_fallback (text : jsstring) :
  Reading.individualCells (parse text) = [] ->
  Reading.cells (parse text) <> [] ->
  let cells := Reading.cells (parse text) in
  (exists first,
     nth_error cells 0 = Some first /\
     Cell.individualVoltage first = Some (Cell.voltage first) /\
     Cell.status first = Some (getCellStatus (Cell.voltage first))) /\
  (forall k c p,
     nth_error cells (S k) = Some c -> nth_error cells k = Some p ->
     Cell.individualVoltage c = Some (sub (Cell.voltage c) (Cell.voltage p)) /\
     Cell.status c =
       Some (getCellStatus (sub (Cell.voltage c) (Cell.voltage p)))).
Proof.
  intros Hno Hne cells. subst cells. rewrite parse_cells, Hno in Hne |- *.
  unfold calculateIndividualVoltages in *.
  set (sorted := sort (cells_so_far (scan (lines_of text)))) in *.
  split.
  - destruct (calculate_from None sorted) as [|first rest] eqn:E; [congruence|].
    exists first. split; [reflexivity|].
    apply (calculate_from_nth sorted None 0). now rewrite E.
  - intros k c p Hc Hp.
    pose proof (calculate_from_nth sorted None (S k) c Hc) as H.
    cbv beta iota zeta in H. rewrite Hp in H. exact H.
Qed.

Lemma differential_fallback_witness :
  Reading.individualCells (parse no_section_record) = [] /\
  Reading.cells (parse no_section_record) <> [] /\
  map Cell.individualVoltage (Reading.cells (parse no_section_record)) =
    [Some (of_decimal false 3963 3);
     Some (sub (of_decimal false 7953 3) (of_decimal false 3963 3))] /\
  exists first,
    nth_error (Reading.cells (parse no_section_record)) 0 = Some first /\
    Cell.individualVoltage first = Some (Cell.voltage first) /\
    Cell.status first = Some (getCellStatus (Cell.voltage first)).
Proof.
  assert (Hno : Reading.individualCells (parse no_section_record) = [])
    by (vm_compute; reflexivity).
  assert (Hne : Reading.cells (parse no_section_record) <> [])
    by (vm_compute; discriminate).
  split; [exact Hno|]. split; [exact Hne|].
  split; [vm_compute; reflexivity|].
  exact (proj1 (differential_fallback no_section_record Hno Hne)).
Defined.

(** *** Duplicates in the individual-cells section *)

Lemma find_first {A : Type} (f : A -> bool) (pre post : list A) (x : A) :
  (forall y, In y pre -> f y = false) -> f x = true ->
  find f (pre ++ x :: post) = Some x.
Proof.
  intros Hpre Hx. induction pre as [|y pre IH]; cbn [app find].
  - now rewrite Hx.
  - rewrite (Hpre y (or_introl eq_refl)). apply IH.
    intros z Hz. apply Hpre. now right.
Qed.

(** C6, refuted as stated: with the lines [Cel 1: 3.50V] and
    [Cel 1: 0.05V] in this order, cell 1 gets 3.5 V and "good", the
    values of the first line, not 0.05 V and "danger" of the last. *)
Lemma later_duplicate_is_ignored : ~ last_duplicate_wins duplicated_section.
Proof.
  intros H.
  assert (Ei : Reading.individualCells (parse duplicated_section) =
               [IndividualCell.mk (of_Z 1) (of_decimal false 350 2) good]
               ++ IndividualCell.mk (of_Z 1) (of_decimal false 5 2) danger :: [])
    by (vm_compute; reflexivity).
  assert (Ec : exists c, In c (Reading.cells (parse duplicated_section)) /\
                 Cell.number c = of_Z 1 /\
                 Cell.status c = Some good).
  { vm_compute. eexists. split; [left; reflexivity | split; reflexivity]. }
  destruct Ec as (c & Hin & Hn & Hs).
  destruct (H c _ _ _ Hin Ei) as [_ Hs'].
  - unfold matching. rewrite Hn. vm_compute. reflexivity.
  - intros later [].
  - rewrite Hs in Hs'. discriminate Hs'.
Qed.

(** C6, amended: the entries of the section are in the order of the lines
    of the record, and when several of them carry the number of a cell,
    the first one gives the cell its voltage and status; later duplicates
    are ignored. *)
Theorem first_duplicate_wins (text : jsstring) (c : Cell.t)
    (pre post : list IndividualCell.t) (ic : IndividualCell.t) :
  In c (Reading.cells (parse text)) ->
  Reading.individualCells (parse text) = pre ++ ic :: post ->
  matching c ic = true ->
  (forall earlier, In earlier pre -> matching c earlier = false) ->
  Reading.individualCells (parse text) =
    flat_map individualCell_of_line (lines_of text) /\
  Cell.individualVoltage c = Some (IndividualCell.individualVoltage ic) /\
  Cell.status c = Some (IndividualCell.status ic).
Proof.
  intros Hin Hsec Hm Hpre. split; [reflexivity|].
  assert (Hne : Reading.individualCells (parse text) <> [])
    by (rewrite Hsec; destruct pre; discriminate).
  pose proof (merged_from_section_aux text c Hne Hin) as H.
  rewrite Hsec, (find_first (matching c) pre post ic Hpre Hm) in H.
  exact H.
Qed.

Lemma first_duplicate_wins_witness :
  exists c,
    In c (Reading.cells (parse duplicated_section)) /\
    Cell.individualVoltage c = Some (of_decimal false 350 2) /\
    Cell.status c = Some good.
Proof.
  assert (Ei : Reading.individualCells (parse duplicated_section) =
               [] ++ IndividualCell.mk (of_Z 1) (of_decimal false 350 2) good
               :: [IndividualCell.mk (of_Z 1) (of_decimal false 5 2) danger])
    by (vm_compute; reflexivity).
  assert (Ec : exists c, In c (Reading.cells (parse duplicated_section)) /\
                 Cell.number c = of_Z 1).
  { vm_compute. eexists. split; [left; reflexivity | reflexivity]. }
  destruct Ec as (c & Hin & Hn). exists c. split; [exact Hin|].
  assert (Hm : matching c (IndividualCell.mk (of_Z 1) (of_decimal false 350 2) good)
               = true)
    by (unfold matching; rewrite Hn; vm_compute; reflexivity).
  exact (proj2 (first_duplicate_wins duplicated_section c [] _ _ Hin Ei Hm
                  (fun earlier (F : In earlier []) => match F with end))).
Defined.

(** *** The example of the specification *)

(** C8: the record of the example parses to a cell count of 2, a total of
    7.95 V, the cells 1 and 2 with 3.96 V and 3.99 V, both "good", and
    the single module 1 at address 48 with the pins A0 and A1 in this
    order. *)
Theorem example_reading :
  let r := parse example_record in
  Reading.cellCount r = of_Z 2 /\
  Reading.totalVoltage r = of_decimal false 795 2 /\
  map (fun c => (Cell.number c, Cell.individualVoltage c, Cell.status c))
      (Reading.cells r) =
    [(of_Z 1, Some (of_decimal false 396 2), Some good);
     (of_Z 2, Some (of_decimal false 399 2), Some good)] /\
  map (fun m => (BatteryModule.id m, BatteryModule.address m,
                 map Pin.pin (BatteryModule.pins m)))
      (Reading.modules r) =
    [(of_Z 1, js "48", [js "A0"; js "A1"])].
Proof. vm_compute. repeat split; reflexivity. Qed.

End ParserProofs.

(** ** White space and separators *)

Module TrimFacts.
Import SplitFacts.

Lemma trimStart_length (s : jsstring) :
  (length (trimStart s) <= length s)%nat.
Proof.
  induction s as [|c s IH]; [reflexivity|]. cbn [trimStart].
  destruct (is_space c); cbn [length]; lia.
Qed.

Lemma trimStart_fixed (s : jsstring) :
  trimStart s = s <-> match s with [] => True | c :: _ => is_space c = false end.
Proof.
  destruct s as [|c s]; [tauto|]. cbn [trimStart].
  destruct (is_space c) eqn:E; [|tauto]. split; [|discriminate].
  intros H. pose proof (trimStart_length s) as L. rewrite H in L.
  cbn [length] in L. lia.
Qed.

Lemma trimStart_idem (s : jsstring) : trimStart (trimStart s) = trimStart s.
Proof.
  induction s as [|c s IH]; [reflexivity|]. cbn [trimStart].
  destruct (is_space c) eqn:E; [exact IH|]. cbn [trimStart]. now rewrite E.
Qed.

Lemma trimStart_suffix (s : jsstring) : exists a, s = a ++ trimStart s.
Proof.
  induction s as [|c s [a IH]]; [now exists []|]. cbn [trimStart].
  destruct (is_space c); [|now exists []].
  exists (c :: a). cbn [app]. now rewrite <- IH.
Qed.

Lemma trimStart_app_solid (l : jsstring) (c : code_unit) :
  is_space c = false -> trimStart (l ++ [c]) = trimStart l ++ [c].
Proof.
  intros Hc. induction l as [|x l IH]; cbn [app trimStart].
  - now rewrite Hc.
  - destruct (is_space x); [exact IH | reflexivity].
Qed.

Lemma trimEnd_prefix (s : jsstring) : exists b, s = trimEnd s ++ b.
Proof.
  unfold trimEnd. destruct (trimStart_suffix (rev s)) as [a H].
  exists (rev a). rewrite <- rev_app_distr, <- H. now rewrite rev_involutive.
Qed.

Lemma trimEnd_idem (s : jsstring) : trimEnd (trimEnd s) = trimEnd s.
Proof. unfold trimEnd. now rewrite rev_involutive, trimStart_idem. Qed.

Lemma trimEnd_app_space (s : jsstring) (c : code_unit) :
  is_space c = true -> trimEnd (s ++ [c]) = trimEnd s.
Proof.
  intros Hc. unfold trimEnd. rewrite rev_app_distr. cbn [rev app trimStart].
  now rewrite Hc.
Qed.

Lemma trimStart_trimEnd (s : jsstring) :
  trimStart s = s -> trimStart (trimEnd s) = trimEnd s.
Proof.
  intros H. apply trimStart_fixed in H. destruct s as [|c s]; [reflexivity|].
  unfold trimEnd. cbn [rev]. rewrite (trimStart_app_solid _ c H).
  rewrite rev_app_distr. cbn [rev app trimStart]. now rewrite H.
Qed.

Lemma trim_idem (s : jsstring) : trim (trim s) = trim s.
Proof.
  unfold trim. rewrite (trimStart_trimEnd _ (trimStart_idem s)).
  apply trimEnd_idem.
Qed.

Lemma trim_substring (s : jsstring) : exists a b, s = a ++ trim s ++ b.
Proof.
  destruct (trimStart_suffix s) as [a Ha].
  destruct (trimEnd_prefix (trimStart s)) as [b Hb].
  exists a, b. unfold trim. now rewrite <- Hb.
Qed.

Lemma occurs_inside (sep a s b : jsstring) :
  occurs sep s -> occurs sep (a ++ s ++ b).
Proof.
  intros (x & y & ->). exists (a ++ x), (y ++ b).
  now rewrite <- !app_assoc.
Qed.

Lemma occurs_trim (sep s : jsstring) : occurs sep (trim s) -> occurs sep s.
Proof.
  intros H. destruct (trim_substring s) as (a & b & E). rewrite E.
  now apply occurs_inside.
Qed.

Lemma trimStart_app_space (s : jsstring) (c : code_unit) :
  is_space c = true ->
  trimStart (s ++ [c]) = trimStart s ++ [c] \/
  (trimStart (s ++ [c]) = [] /\ trimStart s = []).
Proof.
  intros Hc. induction s as [|x s IH]; cbn [app trimStart].
  - rewrite Hc. now right.
  - destruct (is_space x); [exact IH | now left].
Qed.

Lemma trim_app_space (s : jsstring) (c : code_unit) :
  is_space c = true -> trim (s ++ [c]) = trim s.
Proof.
  intros Hc. unfold trim.
  destruct (trimStart_app_space s c Hc) as [-> | [-> ->]]; [|reflexivity].
  now apply trimEnd_app_space.
Qed.

(** The text before the leftmost separator ends at its first occurrence. *)
Lemma indexOf_split_leftmost (sep s b a : jsstring) :
  sep <> [] -> indexOf_split sep s = Some (b, a) ->
  ~ occurs sep (b ++ removelast sep).
Proof.
  intros Hsep. revert b a; induction s as [|c s IH]; intros b a.
  - cbn [indexOf_split]. destruct (starts_with sep []) eqn:E; [|discriminate].
    destruct sep; [congruence | discriminate E].
  - cbn [indexOf_split]. destruct (starts_with sep (c :: s)) eqn:E.
    + intros [= <- <-] (x & y & H). cbn [app] in H.
      apply (f_equal (@length _)) in H. rewrite !length_app in H.
      assert (L : length sep = S (length (removelast sep))).
      { rewrite (app_removelast_last 0%N Hsep) at 1.
        rewrite length_app. cbn [length]. apply Nat.add_1_r. }
      lia.
    + destruct (indexOf_split sep s) as [[b' a']|] eqn:R; [|discriminate].
      intros [= <- <-] (x & y & H). destruct x as [|x0 x].
      * cbn [app] in H.
        pose proof (indexOf_split_Some _ _ _ _ R) as Hs.
        assert (Es : c :: s = sep ++ (y ++ last sep 0%N :: a')).
        { rewrite (app_assoc sep y), <- H, Hs. cbn [app]. f_equal.
          rewrite <- app_assoc. f_equal.
          rewrite (app_removelast_last 0%N Hsep) at 1.
          rewrite <- app_assoc. reflexivity. }
        rewrite Es, starts_with_self_app in E. discriminate E.
      * cbn [app] in H. injection H as _ H.
        apply (IH b' a' eq_refl). now exists x, y.
Qed.

Lemma ends_at_first_clean (sep segment : jsstring) :
  Framing.ends_at_first sep segment -> ~ occurs sep segment.
Proof.
  unfold Framing.ends_at_first. intros H (x & y & E). apply H.
  exists x, (y ++ removelast sep). rewrite E. now rewrite <- !app_assoc.
Qed.

(** [split] cuts the text at its separators, leftmost first: the text is
    the parts joined again, and every part but the last ends at the
    first occurrence of the separator. *)
Lemma split_parts (sep s : jsstring) :
  sep <> [] ->
  s = concat (map (fun p => p ++ sep) (removelast (split sep s)))
      ++ last (split sep s) [] /\
  Forall (Framing.ends_at_first sep) (removelast (split sep s)).
Proof.
  intros Hsep. induction s as [s R | s b a R [IH1 IH2]] using (split_ind sep Hsep);
    rewrite split_unfold, R by exact Hsep.
  - split; [reflexivity | constructor].
  - pose proof (split_not_nil _ a Hsep) as Hne.
    destruct (split sep a) as [|p ps] eqn:E; [congruence|].
    cbn [removelast last map concat] in *.
    change (match ps with [] => [] | _ :: _ => p :: removelast ps end)
      with (removelast (p :: ps)) in *.
    change (match ps with [] => p | _ :: _ => last ps [] end)
      with (last (p :: ps) []) in *.
    split.
    + rewrite <- !app_assoc, <- IH1. now apply indexOf_split_Some.
    + constructor; [|exact IH2].
      exact (indexOf_split_leftmost _ _ _ _ Hsep R).
Qed.

End TrimFacts.

(** ** What [processData] hands over *)

Module FramerFacts.
Import Serial SplitFacts FramerProofs TrimFacts Framing.

Lemma emit_filter (cb : bool) (parts : list jsstring) :
  emit cb parts =
  if cb then filter truthy (map trim (removelast parts)) else [].
Proof.
  unfold emit. destruct cb.
  - apply filter_ext. intros a. apply andb_true_r.
  - induction (map trim (removelast parts)) as [|x l IH]; [reflexivity|].
    cbn [filter]. rewrite andb_false_r. exact IH.
Qed.

(** X10: [processData] cuts the buffered text followed by the chunk at
    the separators, leftmost first: the text is the segments, each
    followed by a separator, and then a rest without separator; every
    segment ends where the first separator after its start begins; the
    callback, if one is registered, gets the trimmed segments that are
    not empty, in order; and the rest is the new buffer, unless it is
    longer than 10,000 characters, in which case the buffer is emptied. *)
Theorem processData_cuts_at_separators (r : SerialReader) (chunk : jsstring) :
  exists segments rest,
    buffer r ++ chunk =
      concat (map (fun s => s ++ separator) segments) ++ rest /\
    Forall (ends_at_first separator) segments /\
    ~ occurs separator rest /\
    snd (processData r chunk) =
      (if onDataCallback r then filter truthy (map trim segments) else []) /\
    buffer (fst (processData r chunk)) =
      (if (10000 <? strlen rest)%Z then [] else rest).
Proof.
  exists (removelast (split separator (buffer r ++ chunk))),
         (last (split separator (buffer r ++ chunk)) []).
  destruct (split_parts separator (buffer r ++ chunk) separator_not_nil)
    as [H1 H2].
  split; [exact H1|]. split; [exact H2|].
  split; [apply split_last_clean, separator_not_nil|].
  split; [rewrite processData_out; apply emit_filter|].
  apply processData_buffer.
Qed.

Lemma processData_well_formed (r : SerialReader) (chunk : jsstring) :
  Forall well_formed (snd (processData r chunk)).
Proof.
  rewrite processData_out, emit_filter.
  destruct (onDataCallback r); [|constructor].
  destruct (split_parts separator (buffer r ++ chunk) separator_not_nil)
    as [_ H].
  induction H as [|p ps Hp _ IH]; [constructor|].
  cbn [map filter]. destruct (truthy (trim p)) eqn:T; [|exact IH].
  constructor; [|exact IH]. split; [|split].
  - intros E. rewrite E in T. discriminate T.
  - apply trim_idem.
  - intros Ho. apply (ends_at_first_clean _ _ Hp). now apply occurs_trim.
Qed.

(** X11: every reading that a sequence of [processData] calls hands to
    the callback is not empty, has no white space at either end and
    contains no separator, whatever the buffer held and however the
    text was cut into chunks. *)
Theorem readings_are_well_formed (r : SerialReader) (chunks : list jsstring) :
  Forall well_formed (snd (feed r chunks)).
Proof.
  revert r; induction chunks as [|c cs IH]; intros r; [constructor|].
  cbn [feed]. pose proof (processData_well_formed r c) as H1.
  destruct (processData r c) as [r1 out1]. specialize (IH r1).
  destruct (feed r1 cs) as [r2 out2]. cbn [snd] in *.
  apply Forall_app. now split.
Qed.

(** X12: text that completes no separator is only accumulated: when the
    buffer followed by the chunk contains no separator and is at most
    10,000 characters long, [processData] hands nothing to the callback
    and keeps the whole text as the new buffer. *)
Theorem incomplete_text_is_kept (r : SerialReader) (chunk : jsstring) :
  ~ occurs separator (buffer r ++ chunk) ->
  (strlen (buffer r ++ chunk) <= 10000)%Z ->
  processData r chunk = (set_buffer (buffer r ++ chunk) r, []).
Proof.
  intros Hclean Hfit. unfold processData.
  rewrite (split_clean _ _ separator_not_nil Hclean).
  cbn [last]. rewrite emit_filter. cbn [removelast map filter].
  destruct (Z.ltb_spec 10000 (strlen (buffer r ++ chunk))) as [H | H];
    [lia|].
  destruct (onDataCallback r); reflexivity.
Qed.

Lemma incomplete_text_is_kept_witness :
  processData (set_buffer (js "Cel 1: 3.96V") (onData constructor))
    (repeat (char "=") 57) =
  (set_buffer (js "Cel 1: 3.96V" ++ repeat (char "=") 57) (onData constructor),
   []).
Proof.
  apply (incomplete_text_is_kept
           (set_buffer (js "Cel 1: 3.96V") (onData constructor))
           (repeat (char "=") 57)).
  - apply indexOf_split_None. vm_compute. reflexivity.
  - vm_compute. discriminate.
Defined.

End FramerFacts.

(** ** Line endings *)

Module LineFacts.
Import SplitFacts TrimFacts Framing Parser.

Lemma split_char_cons (x c : code_unit) (s : jsstring) :
  split [x] (c :: s) =
  if (x =? c)%N then [] :: split [x] s
  else match split [x] s with
       | p :: ps => (c :: p) :: ps
       | [] => [[c]]
       end.
Proof.
  rewrite (split_unfold [x] (c :: s)), (split_unfold [x] s) by discriminate.
  cbn [indexOf_split starts_with length skipn].
  destruct (x =? c)%N; cbn [andb].
  - rewrite (split_unfold [x] s) by discriminate. reflexivity.
  - destruct (indexOf_split [x] s) as [[b a]|]; reflexivity.
Qed.

Lemma split_with_carriage_returns (text : jsstring) :
  Forall2 same_line (split [10%N] (with_carriage_returns text))
    (split [10%N] text).
Proof.
  induction text as [|c s IH].
  - repeat constructor.
  - unfold with_carriage_returns in *. cbn [flat_map].
    pose proof (split_char_cons 10%N) as Hcons.
    unfold code_unit, jsstring in *.
    rewrite (Hcons c s). rewrite (N.eqb_sym 10%N c).
    destruct (c =? 10)%N eqn:E; cbn [app].
    + rewrite (Hcons 13%N), (Hcons 10%N).
      cbn [N.eqb Pos.eqb]. constructor; [now right | exact IH].
    + rewrite (Hcons c), (N.eqb_sym 10%N c), E.
      destruct IH as [|p q ps qs Hpq IH]; [repeat constructor|].
      constructor; [|exact IH].
      destruct Hpq as [-> | ->]; [now left | now right].
Qed.

Lemma lines_of_with_carriage_returns (text : jsstring) :
  lines_of (with_carriage_returns text) = lines_of text.
Proof.
  unfold lines_of. f_equal.
  induction (split_with_carriage_returns text) as [|p q ps qs Hpq _ IH];
    [reflexivity|].
  cbn [map]. rewrite IH. f_equal.
  destruct Hpq as [-> | ->]; [reflexivity|].
  now apply trim_app_space.
Qed.

(** X6: a carriage return before each line feed changes nothing for
    the parser's line-based arrays: the text with CR LF line endings has
    the same trimmed non-empty lines as the one with LF endings, hence
    the same cells, individual-cells section and modules. *)
Theorem carriage_returns_are_ignored (text : jsstring) :
  lines_of (with_carriage_returns text) = lines_of text /\
  Reading.cells (parse (with_carriage_returns text)) =
    Reading.cells (parse text) /\
  Reading.individualCells (parse (with_carriage_returns text)) =
    Reading.individualCells (parse text) /\
  Reading.modules (parse (with_carriage_returns text)) =
    Reading.modules (parse text).
Proof.
  pose proof (lines_of_with_carriage_returns text) as H.
  split; [exact H|]. unfold parse.
  cbn [Reading.cells Reading.individualCells Reading.modules].
  rewrite H. repeat split.
Qed.

End LineFacts.

(** ** Connecting, reading and writing *)

Module ConnectionProofs.
Import Serial SplitFacts FramerProofs TeardownProofs Connection.

(** *** The traces *)

Lemma setup_steps_app (a b : list Trace) :
  setup_steps (a ++ b) = setup_steps a ++ setup_steps b.
Proof. apply flat_map_app. Qed.
Lemma statuses_app (a b : list Trace) :
  statuses (a ++ b) = statuses a ++ statuses b.
Proof. apply flat_map_app. Qed.
Lemma teardown_steps_app (a b : list Trace) :
  teardown_steps (a ++ b) = teardown_steps a ++ teardown_steps b.
Proof. apply flat_map_app. Qed.
Lemma readings_app (a b : list Trace) :
  readings (a ++ b) = readings a ++ readings b.
Proof. apply flat_map_app. Qed.

Lemma serial_events (ev : list Event) :
  setup_steps (map Serial_event ev) = [] /\
  statuses (map Serial_event ev) = status_changes ev /\
  teardown_steps (map Serial_event ev) = attempts ev /\
  readings (map Serial_event ev) = [] /\
  writes (map Serial_event ev) = [].
Proof.
  induction ev as [|e ev (IH1 & IH2 & IH3 & IH4 & IH5)]; [repeat split|].
  cbn [map]. unfold setup_steps, statuses, teardown_steps, readings, writes,
    status_changes, attempts in *. cbn [flat_map].
  rewrite IH1, IH2, IH3, IH4, IH5. destruct e; repeat split.
Qed.

Lemma readings_data (out : list jsstring) : readings (map Data out) = out.
Proof.
  induction out as [|x out IH]; [reflexivity|].
  cbn [map]. unfold readings in *. cbn [flat_map app]. now rewrite IH.
Qed.

(** *** The lifted methods *)

Lemma lift_updateStatus (s : Status) (r : SerialReader) :
  lift (updateStatus s) r =
  (Ok tt,
   set_isConnected (match s with connected => true | _ => false end) r,
   status_event r s).
Proof.
  unfold lift, updateStatus, Serial.bind, Serial.modify, Serial.get,
    Serial.tell, Serial.ret, status_event.
  cbn [onStatusChangeCallback set_isConnected].
  destruct (onStatusChangeCallback r); reflexivity.
Qed.

Lemma lift_cleanup (rj : Operation -> bool) (r : SerialReader) :
  lift (_cleanupConnection rj) r =
  (Ok tt, clear_references (set_keepReading false r),
   map Serial_event (snd (_cleanupConnection rj r))).
Proof. unfold lift. rewrite cleanup_run. reflexivity. Qed.

Lemma cleanup_trace (rj : Operation -> bool) (r : SerialReader) :
  let t := map Serial_event (snd (_cleanupConnection rj r)) in
  setup_steps t = [] /\ statuses t = [] /\
  teardown_steps t = operations_due r /\ readings t = [].
Proof.
  cbv zeta.
  destruct (serial_events (snd (_cleanupConnection rj r)))
    as (-> & -> & -> & -> & _).
  rewrite cleanup_attempts, cleanup_status_changes. repeat split.
Qed.

Lemma status_event_trace (r : SerialReader) (s : Status) :
  setup_steps (status_event r s) = [] /\
  statuses (status_event r s) = (if onStatusChangeCallback r then [s] else []) /\
  teardown_steps (status_event r s) = [] /\
  readings (status_event r s) = [].
Proof. unfold status_event. destruct (onStatusChangeCallback r); repeat split. Qed.

Lemma lift_disconnect_port (rj : Operation -> bool) (r : SerialReader) :
  isDisconnecting r = false -> is_set (port r) = true ->
  lift (disconnect rj) r =
  (Ok tt, set_isConnected false (clear_references (set_keepReading false r)),
   map Serial_event (snd (_cleanupConnection rj r)) ++ status_event r disconnected).
Proof.
  intros Hd Hp. unfold lift. rewrite (disconnect_run rj r Hd Hp).
  rewrite map_app. unfold status_event.
  destruct (onStatusChangeCallback r); reflexivity.
Qed.

Lemma lift_disconnect_no_port (rj : Operation -> bool) (r : SerialReader) :
  isDisconnecting r = false -> is_set (port r) = false ->
  lift (disconnect rj) r =
  (Ok tt, set_isConnected false r, status_event r disconnected).
Proof.
  intros Hd Hp.
  unfold lift, disconnect, updateStatus, Serial.bind, Serial.get,
    Serial.modify, Serial.tell, Serial.ret, status_event.
  rewrite Hd. destruct (port r); [discriminate Hp|].
  cbn [onStatusChangeCallback set_isConnected].
  destruct (onStatusChangeCallback r); reflexivity.
Qed.

(** *** [connect] *)

Lemma establish_success (env : Browser) (r : SerialReader) :
  first_failure (fails env) all_setup = None ->
  establish env r =
  (Ok tt, set_up env r,
   status_event r connecting ++ map Setup_started all_setup
   ++ status_event r connected).
Proof.
  unfold all_setup. cbn [first_failure]. intros H.
  destruct (fails env request_port) eqn:F1; [discriminate|].
  destruct (fails env open_port) eqn:F2; [discriminate|].
  destruct (fails env pipe_decoder) eqn:F3; [discriminate|].
  destruct (fails env get_reader) eqn:F4; [discriminate|].
  destruct (fails env get_writer) eqn:F5; [discriminate|].
  unfold establish, Connection.and_then, attempt, Connection.update.
  rewrite lift_updateStatus, F1, F2, F3, F4, F5, lift_updateStatus.
  unfold set_up, status_event.
  cbn [onStatusChangeCallback set_isConnected set_isDisconnecting
       set_keepReading set_writer set_reader set_readableStreamClosed set_port
       map app].
  reflexivity.
Qed.

Ltac failed_at H :=
  injection H as <- <-; eexists;
  split; [reflexivity|]; split; [reflexivity|]; split; [reflexivity|];
  intros (Hp & Hr & Hw & Hrs & Hws); unfold operations_due;
  cbn [port reader writer readableStreamClosed writableStreamClosed
       set_isConnected set_port set_reader set_writer
       set_readableStreamClosed];
  rewrite ?Hp, ?Hr, ?Hw, ?Hrs, ?Hws; reflexivity.

Lemma establish_failure (env : Browser) (r : SerialReader)
    (op : Setup) (name : ErrorName) :
  first_failure (fails env) all_setup = Some (op, name) ->
  exists r1,
    establish env r =
      (Err name, r1,
       status_event r connecting ++ map Setup_started (through op all_setup)) /\
    onStatusChangeCallback r1 = onStatusChangeCallback r /\
    onDataCallback r1 = onDataCallback r /\
    (idle r -> operations_due r1 = undone op).
Proof.
  unfold all_setup. cbn [first_failure]. intros H.
  unfold establish, Connection.and_then, attempt, Connection.update.
  rewrite lift_updateStatus.
  destruct (fails env request_port) eqn:F1; [failed_at H|].
  destruct (fails env open_port) eqn:F2; [failed_at H|].
  destruct (fails env pipe_decoder) eqn:F3; [failed_at H|].
  destruct (fails env get_reader) eqn:F4; [failed_at H|].
  destruct (fails env get_writer) eqn:F5; [failed_at H | discriminate].
Qed.

Lemma on_failure_run (env : Browser) (name : ErrorName) (r : SerialReader) :
  on_failure env name r =
  (Err name, set_isConnected false (clear_references (set_keepReading false r)),
   map Serial_event (snd (_cleanupConnection (rejects env) r))
   ++ status_event r error).
Proof.
  unfold on_failure, Connection.and_then, throw.
  rewrite lift_cleanup, lift_updateStatus. unfold status_event.
  cbn [onStatusChangeCallback clear_references set_buffer force_cleanup
       set_keepReading].
  rewrite app_nil_r. reflexivity.
Qed.

Lemma connect_unfold (env : Browser) (r : SerialReader) :
  supported env = true -> connectable r ->
  connect env r =
  let (r0, t0) := freshened env r in
  match catching (establish env) (on_failure env) r0 with
  | (res, r1, t1) => (res, r1, t0 ++ t1)
  end.
Proof.
  intros Hs [Hd Hc]. unfold connect, freshened. rewrite Hs. cbn [negb].
  unfold Connection.and_then at 1, Connection.this at 1. rewrite Hd.
  destruct (is_set (port r)) eqn:Hp.
  - rewrite (Hc eq_refl). cbn [negb andb].
    unfold Connection.and_then at 1. rewrite lift_cleanup.
    unfold Connection.and_then at 1, Connection.this at 1.
    cbn [port clear_references set_buffer force_cleanup is_set andb].
    fold (on_failure env).
    destruct (catching _ _ _) as [[res r1] t1]. reflexivity.
  - cbn [andb]. unfold Connection.and_then at 1, Connection.pure at 1.
    unfold Connection.and_then at 1, Connection.this at 1. rewrite Hp. cbn [andb].
    fold (on_failure env).
    destruct (catching _ _ _) as [[res r1] t1]. reflexivity.
Qed.

Lemma freshened_trace (env : Browser) (r : SerialReader) :
  let t := snd (freshened env r) in
  setup_steps t = [] /\ statuses t = [] /\ readings t = [] /\
  teardown_steps t = (if is_set (port r) then operations_due r else []).
Proof.
  unfold freshened. destruct (is_set (port r)); cbn [snd]; [|repeat split].
  destruct (cleanup_trace (rejects env) r) as (-> & -> & -> & ->).
  repeat split.
Qed.

Lemma freshened_state (env : Browser) (r : SerialReader) :
  let r0 := fst (freshened env r) in
  onStatusChangeCallback r0 = onStatusChangeCallback r /\
  onDataCallback r0 = onDataCallback r /\
  buffer r0 = (if is_set (port r) then [] else buffer r) /\
  ((is_set (port r) = false -> idle r) -> idle r0).
Proof.
  unfold freshened. destruct (is_set (port r)); cbn [fst].
  - split; [reflexivity|]. split; [reflexivity|]. split; [reflexivity|].
    intros _. repeat split.
  - split; [reflexivity|]. split; [reflexivity|]. split; [reflexivity|].
    intros H. now apply H.
Qed.

Lemma consistent_idle (r : SerialReader) :
  consistent r -> is_set (port r) = false -> idle r.
Proof.
  intros (_ & Hws & Hr & Hw & Hrs & _) Hp. rewrite Hp in *.
  unfold idle. destruct (port r), (reader r), (writer r),
    (readableStreamClosed r); try discriminate. now repeat split.
Qed.

Lemma connect_success_run (env : Browser) (r : SerialReader) :
  supported env = true -> connectable r ->
  first_failure (fails env) all_setup = None ->
  connect env r =
  (Ok tt, set_up env (fst (freshened env r)),
   snd (freshened env r)
   ++ status_event r connecting ++ map Setup_started all_setup
   ++ status_event r connected).
Proof.
  intros Hs Hc Hf. rewrite (connect_unfold env r Hs Hc).
  destruct (freshened_state env r) as (Hcb & _).
  destruct (freshened env r) as [r0 t0]. cbn [fst snd] in *.
  unfold catching. rewrite (establish_success env r0 Hf).
  unfold status_event. rewrite Hcb. reflexivity.
Qed.

Lemma connect_failure_run (env : Browser) (r : SerialReader)
    (op : Setup) (name : ErrorName) :
  supported env = true -> connectable r ->
  first_failure (fails env) all_setup = Some (op, name) ->
  exists r1 t,
    connect env r =
      (Err name,
       set_isConnected false (clear_references (set_keepReading false r1)), t) /\
    onStatusChangeCallback r1 = onStatusChangeCallback r /\
    onDataCallback r1 = onDataCallback r /\
    setup_steps t = through op all_setup /\
    statuses t = (if onStatusChangeCallback r then [connecting; error] else []) /\
    readings t = [] /\
    ((is_set (port r) = false -> idle r) ->
     teardown_steps t =
     (if is_set (port r) then operations_due r else []) ++ undone op).
Proof.
  intros Hs Hc Hf. rewrite (connect_unfold env r Hs Hc).
  destruct (freshened_state env r) as (Hcb & Hdc & _ & Hidle).
  destruct (freshened_trace env r) as (T1 & T2 & T3 & T4).
  destruct (freshened env r) as [r0 t0]. cbn [fst snd] in *.
  destruct (establish_failure env r0 op name Hf) as (r1 & E & Hcb1 & Hdc1 & Hdue).
  unfold catching. rewrite E, on_failure_run.
  eexists; eexists. split; [reflexivity|].
  split; [congruence|]. split; [congruence|].
  destruct (cleanup_trace (rejects env) r1) as (U1 & U2 & U3 & U4).
  destruct (status_event_trace r0 connecting) as (V1 & V2 & V3 & V4).
  destruct (status_event_trace r1 error) as (W1 & W2 & W3 & W4).
  assert (S1 : forall ops, setup_steps (map Setup_started ops) = ops).
  { induction ops as [|o ops IH]; [reflexivity|].
    cbn [map]. unfold setup_steps in *. cbn [flat_map app]. now rewrite IH. }
  assert (S2 : forall ops, statuses (map Setup_started ops) = []
                           /\ teardown_steps (map Setup_started ops) = []
                           /\ readings (map Setup_started ops) = []).
  { induction ops as [|o ops (I1 & I2 & I3)]; [repeat split|].
    cbn [map]. unfold statuses, teardown_steps, readings in *.
    cbn [flat_map app]. now rewrite I1, I2, I3. }
  destruct (S2 (through op all_setup)) as (S3 & S4 & S5).
  rewrite !setup_steps_app, !statuses_app, !readings_app, !teardown_steps_app.
  rewrite T1, T2, T3, T4, U1, U2, U3, U4, V1, V2, V3, V4, W1, W2, W3, W4,
    S1, S3, S4, S5, Hcb1, Hcb.
  rewrite !app_nil_r. cbn [app].
  split; [reflexivity|]. split; [destruct (onStatusChangeCallback r); reflexivity|].
  split; [reflexivity|].
  intros Hi. rewrite (Hdue (Hidle Hi)). reflexivity.
Qed.

(** *** The invariant of the calls *)

Lemma framed_nil (r : SerialReader) : buffer r = [] -> framed r.
Proof.
  intros E. unfold framed. rewrite E. split; [|unfold strlen; simpl; lia].
  intros (a & b & H). destruct a; discriminate H.
Qed.

Lemma consistent_torn (r : SerialReader) :
  consistent (set_isConnected false (clear_references (set_keepReading false r))).
Proof.
  unfold consistent.
  cbn [isDisconnecting writableStreamClosed reader writer port
       readableStreamClosed isConnected keepReading buffer set_isConnected
       clear_references set_buffer force_cleanup set_keepReading is_set].
  repeat split; try discriminate. now apply framed_nil.
Qed.

Lemma consistent_not_connected (r : SerialReader) :
  consistent r -> consistent (set_isConnected false r).
Proof.
  unfold consistent, framed.
  cbn [isDisconnecting writableStreamClosed reader writer port
       readableStreamClosed isConnected keepReading buffer set_isConnected].
  intros (H1 & H2 & H3 & H4 & H5 & H6 & H7 & H8 & H9).
  repeat split; try assumption; try discriminate; apply H9.
Qed.

Lemma consistent_set_up (env : Browser) (r : SerialReader) :
  writableStreamClosed r = None -> framed r -> consistent (set_up env r).
Proof.
  unfold consistent, framed, set_up.
  cbn [isDisconnecting writableStreamClosed reader writer port
       readableStreamClosed isConnected keepReading buffer set_isConnected
       set_isDisconnecting set_keepReading set_writer set_reader
       set_readableStreamClosed set_port is_set].
  intros H1 H2. repeat split; try assumption; try discriminate; apply H2.
Qed.

Lemma consistent_buffer (r : SerialReader) (b : jsstring) :
  consistent r -> is_set (port r) = true -> framed (set_buffer b r) ->
  consistent (set_buffer b r).
Proof.
  unfold consistent.
  cbn [isDisconnecting writableStreamClosed reader writer port
       readableStreamClosed isConnected keepReading buffer set_buffer].
  intros (H1 & H2 & H3 & H4 & H5 & H6 & H7 & H8 & H9) Hp Hf.
  repeat split; try assumption; try apply Hf. intros E. congruence.
Qed.

Lemma set_buffer_same (r : SerialReader) : set_buffer (buffer r) r = r.
Proof. destruct r; reflexivity. Qed.

Lemma processData_state (r : SerialReader) (c : jsstring) :
  fst (processData r c) = set_buffer (buffer (fst (processData r c))) r.
Proof.
  unfold processData.
  destruct (10000 <? strlen (last (split separator (buffer r ++ c)) []))%Z;
    reflexivity.
Qed.

Lemma read_iterations_eq (reads : list ReadResult) (r : SerialReader) :
  read_iterations reads r =
  if is_set (port r) && keepReading r && negb (isDisconnecting r) then
    match reads with
    | [] => (Ok waiting, r, [])
    | done :: _ => (Ok finished, r, [])
    | chunk value :: rest =>
        if truthy value then
          let (r1, out) := processData r value in
          match read_iterations rest r1 with
          | (res, r2, t) => (res, r2, map Data out ++ t)
          end
        else read_iterations rest r
    | failure name :: _ => (Err name, r, [])
    end
  else (Ok finished, r, []).
Proof.
  destruct reads as [|[value| |name] rest]; cbn [read_iterations];
    unfold Connection.and_then at 1, Connection.this at 1;
    destruct (is_set (port r) && keepReading r && negb (isDisconnecting r));
    try reflexivity.
  unfold Connection.and_then, process, Connection.pure.
  destruct (truthy value).
  - destruct (processData r value) as [r1 out].
    destruct (read_iterations rest r1) as [[res r2] t]. reflexivity.
  - destruct (read_iterations rest r) as [[res r2] t]. reflexivity.
Qed.

Lemma reading_condition (r : SerialReader) :
  reading r <->
  is_set (port r) && keepReading r && negb (isDisconnecting r) = true.
Proof.
  unfold reading. rewrite !andb_true_iff, negb_true_iff. tauto.
Qed.

Lemma reading_processData (r : SerialReader) (c : jsstring) :
  reading r -> reading (fst (processData r c)).
Proof. rewrite processData_state. exact (fun H => H). Qed.

(** A run of chunks is [feed] on the chunks that are not empty. *)
Lemma read_iterations_chunks (values : list jsstring) (tail : list ReadResult) :
  forall r, reading r ->
  read_iterations (map chunk values ++ tail) r =
  match read_iterations tail (fst (feed r (filter truthy values))) with
  | (res, r2, t) =>
      (res, r2, map Data (snd (feed r (filter truthy values))) ++ t)
  end.
Proof.
  induction values as [|v values IH]; intros r Hr.
  - cbn [map app filter feed fst snd].
    destruct (read_iterations tail r) as [[res r2] t]. reflexivity.
  - cbn [map app filter]. rewrite read_iterations_eq.
    rewrite (proj1 (reading_condition r) Hr).
    destruct (truthy v); [|exact (IH r Hr)].
    cbn [feed]. pose proof (reading_processData r v Hr) as Hr1.
    destruct (processData r v) as [r1 out]. cbn [fst] in Hr1.
    rewrite (IH r1 Hr1).
    destruct (feed r1 (filter truthy values)) as [r2 out2]. cbn [fst snd].
    destruct (read_iterations tail r2) as [[res r3] t].
    rewrite map_app, app_assoc. reflexivity.
Qed.

Lemma reading_feed (chunks : list jsstring) :
  forall r, reading r -> reading (fst (feed r chunks)).
Proof.
  induction chunks as [|c cs IH]; intros r Hr; [exact Hr|].
  cbn [feed]. pose proof (reading_processData r c Hr) as Hr1.
  destruct (processData r c) as [r1 out]. specialize (IH r1 Hr1).
  destruct (feed r1 cs) as [r2 out2]. exact IH.
Qed.

Ltac unchanged_state :=
  cbn [fst snd]; rewrite set_buffer_same; repeat split; auto;
  match goal with H : framed _ |- _ => apply H end.

(** Everything but the buffer is left as it was by the loop. *)
Lemma read_iterations_state (reads : list ReadResult) :
  forall r,
  let r' := state_after (read_iterations reads r) in
  r' = set_buffer (buffer r') r /\
  (framed r -> framed r') /\
  (is_set (port r) = false -> buffer r' = buffer r) /\
  setup_steps (trace_of (read_iterations reads r)) = [] /\
  statuses (trace_of (read_iterations reads r)) = [] /\
  teardown_steps (trace_of (read_iterations reads r)) = [] /\
  writes (trace_of (read_iterations reads r)) = [].
Proof.
  assert (D : forall out,
             setup_steps (map Data out) = [] /\ statuses (map Data out) = [] /\
             teardown_steps (map Data out) = [] /\ writes (map Data out) = []).
  { induction out as [|x out (I1 & I2 & I3 & I4)]; [repeat split|].
    cbn [map]. unfold setup_steps, statuses, teardown_steps, writes in *.
    cbn [flat_map app]. now rewrite I1, I2, I3, I4. }
  induction reads as [|x reads IH]; intros r; cbv zeta;
    rewrite read_iterations_eq; unfold state_after, trace_of.
  - destruct (is_set (port r) && keepReading r && negb (isDisconnecting r));
      unchanged_state.
  - destruct (is_set (port r)) eqn:Hp; cbn [andb];
      [|unchanged_state].
    destruct (keepReading r && negb (isDisconnecting r));
      [|unchanged_state].
    destruct x as [value| |name];
      try (unchanged_state).
    destruct (truthy value).
    + pose proof (processData_state r value) as Hst.
      pose proof (processData_framed r value) as Hfr.
      destruct (processData r value) as [r1 out]. cbn [fst] in *.
      specialize (IH r1). cbv zeta in IH. unfold state_after, trace_of in IH.
      destruct (read_iterations reads r1) as [[res r2] t]. cbn [fst snd] in *.
      destruct IH as (I1 & I2 & I3 & I4 & I5 & I6 & I7).
      destruct (D out) as (D1 & D2 & D3 & D4).
      rewrite setup_steps_app, statuses_app, teardown_steps_app.
      unfold writes in *. rewrite flat_map_app.
      rewrite I4, I5, I6, I7, D1, D2, D3, D4.
      split; [rewrite I1 at 1; rewrite Hst; reflexivity|].
      split; [intros _; apply I2, Hfr|].
      split; [discriminate|]. repeat split.
    + specialize (IH r). cbv zeta in IH. unfold state_after, trace_of in IH.
      rewrite Hp in IH. exact IH.
Qed.

Lemma connect_unsupported (env : Browser) (r : SerialReader) :
  supported env = false ->
  connect env r = (Err OtherError, set_isConnected false r, status_event r error).
Proof.
  intros Hs. unfold connect. rewrite Hs. cbn [negb].
  unfold Connection.and_then, throw. rewrite lift_updateStatus.
  rewrite app_nil_r. reflexivity.
Qed.

Lemma connect_noop (env : Browser) (r : SerialReader) :
  supported env = true ->
  isDisconnecting r = true \/ (is_set (port r) = true /\ isConnected r = true) ->
  connect env r = (Ok tt, r, []).
Proof.
  intros Hs H. unfold connect. rewrite Hs. cbn [negb].
  unfold Connection.and_then at 1, Connection.this at 1.
  destruct (isDisconnecting r) eqn:Hd; [reflexivity|].
  destruct H as [H | [Hp Hc]]; [discriminate H|].
  rewrite Hp, Hc. cbn [negb andb].
  unfold Connection.and_then, Connection.pure, Connection.this.
  rewrite Hp, Hc. reflexivity.
Qed.

Lemma readLoop_caught_run (reads : list ReadResult) (r : SerialReader) :
  readLoop_caught reads r =
  match read_iterations reads r with
  | (Ok _, r1, t) => (Ok tt, r1, t)
  | (Err name, r1, t) =>
      if expected name || isDisconnecting r1 then (Ok tt, r1, t)
      else (Ok tt, set_isConnected false r1, t ++ status_event r1 error)
  end.
Proof.
  unfold readLoop_caught, readLoop, catching, Connection.and_then, Connection.this,
    Connection.pure, throw.
  destruct (read_iterations reads r) as [[[e | name] r1] t].
  - rewrite app_nil_r. reflexivity.
  - destruct (expected name) eqn:He, (isDisconnecting r1) eqn:Hd;
      cbn [orb negb andb]; rewrite ?He, ?Hd; cbn [orb negb andb];
      rewrite ?lift_updateStatus, ?app_nil_r; reflexivity.
Qed.

Lemma readLoop_run (reads : list ReadResult) (r : SerialReader) :
  readLoop reads r =
  match read_iterations reads r with
  | (Ok e, r1, t) => (Ok e, r1, t)
  | (Err name, r1, t) =>
      (if expected name || isDisconnecting r1 then Ok finished else Err name,
       r1, t)
  end.
Proof.
  unfold readLoop, catching, Connection.and_then, Connection.this,
    Connection.pure, throw.
  destruct (read_iterations reads r) as [[[e | name] r1] t]; [reflexivity|].
  destruct (expected name || isDisconnecting r1); rewrite app_nil_r;
    reflexivity.
Qed.

Lemma write_run (write_fails : option ErrorName) (data : jsstring)
    (r : SerialReader) :
  write write_fails data r =
  if negb (is_set (writer r)) || isDisconnecting r
  then (Err OtherError, r, [])
  else (match write_fails with Some name => Err name | None => Ok tt end,
        r, [Written (data ++ [13%N; 10%N])]).
Proof.
  unfold write, Connection.and_then at 1, Connection.this at 1.
  destruct (is_set (writer r)); [|reflexivity].
  destruct (isDisconnecting r) eqn:Hd; [reflexivity|]. cbn [negb orb].
  unfold catching, Connection.and_then, Connection.this, throw.
  destruct write_fails as [name|]; [|reflexivity].
  rewrite Hd. reflexivity.
Qed.

Lemma readLoop_caught_state (reads : list ReadResult) (r : SerialReader) :
  consistent r -> consistent (state_after (readLoop_caught reads r)).
Proof.
  intros Hc. rewrite readLoop_caught_run.
  destruct (read_iterations_state reads r) as (Hst & Hfr & Hbuf & _).
  unfold state_after in *.
  destruct (read_iterations reads r) as [[res r1] t]. cbn [fst snd] in *.
  assert (Hc1 : consistent r1).
  { destruct (is_set (port r)) eqn:Hp.
    - rewrite Hst. apply consistent_buffer; [exact Hc | exact Hp|].
      rewrite <- Hst. apply Hfr, Hc.
    - rewrite Hst, (Hbuf eq_refl), set_buffer_same. exact Hc. }
  destruct res as [e | name]; [exact Hc1|].
  destruct (expected name || isDisconnecting r1); [exact Hc1|].
  apply consistent_not_connected, Hc1.
Qed.

Lemma run_call_consistent (r : SerialReader) (c : Call) :
  consistent r -> consistent (run_call r c).
Proof.
  intros Hc. destruct c as [| | env | rj | reads | wf data]; cbn [run_call].
  - exact Hc.
  - exact Hc.
  - destruct (supported env) eqn:Hs;
      [|rewrite (connect_unsupported env r Hs);
        apply consistent_not_connected, Hc].
    destruct (is_set (port r) && isConnected r) eqn:Hlive.
    { apply andb_true_iff in Hlive.
      rewrite (connect_noop env r Hs (or_intror Hlive)). exact Hc. }
    assert (Hcon : connectable r).
    { split; [apply Hc|]. intros Hp. rewrite Hp in Hlive.
      destruct (isConnected r); [discriminate Hlive | reflexivity]. }
    destruct (first_failure (fails env) all_setup) as [[op name]|] eqn:Hf.
    + destruct (connect_failure_run env r op name Hs Hcon Hf)
        as (r1 & t & E & _). rewrite E. apply consistent_torn.
    + rewrite (connect_success_run env r Hs Hcon Hf).
      unfold state_after. cbn [fst snd]. unfold freshened.
      destruct (is_set (port r)); cbn [fst].
      * apply consistent_set_up; [reflexivity | now apply framed_nil].
      * apply consistent_set_up; apply Hc.
  - assert (Hd : isDisconnecting r = false) by apply Hc.
    destruct (is_set (port r)) eqn:Hp.
    + rewrite (lift_disconnect_port rj r Hd Hp). apply consistent_torn.
    + rewrite (lift_disconnect_no_port rj r Hd Hp).
      apply consistent_not_connected, Hc.
  - apply readLoop_caught_state, Hc.
  - rewrite write_run.
    destruct (negb (is_set (writer r)) || isDisconnecting r); exact Hc.
Qed.

Lemma constructor_consistent : consistent constructor.
Proof.
  unfold consistent. cbn. repeat split; try discriminate.
  now apply framed_nil.
Qed.

Lemma calls_consistent (calls : list Call) :
  forall r, consistent r -> consistent (fold_left run_call calls r).
Proof.
  induction calls as [|c calls IH]; intros r Hc; [exact Hc|].
  cbn [fold_left]. apply IH, run_call_consistent, Hc.
Qed.

Lemma reachable_step (r : SerialReader) (c : Call) :
  reachable r -> reachable (run_call r c).
Proof.
  intros [calls ->]. exists (calls ++ [c]). rewrite fold_left_app. reflexivity.
Qed.

Lemma reachable_live : reachable live.
Proof.
  exists [call_onData; call_onStatusChange; call_connect working_browser].
  reflexivity.
Qed.

Lemma reachable_consistent_aux (r : SerialReader) :
  reachable r -> consistent r.
Proof.
  intros [calls ->]. apply calls_consistent, constructor_consistent.
Qed.

Lemma due_without_writable_pipe (r : SerialReader) :
  writableStreamClosed r = None -> ~ In writable_pipe (operations_due r).
Proof.
  unfold operations_due. intros ->. cbn [is_set app].
  destruct (is_set (reader r)), (is_set (writer r)),
    (is_set (readableStreamClosed r)), (is_set (port r)); cbn;
    intuition discriminate.
Qed.

Lemma consistent_due (r : SerialReader) :
  consistent r -> is_set (port r) = true ->
  operations_due r = [cancel_reader; close_writer; readable_pipe; close_port].
Proof.
  intros (_ & Hws & Hr & Hw & Hrs & _) Hp. unfold operations_due.
  rewrite Hr, Hw, Hrs, Hws, Hp. reflexivity.
Qed.

(** X13: [connect] does nothing at all while a disconnection is under way
    or a connection is live, and without the Web Serial API it only
    reports the status [error], marks the object as not connected and
    throws; in none of these cases is the browser asked for a port or
    anything torn down. *)
Theorem connect_guards (env : Browser) (r : SerialReader) :
  supported env = false \/ isDisconnecting r = true \/
  (is_set (port r) = true /\ isConnected r = true) ->
  let run := connect env r in
  setup_steps (trace_of run) = [] /\
  teardown_steps (trace_of run) = [] /\
  state_after run = (if supported env then r else set_isConnected false r) /\
  result_of run = (if supported env then Ok tt else Err OtherError) /\
  statuses (trace_of run) =
    (if supported env then []
     else if onStatusChangeCallback r then [error] else []).
Proof.
  intros H. cbv zeta. destruct (supported env) eqn:Hs.
  - destruct H as [H | H]; [discriminate H|].
    rewrite (connect_noop env r Hs H). repeat split.
  - rewrite (connect_unsupported env r Hs).
    unfold trace_of, state_after, result_of. cbn [fst snd].
    destruct (status_event_trace r error) as (-> & -> & -> & _).
    repeat split.
Qed.

Lemma connect_guards_witness :
  let run := connect no_serial live in
  result_of run = Err OtherError /\
  getConnectionStatus (state_after run) = false /\
  port (state_after run) = Some 0%nat /\
  statuses (trace_of run) = [error].
Proof.
  destruct (connect_guards no_serial live (or_introl eq_refl))
    as (_ & _ & Hst & Hres & Hs).
  cbv zeta. rewrite Hst, Hres, Hs.
  split; [reflexivity|]. split; [reflexivity|].
  split; vm_compute; reflexivity.
Defined.

(** X14: when a setup step of [connect] throws, [connect] rethrows the
    same error after a full teardown: the object is left with no handle,
    an empty buffer and [isConnected] false, the browser was called for
    the steps up to the failing one and no further, a listener heard
    [connecting] and then [error], and the teardown closed exactly what
    the steps before the failure had acquired (after the teardown of a
    stale port, if the object held one). *)
Theorem connect_failure_releases (env : Browser) (r : SerialReader)
    (op : Setup) (name : ErrorName) :
  supported env = true -> consistent r ->
  (is_set (port r) = true -> isConnected r = false) ->
  first_failure (fails env) all_setup = Some (op, name) ->
  let run := connect env r in
  result_of run = Err name /\
  torn_down (state_after run) /\
  isConnected (state_after run) = false /\
  setup_steps (trace_of run) = through op all_setup /\
  statuses (trace_of run) =
    (if onStatusChangeCallback r then [connecting; error] else []) /\
  teardown_steps (trace_of run) =
    (if is_set (port r) then operations_due r else []) ++ undone op.
Proof.
  intros Hs Hc Hstale Hf. cbv zeta.
  assert (Hcon : connectable r) by (split; [apply Hc | exact Hstale]).
  destruct (connect_failure_run env r op name Hs Hcon Hf)
    as (r1 & t & E & _ & _ & H1 & H2 & _ & H3).
  rewrite E. unfold result_of, state_after, trace_of. cbn [fst snd].
  split; [reflexivity|]. split; [repeat split|]. split; [reflexivity|].
  split; [exact H1|]. split; [exact H2|].
  apply H3. apply consistent_idle, Hc.
Qed.

Lemma connect_failure_releases_witness :
  let run := connect busy_port listening in
  result_of run = Err NetworkError /\
  torn_down (state_after run) /\
  isConnected (state_after run) = false /\
  setup_steps (trace_of run) = [request_port; open_port] /\
  statuses (trace_of run) = [connecting; error] /\
  teardown_steps (trace_of run) = [close_port].
Proof.
  assert (Hc : consistent listening).
  { apply (run_call_consistent _ call_onStatusChange).
    apply (run_call_consistent _ call_onData). exact constructor_consistent. }
  exact (connect_failure_releases busy_port listening open_port NetworkError
           eq_refl Hc (fun H => eq_refl) eq_refl).
Defined.

Lemma connect_success_facts (env : Browser) (r : SerialReader) :
  supported env = true -> connectable r ->
  first_failure (fails env) all_setup = None ->
  let run := connect env r in
  let r' := state_after run in
  result_of run = Ok tt /\
  port r' = Some (new_port env) /\
  readableStreamClosed r' = Some (new_pipe env) /\
  reader r' = Some (new_reader env) /\
  writer r' = Some (new_writer env) /\
  isConnected r' = true /\ keepReading r' = true /\
  isDisconnecting r' = false /\
  buffer r' = (if is_set (port r) then [] else buffer r) /\
  setup_steps (trace_of run) = all_setup /\
  statuses (trace_of run) =
    (if onStatusChangeCallback r then [connecting; connected] else []) /\
  teardown_steps (trace_of run) =
    (if is_set (port r) then operations_due r else []).
Proof.
  intros Hs Hcon Hf. cbv zeta.
  rewrite (connect_success_run env r Hs Hcon Hf).
  unfold result_of, state_after, trace_of. cbn [fst snd].
  destruct (freshened_state env r) as (_ & _ & Hb & _).
  destruct (freshened_trace env r) as (T1 & T2 & _ & T4).
  destruct (status_event_trace r connecting) as (V1 & V2 & V3 & _).
  destruct (status_event_trace r connected) as (W1 & W2 & W3 & _).
  rewrite !setup_steps_app, !statuses_app, !teardown_steps_app.
  rewrite T1, T2, T4, V1, V2, V3, W1, W2, W3.
  repeat (split; [reflexivity|]).
  split; [exact Hb|].
  split; [reflexivity|].
  split; [destruct (onStatusChangeCallback r); reflexivity|].
  rewrite app_nil_r. reflexivity.
Qed.

(** X15: when no setup step throws, a [connect] that goes ahead returns
    with the four handles set to what the browser handed out, the object
    connected and reading; the browser was called for the five steps in
    order and a listener heard [connecting] and then [connected].  A
    stale port (set, but not connected) is torn down first, which also
    empties the buffer; otherwise the buffer is kept as it was. *)
Theorem connect_success_state (env : Browser) (r : SerialReader) :
  supported env = true -> connectable r ->
  first_failure (fails env) all_setup = None ->
  let run := connect env r in
  let r' := state_after run in
  result_of run = Ok tt /\
  port r' = Some (new_port env) /\
  readableStreamClosed r' = Some (new_pipe env) /\
  reader r' = Some (new_reader env) /\
  writer r' = Some (new_writer env) /\
  isConnected r' = true /\ keepReading r' = true /\
  isDisconnecting r' = false /\
  buffer r' = (if is_set (port r) then [] else buffer r) /\
  setup_steps (trace_of run) = all_setup /\
  statuses (trace_of run) =
    (if onStatusChangeCallback r then [connecting; connected] else []) /\
  teardown_steps (trace_of run) =
    (if is_set (port r) then operations_due r else []).
Proof. exact (connect_success_facts env r). Qed.

Lemma connect_success_state_witness :
  let run := connect working_browser listening in
  result_of run = Ok tt /\
  getConnectionStatus (state_after run) = true /\
  setup_steps (trace_of run) = all_setup /\
  statuses (trace_of run) = [connecting; connected] /\
  teardown_steps (trace_of run) = [].
Proof.
  assert (Hcon : connectable listening) by (split; [reflexivity | discriminate]).
  destruct (connect_success_state working_browser listening eq_refl Hcon eq_refl)
    as (H1 & _ & _ & _ & _ & H2 & _ & _ & _ & H3 & H4 & H5).
  cbv zeta. repeat split; assumption.
Defined.

Lemma torn_down_set_up (env : Browser) (r : SerialReader) :
  consistent r -> is_set (port r) = false ->
  set_isConnected false (clear_references (set_keepReading false (set_up env r)))
  = r.
Proof.
  intros Hc Hp.
  destruct (consistent_idle r Hc Hp) as (I1 & I2 & I3 & I4 & I5).
  destruct Hc as (C1 & _ & _ & _ & _ & C6 & C7 & C8 & _).
  specialize (C8 Hp). clear Hp.
  destruct r as [p rd w ic dcb scb rs ws b kr dg].
  cbn [port reader writer readableStreamClosed writableStreamClosed buffer
       isConnected keepReading isDisconnecting] in *.
  subst. destruct ic; [discriminate (C6 eq_refl)|].
  destruct kr; [discriminate (C7 eq_refl)|]. reflexivity.
Qed.

Lemma set_up_due (env : Browser) (r : SerialReader) :
  writableStreamClosed r = None ->
  operations_due (set_up env r) =
  [cancel_reader; close_writer; readable_pipe; close_port].
Proof.
  intros Hw. unfold operations_due, set_up.
  cbn [reader writer readableStreamClosed writableStreamClosed port
       set_isConnected set_isDisconnecting set_keepReading set_writer
       set_reader set_readableStreamClosed set_port is_set].
  rewrite Hw. reflexivity.
Qed.

Lemma disconnect_set_up (env : Browser) (rejects' : Operation -> bool)
    (r : SerialReader) :
  lift (disconnect rejects') (set_up env r) =
  (Ok tt,
   set_isConnected false (clear_references (set_keepReading false (set_up env r))),
   map Serial_event (snd (_cleanupConnection rejects' (set_up env r)))
   ++ status_event r disconnected).
Proof. exact (lift_disconnect_port rejects' (set_up env r) eq_refl eq_refl). Qed.

(** X16: on an object that holds no port, a successful [connect] followed
    by [disconnect] gives back the very object it started from, whatever
    the teardown operations do; the teardown cancels the reader, closes
    the writer, awaits the readable pipe and closes the port, in this
    order, and a listener hears [disconnected] once. *)
Theorem connect_disconnect_round_trip (env : Browser)
    (rejects' : Operation -> bool) (r : SerialReader) :
  supported env = true -> consistent r -> is_set (port r) = false ->
  first_failure (fails env) all_setup = None ->
  let run := lift (disconnect rejects') (state_after (connect env r)) in
  result_of run = Ok tt /\
  state_after run = r /\
  teardown_steps (trace_of run) =
    [cancel_reader; close_writer; readable_pipe; close_port] /\
  statuses (trace_of run) =
    (if onStatusChangeCallback r then [disconnected] else []).
Proof.
  intros Hs Hc Hp Hf. cbv zeta.
  assert (Hcon : connectable r).
  { split; [apply Hc|]. rewrite Hp. discriminate. }
  assert (E : state_after (connect env r) = set_up env r).
  { rewrite (connect_success_run env r Hs Hcon Hf).
    unfold freshened. rewrite Hp. reflexivity. }
  rewrite E, disconnect_set_up.
  unfold result_of, state_after, trace_of. cbn [fst snd].
  destruct (cleanup_trace rejects' (set_up env r)) as (_ & U2 & U3 & _).
  destruct (status_event_trace r disconnected) as (_ & V2 & V3 & _).
  rewrite teardown_steps_app, statuses_app, U2, U3, V2, V3.
  split; [reflexivity|].
  split; [exact (torn_down_set_up env r Hc Hp)|].
  split; [|reflexivity].
  rewrite app_nil_r. apply set_up_due, Hc.
Qed.

Lemma connect_disconnect_round_trip_witness :
  let run := lift (disconnect (fun _ => true))
               (state_after (connect working_browser listening)) in
  result_of run = Ok tt /\
  state_after run = listening /\
  teardown_steps (trace_of run) =
    [cancel_reader; close_writer; readable_pipe; close_port] /\
  statuses (trace_of run) = [disconnected].
Proof.
  assert (Hc : consistent listening).
  { apply (run_call_consistent _ call_onStatusChange).
    apply (run_call_consistent _ call_onData). exact constructor_consistent. }
  exact (connect_disconnect_round_trip working_browser (fun _ => true)
           listening eq_refl Hc eq_refl eq_refl).
Defined.

(** X17: after any sequence of [onData], [onStatusChange], [connect],
    [disconnect], [write] calls and read-loop runs on a new object, each
    run to completion before the next, the object is never left
    disconnecting, the reader, the writer and the readable pipe are set
    exactly when the port is, [isConnected] and [keepReading] are true
    only with a port, the buffer is empty without a port and always free
    of separators and within the cap. *)
Theorem calls_keep_the_object_consistent (r : SerialReader) :
  reachable r ->
  consistent r /\
  (getConnectionStatus r = true ->
   is_set (port r) = true /\ is_set (reader r) = true /\
   is_set (writer r) = true).
Proof.
  intros Hr. pose proof (reachable_consistent_aux r Hr) as Hc.
  split; [exact Hc|]. unfold getConnectionStatus. intros Hcon.
  destruct Hc as (_ & _ & H3 & H4 & _ & H6 & _).
  rewrite H3, H4. auto.
Qed.

Lemma calls_keep_the_object_consistent_witness :
  reachable live /\ consistent live /\ is_set (writer live) = true.
Proof.
  pose proof reachable_live as Hr.
  destruct (calls_keep_the_object_consistent live Hr) as (Hc & H).
  split; [exact Hr|]. split; [exact Hc|]. apply H.
  vm_compute. reflexivity.
Defined.

(** X18: the pipe of the writable side is never awaited: in no state
    that the calls can reach does any call start step 5 of the
    teardown, because nothing ever sets [writableStreamClosed]. *)
Theorem writable_pipe_is_never_awaited (r : SerialReader) (c : Call) :
  reachable r -> ~ In writable_pipe (teardown_steps (call_trace r c)).
Proof.
  intros Hr. pose proof (reachable_consistent_aux r Hr) as Hc.
  assert (Hw : writableStreamClosed r = None) by apply Hc.
  assert (Hd : isDisconnecting r = false) by apply Hc.
  destruct c as [| | env | rj | reads | wf data]; cbn [call_trace];
    try (intros []).
  - destruct (supported env) eqn:Hs;
      [|rewrite (connect_unsupported env r Hs); unfold trace_of; cbn [snd];
        destruct (status_event_trace r error) as (_ & _ & -> & _);
        intros []].
    destruct (is_set (port r) && isConnected r) eqn:Hlive.
    { apply andb_true_iff in Hlive.
      rewrite (connect_noop env r Hs (or_intror Hlive)). intros []. }
    assert (Hcon : connectable r).
    { split; [exact Hd|]. intros Hp. rewrite Hp in Hlive.
      destruct (isConnected r); [discriminate Hlive | reflexivity]. }
    assert (Hstale : ~ In writable_pipe
                       (if is_set (port r) then operations_due r else [])).
    { destruct (is_set (port r)); [|intros []].
      now apply due_without_writable_pipe. }
    destruct (first_failure (fails env) all_setup) as [[op name]|] eqn:Hf.
    + destruct (connect_failure_run env r op name Hs Hcon Hf)
        as (r1 & t & E & _ & _ & _ & _ & _ & H3).
      rewrite E. unfold trace_of. cbn [snd].
      rewrite (H3 (consistent_idle r Hc)). intros Hin.
      apply in_app_or in Hin as [Hin | Hin]; [exact (Hstale Hin)|].
      destruct op; cbn in Hin; intuition discriminate.
    + rewrite (connect_success_run env r Hs Hcon Hf).
      unfold trace_of. cbn [snd].
      destruct (freshened_trace env r) as (_ & _ & _ & T4).
      destruct (status_event_trace r connecting) as (_ & _ & V3 & _).
      destruct (status_event_trace r connected) as (_ & _ & W3 & _).
      rewrite !teardown_steps_app, T4, V3, W3, app_nil_r. cbn [app].
      exact Hstale.
  - destruct (is_set (port r)) eqn:Hp.
    + rewrite (lift_disconnect_port rj r Hd Hp). unfold trace_of. cbn [snd].
      destruct (cleanup_trace rj r) as (_ & _ & U3 & _).
      destruct (status_event_trace r disconnected) as (_ & _ & V3 & _).
      rewrite teardown_steps_app, U3, V3, app_nil_r.
      now apply due_without_writable_pipe.
    + rewrite (lift_disconnect_no_port rj r Hd Hp). unfold trace_of. cbn [snd].
      destruct (status_event_trace r disconnected) as (_ & _ & -> & _).
      intros [].
  - rewrite readLoop_caught_run.
    destruct (read_iterations_state reads r) as (_ & _ & _ & _ & _ & T & _).
    unfold trace_of in *.
    destruct (read_iterations reads r) as [[[e | name] r1] t]; cbn [snd] in *.
    + rewrite T. intros [].
    + destruct (expected name || isDisconnecting r1); cbn [snd].
      * rewrite T. intros [].
      * destruct (status_event_trace r1 error) as (_ & _ & V3 & _).
        rewrite teardown_steps_app, T, V3. intros [].
  - rewrite write_run.
    destruct (negb (is_set (writer r)) || isDisconnecting r); intros [].
Qed.

Lemma writable_pipe_is_never_awaited_witness :
  reachable live /\
  ~ In writable_pipe
      (teardown_steps (call_trace live (call_disconnect (fun _ => false)))).
Proof.
  pose proof reachable_live as Hr.
  split; [exact Hr|].
  exact (writable_pipe_is_never_awaited live
           (call_disconnect (fun _ => false)) Hr).
Defined.

Lemma read_iterations_end (r : SerialReader) (tail : list ReadResult) :
  reading r ->
  read_iterations tail r =
  match tail with
  | [] => (Ok waiting, r, [])
  | done :: _ => (Ok finished, r, [])
  | chunk value :: rest => read_iterations tail r
  | failure name :: _ => (Err name, r, [])
  end.
Proof.
  intros Hr. destruct tail as [|[value| |name] rest]; try reflexivity;
    rewrite read_iterations_eq, (proj1 (reading_condition r) Hr); reflexivity.
Qed.

Lemma read_iterations_until (r : SerialReader) (values : list jsstring)
    (tail : list ReadResult) :
  reading r ->
  (forall value rest, tail <> chunk value :: rest) ->
  read_iterations (map chunk values ++ tail) r =
  (match tail with
   | [] => Ok waiting
   | failure name :: _ => Err name
   | _ => Ok finished
   end,
   fst (feed r (filter truthy values)),
   map Data (snd (feed r (filter truthy values)))).
Proof.
  intros Hr Htail. rewrite (read_iterations_chunks values tail r Hr).
  rewrite (read_iterations_end _ tail (reading_feed _ r Hr)).
  destruct tail as [|[value| |name] rest]; rewrite ?app_nil_r;
    try reflexivity.
  exfalso. exact (Htail value rest eq_refl).
Qed.

(** X19: while the object holds a port, keeps reading and is not
    disconnecting, the read loop hands the chunks it reads to
    [processData] one by one, skipping empty ones, so that its readings
    and its buffer are those of [feed]; it stops at the first read that
    reports the end of the stream or rejects, ignores what would follow,
    swallows a [NetworkError] or [AbortError] and rethrows any other
    error. *)
Theorem readLoop_feeds (r : SerialReader) (values : list jsstring)
    (rest : list ReadResult) (name : ErrorName) :
  reading r ->
  let r' := fst (feed r (filter truthy values)) in
  let out := map Data (snd (feed r (filter truthy values))) in
  readLoop (map chunk values) r = (Ok waiting, r', out) /\
  readLoop (map chunk values ++ done :: rest) r = (Ok finished, r', out) /\
  readLoop (map chunk values ++ failure name :: rest) r =
    (if expected name then Ok finished else Err name, r', out).
Proof.
  intros Hr. cbv zeta.
  assert (Hd : isDisconnecting (fst (feed r (filter truthy values))) = false)
    by apply (reading_feed _ r Hr).
  rewrite !readLoop_run.
  rewrite <- (app_nil_r (map chunk values)) at 1.
  rewrite !(read_iterations_until r values) by (exact Hr || discriminate).
  rewrite Hd, orb_false_r. repeat split.
Qed.

Lemma readLoop_feeds_witness :
  readLoop [chunk (js "a"); chunk []; chunk (separator ++ js "b"); done;
            chunk separator] live =
  (Ok finished, set_buffer (js "b") live, [Data (js "a")]).
Proof.
  assert (Hr : reading live) by (vm_compute; repeat split).
  destruct (readLoop_feeds live [js "a"; []; separator ++ js "b"]
              [chunk separator] OtherError Hr) as (_ & H & _).
  cbn [map app] in H. rewrite H. vm_compute. reflexivity.
Defined.

(** X20: the read loop that [connect] starts, with its [catch] handler,
    never rejects and touches nothing but the buffer and [isConnected]:
    whatever the reads do, the port, the reader, the writer and the pipe
    stay as they were, nothing is torn down and the browser is not
    called. *)
Theorem read_loop_never_rejects (reads : list ReadResult) (r : SerialReader) :
  let run := readLoop_caught reads r in
  let r' := state_after run in
  result_of run = Ok tt /\
  port r' = port r /\ reader r' = reader r /\ writer r' = writer r /\
  readableStreamClosed r' = readableStreamClosed r /\
  keepReading r' = keepReading r /\
  teardown_steps (trace_of run) = [] /\
  setup_steps (trace_of run) = [] /\
  writes (trace_of run) = [].
Proof.
  cbv zeta. rewrite readLoop_caught_run.
  destruct (read_iterations_state reads r) as (Hst & _ & _ & T1 & _ & T3 & T4).
  unfold state_after, trace_of, result_of in *.
  destruct (read_iterations reads r) as [[[e | name] r1] t]; cbn [fst snd] in *.
  - rewrite Hst, T1, T3, T4. repeat split.
  - destruct (status_event_trace r1 error) as (V1 & _ & V3 & _).
    assert (V4 : writes (status_event r1 error) = []).
    { unfold status_event. destruct (onStatusChangeCallback r1); reflexivity. }
    destruct (expected name || isDisconnecting r1); cbn [fst snd].
    + rewrite Hst, T1, T3, T4. repeat split.
    + rewrite setup_steps_app, teardown_steps_app. unfold writes in *.
      rewrite flat_map_app, V1, V3, V4, T1, T3, T4, Hst. repeat split.
Qed.

(** X21: when a read rejects with an error that is neither a
    [NetworkError] nor an [AbortError], the read loop of [connect]
    reports the status [error] and marks the object as not connected but
    keeps the port;
    the next [connect] then tears the stale handles down (reader,
    writer, readable pipe, port, in this order) and empties the buffer
    before it asks the browser for a new port. *)
Theorem read_error_then_reconnect (env : Browser) (r : SerialReader)
    (values : list jsstring) (rest : list ReadResult) :
  consistent r -> reading r ->
  supported env = true -> first_failure (fails env) all_setup = None ->
  let reads := map chunk values ++ failure OtherError :: rest in
  let broken := state_after (readLoop_caught reads r) in
  let run := connect env broken in
  statuses (trace_of (readLoop_caught reads r)) =
    (if onStatusChangeCallback r then [error] else []) /\
  getConnectionStatus broken = false /\
  is_set (port broken) = true /\
  result_of run = Ok tt /\
  teardown_steps (trace_of run) =
    [cancel_reader; close_writer; readable_pipe; close_port] /\
  buffer (state_after run) = [] /\
  getConnectionStatus (state_after run) = true.
Proof.
  intros Hc Hr Hs Hf. cbv zeta.
  pose proof (readLoop_caught_state (map chunk values ++ failure OtherError :: rest)
                r Hc) as Hcb.
  assert (Hd : isDisconnecting (fst (feed r (filter truthy values))) = false)
    by apply (reading_feed _ r Hr).
  assert (Hp : is_set (port (fst (feed r (filter truthy values)))) = true)
    by apply (reading_feed _ r Hr).
  assert (Hl : onStatusChangeCallback (fst (feed r (filter truthy values)))
               = onStatusChangeCallback r).
  { destruct (read_iterations_state (map chunk values) r) as (Hst & _).
    rewrite <- (app_nil_r (map chunk values)) in Hst.
    rewrite (read_iterations_until r values []) in Hst
      by (exact Hr || discriminate).
    unfold state_after in Hst. cbn [fst snd] in Hst. rewrite Hst.
    reflexivity. }
  set (r1 := fst (feed r (filter truthy values))) in *.
  assert (Erun : readLoop_caught (map chunk values ++ failure OtherError :: rest) r
                 = (Ok tt, set_isConnected false r1,
                    map Data (snd (feed r (filter truthy values)))
                    ++ status_event r1 error)).
  { rewrite readLoop_caught_run.
    rewrite (read_iterations_until r values (failure OtherError :: rest))
      by (exact Hr || discriminate).
    fold r1. rewrite Hd. reflexivity. }
  assert (Eb : state_after
                 (readLoop_caught (map chunk values ++ failure OtherError :: rest) r)
               = set_isConnected false r1) by (rewrite Erun; reflexivity).
  assert (Et : trace_of
                 (readLoop_caught (map chunk values ++ failure OtherError :: rest) r)
               = map Data (snd (feed r (filter truthy values)))
                 ++ status_event r1 error) by (rewrite Erun; reflexivity).
  rewrite Eb in *. rewrite Et. clear Erun Eb Et.
  assert (Hcon : connectable (set_isConnected false r1)).
  { split; [exact Hd | reflexivity]. }
  destruct (connect_success_facts env (set_isConnected false r1) Hs Hcon Hf)
    as (K1 & _ & _ & _ & _ & K2 & _ & _ & K3 & _ & _ & K4).
  cbn [port set_isConnected] in K3, K4. rewrite Hp in K3, K4.
  split.
  { rewrite statuses_app.
    destruct (read_iterations_state (map chunk values) r)
      as (_ & _ & _ & _ & T2 & _).
    rewrite <- (app_nil_r (map chunk values)) in T2.
    rewrite (read_iterations_until r values []) in T2
      by (exact Hr || discriminate).
    unfold trace_of in T2. cbn [snd] in T2. rewrite T2.
    destruct (status_event_trace r1 error) as (_ & -> & _).
    rewrite Hl. reflexivity. }
  split; [reflexivity|]. split; [exact Hp|]. split; [exact K1|].
  split; [|split; [exact K3 | exact K2]].
  rewrite K4. apply consistent_due; [exact Hcb | exact Hp].
Qed.

Lemma read_error_then_reconnect_witness :
  let reads := [chunk (js "a"); failure OtherError] in
  let broken := state_after (readLoop_caught reads live) in
  let run := connect working_browser broken in
  statuses (trace_of (readLoop_caught reads live)) = [error] /\
  getConnectionStatus broken = false /\
  is_set (port broken) = true /\
  result_of run = Ok tt /\
  teardown_steps (trace_of run) =
    [cancel_reader; close_writer; readable_pipe; close_port] /\
  buffer (state_after run) = [] /\
  getConnectionStatus (state_after run) = true.
Proof.
  assert (Hc : consistent live).
  { apply reachable_consistent_aux. exact reachable_live. }
  assert (Hr : reading live) by (vm_compute; repeat split).
  exact (read_error_then_reconnect working_browser live [js "a"] []
           Hc Hr eq_refl eq_refl).
Defined.

(** X22: in every state that the calls can reach, [write] hands the
    data followed by CR LF to the writer exactly when the object holds a
    port, and then fails only if the writer does; without a port (in
    particular after [disconnect]) it throws without writing.  It never
    changes the object. *)
Theorem write_needs_a_port (r : SerialReader)
    (write_fails : option ErrorName) (data : jsstring) :
  reachable r ->
  write write_fails data r =
  if is_set (port r)
  then (match write_fails with Some name => Err name | None => Ok tt end,
        r, [Written (data ++ [13%N; 10%N])])
  else (Err OtherError, r, []).
Proof.
  intros Hr. pose proof (reachable_consistent_aux r Hr) as Hc.
  rewrite write_run.
  destruct Hc as (-> & _ & _ & -> & _).
  destruct (is_set (port r)); reflexivity.
Qed.

Lemma write_needs_a_port_witness :
  reachable live /\
  write None (js "ping") live =
    (Ok tt, live, [Written (js "ping" ++ [13%N; 10%N])]) /\
  reachable (run_call live (call_disconnect (fun _ => false))) /\
  result_of (write None (js "ping")
               (run_call live (call_disconnect (fun _ => false))))
  = Err OtherError.
Proof.
  pose proof reachable_live as Hr.
  pose proof (reachable_step live (call_disconnect (fun _ => false)) Hr)
    as Hr'.
  split; [exact Hr|]. split.
  - rewrite (write_needs_a_port live None (js "ping") Hr).
    vm_compute. reflexivity.
  - split; [exact Hr'|].
    rewrite (write_needs_a_port _ None (js "ping") Hr').
    vm_compute. reflexivity.
Defined.

(** X23: a second [disconnect] finds nothing to release: after a
    [disconnect] on an object that was not disconnecting, another one
    starts no teardown operation and leaves the object as it is, but
    notifies a listener of [disconnected] once more. *)
Theorem disconnect_twice (rejects1 rejects2 : Operation -> bool)
    (r : SerialReader) :
  isDisconnecting r = false ->
  let r1 := state_after (lift (disconnect rejects1) r) in
  let run := lift (disconnect rejects2) r1 in
  result_of run = Ok tt /\
  state_after run = r1 /\
  teardown_steps (trace_of run) = [] /\
  statuses (trace_of run) =
    (if onStatusChangeCallback r then [disconnected] else []).
Proof.
  intros Hd. cbv zeta.
  assert (E : exists x,
             state_after (lift (disconnect rejects1) r) = set_isConnected false x
             /\ isDisconnecting x = false /\ is_set (port x) = false
             /\ onStatusChangeCallback x = onStatusChangeCallback r).
  { destruct (is_set (port r)) eqn:Hp.
    - rewrite (lift_disconnect_port rejects1 r Hd Hp).
      eexists. split; [reflexivity|]. repeat split.
    - rewrite (lift_disconnect_no_port rejects1 r Hd Hp).
      exists r. repeat split; assumption. }
  destruct E as (x & -> & Hdx & Hpx & Hcb).
  rewrite (lift_disconnect_no_port rejects2 (set_isConnected false x) Hdx Hpx).
  unfold result_of, state_after, trace_of. cbn [fst snd].
  destruct (status_event_trace (set_isConnected false x) disconnected)
    as (_ & -> & -> & _).
  cbn [onStatusChangeCallback set_isConnected]. rewrite Hcb. repeat split.
Qed.

Lemma disconnect_twice_witness :
  let r1 := state_after (lift (disconnect (fun _ => true)) live) in
  let run := lift (disconnect (fun _ => true)) r1 in
  result_of run = Ok tt /\
  state_after run = r1 /\
  teardown_steps (trace_of run) = [] /\
  statuses (trace_of run) = [disconnected].
Proof.
  assert (Hd : isDisconnecting live = false) by (vm_compute; reflexivity).
  exact (disconnect_twice (fun _ => true) (fun _ => true) live Hd).
Defined.

(** *** The teardown of a connection *)

(** C9, refuted as stated: on the object that a successful [connect]
    leaves, a [disconnect] attempts four operations, not five: the pipe
    of the writable side is not awaited, since no method ever sets
    [writableStreamClosed]. *)
Lemma teardown_skips_the_writable_pipe :
  ~ five_steps_then_idle (disconnect (fun _ => true)) live.
Proof.
  unfold five_steps_then_idle.
  assert (E : attempts (snd (disconnect (fun _ => true) live)) =
              [cancel_reader; close_writer; readable_pipe; close_port])
    by (vm_compute; reflexivity).
  destruct (disconnect (fun _ => true) live) as [[outcome r'] events].
  cbn [snd] in E. intros [H _]. rewrite E in H. discriminate H.
Qed.

(** C9, amended: whatever operations reject, a run of
    [_cleanupConnection] returns normally, attempts every operation
    whose handle is set, in the order of the steps (reader, writer,
    readable pipe, writable pipe, port), and leaves the port, the reader
    and the writer cleared, the buffer empty and the disconnecting flag
    false; by itself it reports no status and leaves [isConnected] as it
    was.  A [disconnect] on an object that holds a port and is not
    already disconnecting does the same, leaves [isConnected] false and
    reports the status [disconnected] once to a registered listener.  In
    every state that the calls can reach with a port, the operations
    attempted are four: cancel the reader, close the writer, await the
    readable pipe, close the port; the writable pipe is never set. *)
Theorem teardown_releases_what_is_held (rejects' : Operation -> bool)
    (r : SerialReader) :
  (let '(outcome, r', events) := _cleanupConnection rejects' r in
   outcome = Returned tt /\
   attempts events = operations_due r /\
   torn_down r' /\
   isConnected r' = isConnected r /\
   status_changes events = []) /\
  (isDisconnecting r = false -> is_set (port r) = true ->
   let '(outcome, r', events) := disconnect rejects' r in
   outcome = Returned tt /\
   attempts events = operations_due r /\
   torn_down r' /\
   isConnected r' = false /\
   status_changes events =
     (if onStatusChangeCallback r then [disconnected] else [])) /\
  (reachable r -> is_set (port r) = true ->
   isDisconnecting r = false /\
   operations_due r =
     [cancel_reader; close_writer; readable_pipe; close_port]).
Proof.
  split; [|split].
  - pose proof (cleanup_attempts rejects' r) as Ha.
    pose proof (cleanup_status_changes rejects' r) as Hs.
    rewrite cleanup_run in *. cbn [snd] in Ha, Hs.
    split; [reflexivity|]. split; [exact Ha|].
    split; [repeat split|]. split; [reflexivity | exact Hs].
  - intros Hd Hp.
    pose proof (cleanup_attempts rejects' r) as Ha.
    pose proof (cleanup_status_changes rejects' r) as Hs.
    rewrite (disconnect_run rejects' r Hd Hp).
    split; [reflexivity|]. split.
    { rewrite attempts_app, Ha.
      destruct (onStatusChangeCallback r); apply app_nil_r. }
    split; [repeat split|]. split; [reflexivity|].
    rewrite status_changes_app, Hs.
    destruct (onStatusChangeCallback r); reflexivity.
  - intros Hr Hp. pose proof (reachable_consistent_aux r Hr) as Hc.
    split; [apply Hc | exact (consistent_due r Hc Hp)].
Qed.

Lemma teardown_releases_what_is_held_witness :
  reachable live /\ is_set (port live) = true /\
  let '(outcome, r', events) := disconnect (fun _ => true) live in
  outcome = Returned tt /\
  attempts events =
    [cancel_reader; close_writer; readable_pipe; close_port] /\
  torn_down r' /\ isConnected r' = false /\
  status_changes events = [disconnected].
Proof.
  assert (Hp : is_set (port live) = true) by (vm_compute; reflexivity).
  assert (Hl : onStatusChangeCallback live = true)
    by (vm_compute; reflexivity).
  split; [exact reachable_live|]. split; [exact Hp|].
  destruct (teardown_releases_what_is_held (fun _ => true) live)
    as (_ & H2 & H3).
  destruct (H3 reachable_live Hp) as [Hd Hdue].
  specialize (H2 Hd Hp). rewrite Hdue, Hl in H2. exact H2.
Defined.

End ConnectionProofs.

(** ** More on the parser *)

Module ParserFacts.
Import JsNumber Regex Parser NumberFacts RegexFacts ParserProofs.
Import Summary App ParserViews.

(** *** Every cell is reconciled, and classified by its own voltage *)

Lemma section_classified (lines : list jsstring) (ic : IndividualCell.t) :
  In ic (flat_map individualCell_of_line lines) ->
  IndividualCell.status ic = getCellStatus (IndividualCell.individualVoltage ic).
Proof.
  intros H. apply in_flat_map in H as (line & _ & H).
  unfold individualCell_of_line in H.
  destruct (exec patterns.individualCell line); [|contradiction].
  destruct H as [<- | []]. reflexivity.
Qed.

Lemma calculate_from_reconciled (l : list Cell.t) (prev : option Number) :
  Forall reconciled (calculate_from prev l).
Proof.
  revert prev; induction l as [|c l IH]; intros prev; cbn [calculate_from];
    constructor; [|apply IH].
  eexists. split; reflexivity.
Qed.

Lemma danger_at_zero : getCellStatus zero = danger.
Proof. vm_compute. reflexivity. Qed.

Lemma cells_reconciled_aux (text : jsstring) (c : Cell.t) :
  In c (Reading.cells (parse text)) -> reconciled c.
Proof.
  rewrite parse_cells.
  destruct (Reading.individualCells (parse text)) as [|ic0 rest] eqn:E.
  - intros H. pose proof (calculate_from_reconciled
                            (sort (cells_so_far (scan (lines_of text)))) None) as F.
    rewrite Forall_forall in F. exact (F c H).
  - intros H. apply in_map_iff in H as (c0 & <- & _). unfold merge.
    destruct (find _ (ic0 :: rest)) as [ic|] eqn:F.
    + apply find_some in F as [Hin _]. rewrite <- E in Hin.
      exists (IndividualCell.individualVoltage ic). split; [reflexivity|].
      cbn [Cell.status Cell.assign]. f_equal.
      exact (section_classified _ _ Hin).
    + exists zero. split; [reflexivity|]. cbn [Cell.status Cell.assign].
      now rewrite danger_at_zero.
Qed.

(** X1: after [parse], every cell has an individual voltage and a status,
    and the status is [getCellStatus] of that voltage, whichever of the
    two reconciliations produced them. *)
Theorem cells_reconciled (text : jsstring) (c : Cell.t) :
  In c (Reading.cells (parse text)) ->
  exists v, Cell.individualVoltage c = Some v /\
            Cell.status c = Some (getCellStatus v).
Proof. exact (cells_reconciled_aux text c). Qed.

Lemma cells_reconciled_witness :
  exists c, In c (Reading.cells (parse no_section_record)) /\
    exists v, Cell.individualVoltage c = Some v /\
              Cell.status c = Some (getCellStatus v).
Proof.
  assert (Hc : exists c, In c (Reading.cells (parse no_section_record))).
  { vm_compute. eexists. left. reflexivity. }
  destruct Hc as (c & Hin). exists c. split; [exact Hin|].
  exact (cells_reconciled no_section_record c Hin).
Defined.

(** *** The cells and the pins *)

Lemma scan_sources (lines : list jsstring) :
  map cell_source (cells_so_far (scan lines)) =
  pin_sources (push_module (scan lines)).
Proof.
  apply scan_ind; [reflexivity|]. intros st line IH.
  unfold module_step, pin_sources, push_module in *.
  destruct (exec patterns.moduleHeader line) as [mm|].
  - cbn [currentModule modules_so_far cells_so_far].
    rewrite flat_map_app. cbn [flat_map BatteryModule.pins map app].
    rewrite app_nil_r. exact IH.
  - destruct (exec patterns.pinData line) as [pm|]; [|exact IH].
    destruct (currentModule st) as [cm|] eqn:Ecm; [|rewrite Ecm; exact IH].
    cbn [currentModule modules_so_far cells_so_far].
    rewrite flat_map_app in *.
    cbn [flat_map BatteryModule.pins BatteryModule.id map app] in *.
    rewrite !app_nil_r in *. rewrite !map_app, IH, <- app_assoc. reflexivity.
Qed.

Lemma calculate_from_sources (prev : option Number) (l : list Cell.t) :
  map cell_source (calculate_from prev l) = map cell_source l.
Proof.
  revert prev; induction l as [|c l IH]; intros prev; [reflexivity|].
  cbn [calculate_from map]. now rewrite IH.
Qed.

Lemma merge_source (ics : list IndividualCell.t) (c : Cell.t) :
  cell_source (merge ics c) = cell_source c.
Proof. unfold merge. destruct (find _ ics); reflexivity. Qed.

(** X2: the cells of a Reading are the pins of its modules, one for one:
    each cell carries the label, number, cumulative voltage and raw value
    of one pin and the identifier of the module of that pin, and the
    reconciliation changes none of these. *)
Theorem cells_are_the_pins (text : jsstring) :
  Permutation (map cell_source (Reading.cells (parse text)))
              (pin_sources (Reading.modules (parse text))).
Proof.
  assert (E : map cell_source (Reading.cells (parse text)) =
              map cell_source (sort (cells_so_far (scan (lines_of text))))).
  { rewrite parse_cells.
    destruct (Reading.individualCells (parse text)).
    - apply calculate_from_sources.
    - rewrite map_map. apply map_ext. intros c. apply merge_source. }
  rewrite E, (Permutation_map cell_source (sort_perm _)), scan_sources.
  reflexivity.
Qed.

(** *** Module headers *)

Lemma fold_module_step_headers (lines : list jsstring) (st : loop_state) :
  map (fun m => (BatteryModule.id m, BatteryModule.address m))
      (push_module (fold_left module_step lines st)) =
  map (fun m => (BatteryModule.id m, BatteryModule.address m)) (push_module st)
  ++ flat_map header_of_line lines.
Proof.
  revert st; induction lines as [|line lines IH]; intros st; cbn [fold_left flat_map].
  - now rewrite app_nil_r.
  - rewrite IH. unfold module_step, header_of_line, push_module.
    destruct (exec patterns.moduleHeader line) as [mm|].
    + cbn [currentModule modules_so_far]. rewrite map_app, <- app_assoc.
      reflexivity.
    + destruct (exec patterns.pinData line) as [pm|]; [|reflexivity].
      destruct (currentModule st) as [cm|] eqn:Ecm; [|now rewrite Ecm].
      cbn [currentModule modules_so_far]. rewrite !map_app. reflexivity.
Qed.

(** X3: the modules of a Reading are the module header lines of the
    record, in order: one module per header line, even when two headers
    repeat an identifier or a header has no pin line, with the identifier
    and the address the line declares. *)
Theorem modules_are_the_headers (text : jsstring) :
  map (fun m => (BatteryModule.id m, BatteryModule.address m))
      (Reading.modules (parse text)) =
  flat_map header_of_line (lines_of text).
Proof.
  unfold parse. cbn [Reading.modules]. unfold scan.
  rewrite fold_module_step_headers. reflexivity.
Qed.

Lemma fold_module_step_no_header (lines : list jsstring) :
  (forall line, In line lines -> exec patterns.moduleHeader line = None) ->
  scan lines = no_module.
Proof.
  unfold scan. induction lines as [|line lines IH]; intros H; [reflexivity|].
  cbn [fold_left]. replace (module_step no_module line) with no_module.
  - apply IH. intros l Hl. apply H. now right.
  - unfold module_step. rewrite (H line (or_introl eq_refl)).
    destruct (exec patterns.pinData line); reflexivity.
Qed.

(** X4: pin lines count only under a module header: a record without any
    module header line gives no cell and no module, whatever pin lines it
    holds. *)
Theorem pins_need_a_module (text : jsstring) :
  (forall line, In line (lines_of text) ->
                exec patterns.moduleHeader line = None) ->
  Reading.cells (parse text) = [] /\ Reading.modules (parse text) = [].
Proof.
  intros H. split.
  - rewrite parse_cells, (fold_module_step_no_header _ H).
    destruct (Reading.individualCells (parse text)); reflexivity.
  - unfold parse. cbn [Reading.modules].
    rewrite (fold_module_step_no_header _ H). reflexivity.
Qed.

Lemma pins_need_a_module_witness :
  (forall line, In line (lines_of orphan_pins) ->
                exec patterns.moduleHeader line = None) /\
  Reading.cells (parse orphan_pins) = [] /\
  Reading.modules (parse orphan_pins) = [].
Proof.
  assert (H : forall line, In line (lines_of orphan_pins) ->
                           exec patterns.moduleHeader line = None).
  { assert (F : forallb (fun line =>
                    match exec patterns.moduleHeader line with
                    | None => true | Some _ => false end)
                  (lines_of orphan_pins) = true) by (vm_compute; reflexivity).
    rewrite forallb_forall in F. intros line Hl. specialize (F line Hl).
    destruct (exec patterns.moduleHeader line); [discriminate F | reflexivity]. }
  split; [exact H|]. exact (pins_need_a_module orphan_pins H).
Defined.

(** *** Lines that no pattern matches *)

Lemma flat_map_relevant (lines : list jsstring) :
  flat_map individualCell_of_line (filter relevant lines) =
  flat_map individualCell_of_line lines.
Proof.
  induction lines as [|line lines IH]; [reflexivity|].
  cbn [filter flat_map]. unfold relevant at 1, individualCell_of_line at 2.
  destruct (exec patterns.individualCell line) as [m|] eqn:E.
  - cbn [flat_map]. unfold individualCell_of_line at 1. rewrite E, IH.
    reflexivity.
  - destruct (exec patterns.moduleHeader line), (exec patterns.pinData line);
      cbn [flat_map app]; unfold individualCell_of_line at 1; rewrite ?E;
      exact IH.
Qed.

Lemma fold_relevant (lines : list jsstring) (st : loop_state) :
  fold_left module_step (filter relevant lines) st =
  fold_left module_step lines st.
Proof.
  revert st; induction lines as [|line lines IH]; intros st; [reflexivity|].
  cbn [filter fold_left]. destruct (relevant line) eqn:R.
  - cbn [fold_left]. apply IH.
  - rewrite IH. f_equal. unfold relevant in R. unfold module_step.
    destruct (exec patterns.individualCell line),
             (exec patterns.moduleHeader line),
             (exec patterns.pinData line); try discriminate R. reflexivity.
Qed.

(** X5: the cells, the individual-cells section and the modules of a
    Reading depend only on the lines that one of the three line patterns
    matches: two records with the same such lines, in the same order,
    give the same three arrays, whatever other lines surround them. *)
Theorem unmatched_lines_are_ignored (text1 text2 : jsstring) :
  filter relevant (lines_of text1) = filter relevant (lines_of text2) ->
  Reading.cells (parse text1) = Reading.cells (parse text2) /\
  Reading.individualCells (parse text1) = Reading.individualCells (parse text2) /\
  Reading.modules (parse text1) = Reading.modules (parse text2).
Proof.
  intros H.
  assert (Es : scan (lines_of text1) = scan (lines_of text2)).
  { unfold scan. rewrite <- (fold_relevant (lines_of text1)),
                         <- (fold_relevant (lines_of text2)), H. reflexivity. }
  assert (Ei : flat_map individualCell_of_line (lines_of text1) =
               flat_map individualCell_of_line (lines_of text2)).
  { rewrite <- (flat_map_relevant (lines_of text1)),
            <- (flat_map_relevant (lines_of text2)), H. reflexivity. }
  unfold parse. cbn [Reading.cells Reading.individualCells Reading.modules].
  rewrite Es, Ei. repeat split.
Qed.

Lemma unmatched_lines_are_ignored_witness :
  filter relevant (lines_of framed_record) =
    filter relevant (lines_of example_record) /\
  Reading.cells (parse framed_record) = Reading.cells (parse example_record) /\
  Reading.individualCells (parse framed_record) =
    Reading.individualCells (parse example_record) /\
  Reading.modules (parse framed_record) = Reading.modules (parse example_record).
Proof.
  assert (H : filter relevant (lines_of framed_record) =
              filter relevant (lines_of example_record))
    by (vm_compute; reflexivity).
  split; [exact H|]. exact (unmatched_lines_are_ignored _ _ H).
Defined.

End ParserFacts.

(** ** The summary and the cells shown *)

Module SummaryFacts.
Import JsNumber Regex Parser NumberFacts RegexFacts ParserProofs.
Import Summary App ParserViews ParserFacts.

(** *** The order of the positive numbers *)

Lemma gt_zero_positive (v : Number) : gt v zero = true -> positive v.
Proof. destruct v as [s|[]| |[] m e]; cbn; try discriminate; auto. Qed.

Lemma positive_total (x y : Number) :
  positive x -> positive y -> lt x y = false -> le y x = true.
Proof.
  unfold lt, le.
  destruct x as [[]|[]| |[] mx ex], y as [[]|[]| |[] my ey];
    cbn [positive]; try contradiction; intros _ _; try (cbn; congruence).
  intros H. apply (false_iff_not (ltb_finite mx my ex ey)) in H.
  apply leb_finite. lia.
Qed.

Lemma positive_le_trans (x y z : Number) :
  positive x -> positive y -> positive z ->
  le x y = true -> le y z = true -> le x z = true.
Proof.
  unfold le.
  destruct x as [[]|[]| |[] mx ex], y as [[]|[]| |[] my ey],
           z as [[]|[]| |[] mz ez];
    cbn [positive]; try contradiction; intros _ _ _; try (cbn; congruence).
  rewrite !leb_finite. lia.
Qed.

Lemma positive_le_refl (x : Number) : positive x -> le x x = true.
Proof.
  unfold le. destruct x as [[]|[]| |[] mx ex]; cbn [positive];
    try contradiction; intros _; [reflexivity|]. apply leb_finite. lia.
Qed.

Lemma infinity_least (x : Number) :
  positive x -> le (S754_infinity false) x = true -> x = S754_infinity false.
Proof.
  destruct x as [[]|[]| |[] mx ex]; cbn [positive]; try contradiction;
    intros _; [reflexivity | discriminate].
Qed.

Lemma positive_not_special (x : Number) :
  positive x ->
  isNaN x = false /\ is_zero true x = false /\ is_zero false x = false.
Proof.
  destruct x as [[]|[]| |[] mx ex]; cbn [positive]; try contradiction;
    repeat split.
Qed.

(** *** [Math.min] and [Math.max] on positive numbers *)

Lemma min_from_spec (l : list Number) (lowest : Number) :
  Forall positive l -> positive lowest ->
  positive (min_from lowest l) /\
  (min_from lowest l = lowest \/ In (min_from lowest l) l) /\
  le (min_from lowest l) lowest = true /\
  Forall (fun v => le (min_from lowest l) v = true) l.
Proof.
  intros Hl; revert lowest; induction Hl as [|x l Hx Hl IH]; intros lowest Hlow.
  - cbn [min_from]. split; [exact Hlow|]. split; [now left|].
    split; [now apply positive_le_refl | constructor].
  - cbn [min_from]. destruct (positive_not_special x Hx) as (-> & -> & _).
    cbn [andb]. destruct (lt x lowest) eqn:T.
    + destruct (IH x Hx) as (P & D & L & F). split; [exact P|].
      split; [destruct D as [E | Hin];
              [right; left; now rewrite E | right; now right]|].
      split; [|constructor; [exact L | exact F]].
      exact (positive_le_trans _ _ _ P Hx Hlow L (natural_lt_le _ _ T)).
    + destruct (IH lowest Hlow) as (P & D & L & F). split; [exact P|].
      split; [destruct D as [E | Hin]; [now left | right; now right]|].
      split; [exact L|]. constructor; [|exact F].
      exact (positive_le_trans _ _ _ P Hlow Hx L (positive_total _ _ Hx Hlow T)).
Qed.

Lemma max_from_spec (l : list Number) (highest : Number) :
  Forall positive l -> positive highest ->
  positive (max_from highest l) /\
  (max_from highest l = highest \/ In (max_from highest l) l) /\
  le highest (max_from highest l) = true /\
  Forall (fun v => le v (max_from highest l) = true) l.
Proof.
  intros Hl; revert highest; induction Hl as [|x l Hx Hl IH]; intros highest Hhigh.
  - cbn [max_from]. split; [exact Hhigh|]. split; [now left|].
    split; [now apply positive_le_refl | constructor].
  - cbn [max_from]. destruct (positive_not_special x Hx) as (-> & _ & ->).
    cbn [andb]. destruct (gt x highest) eqn:T.
    + destruct (IH x Hx) as (P & D & L & F). split; [exact P|].
      split; [destruct D as [E | Hin];
              [right; left; now rewrite E | right; now right]|].
      split; [|constructor; [exact L | exact F]].
      exact (positive_le_trans _ _ _ Hhigh Hx P (natural_lt_le _ _ T) L).
    + destruct (IH highest Hhigh) as (P & D & L & F). split; [exact P|].
      split; [destruct D as [E | Hin]; [now left | right; now right]|].
      split; [exact L|]. constructor; [|exact F].
      exact (positive_le_trans _ _ _ Hx Hhigh P (positive_total _ _ Hhigh Hx T) L).
Qed.

Lemma Math_min_spec (l : list Number) :
  Forall positive l -> l <> [] ->
  In (Math_min l) l /\ Forall (fun v => le (Math_min l) v = true) l.
Proof.
  intros Hl Hne. unfold Math_min.
  destruct (min_from_spec l (S754_infinity false) Hl I) as (P & [E | Hin] & _ & F).
  - split; [|exact F]. destruct l as [|x l]; [congruence|].
    inversion F as [|? ? Fx _]; subst. inversion Hl as [|? ? Hx _]; subst.
    rewrite E in Fx |- *. left. exact (infinity_least x Hx Fx).
  - split; assumption.
Qed.

Lemma Math_max_spec (l : list Number) :
  Forall positive l -> l <> [] ->
  In (Math_max l) l /\ Forall (fun v => le v (Math_max l) = true) l.
Proof.
  intros Hl Hne. unfold Math_max. destruct l as [|x l]; [congruence|].
  inversion Hl as [|? ? Hx Hl']; subst. cbn [max_from].
  destruct (positive_not_special x Hx) as (-> & _ & ->). cbn [andb].
  replace (gt x (S754_infinity true)) with true
    by (destruct x as [[]|[]| |[] mx ex]; cbn [positive] in Hx;
        try contradiction; reflexivity).
  destruct (max_from_spec l x Hl' Hx) as (P & [E | Hin] & L & F).
  - split; [left; now rewrite E | constructor; assumption].
  - split; [now right | constructor; assumption].
Qed.

Lemma positive_voltages_positive (cells : list Cell.t) :
  Forall positive (positive_voltages cells).
Proof.
  unfold positive_voltages. apply Forall_forall. intros v H.
  apply in_flat_map in H as (c & _ & H).
  destruct (Cell.individualVoltage c) as [w|]; [|contradiction].
  destruct (gt w zero) eqn:G; [|contradiction].
  destruct H as [<- | []]. exact (gt_zero_positive _ G).
Qed.

Lemma positive_voltages_nil (cells : list Cell.t) :
  cells = [] -> positive_voltages cells = [].
Proof. now intros ->. Qed.

Lemma length_of_not_zero {A} (x : A) (l : list A) : length_of (x :: l) <> zero.
Proof.
  unfold length_of, of_Z. cbn [length].
  destruct (Z.of_nat (S (length l))) as [|p|p] eqn:E; try lia.
  cbn [binary_normalize].
  assert (N : normal_or_inf (0 - 52) (binary_round prec emax false p 0))
    by (apply binary_round_normal; lia).
  destruct (binary_round prec emax false p 0) as [[]|[]| |[] m' e'];
    cbn [normal_or_inf] in N; try contradiction; discriminate.
Qed.

(** X7: [getSummary] returns the all-zero summary exactly when no cell has
    an individual voltage above 0 (cells at or below 0, or without a
    voltage, are not counted); otherwise the count is the number of such
    cells, and it is not 0. *)
Theorem summary_empty_iff (data : Reading.t) :
  (getSummary data = Summary.empty <->
   positive_voltages (Reading.cells data) = []) /\
  Summary.count (getSummary data) =
    match positive_voltages (Reading.cells data) with
    | [] => zero
    | voltages => length_of voltages
    end.
Proof.
  unfold getSummary. destruct (Reading.cells data) as [|c cells] eqn:Ec.
  - cbn. repeat split.
  - destruct (positive_voltages (c :: cells)) as [|v vs] eqn:Ev.
    + repeat split.
    + split; [|reflexivity]. split; [|discriminate].
      intros H. exfalso. apply (f_equal Summary.count) in H. cbn in H.
      exact (length_of_not_zero v vs H).
Qed.

(** X8: when some cell has an individual voltage above 0, the minimum and
    the maximum of the summary are individual voltages of such cells, the
    minimum is at most, and the maximum at least, every one of them, and
    the spread is their difference. *)
Theorem summary_bounds (data : Reading.t) :
  positive_voltages (Reading.cells data) <> [] ->
  let s := getSummary data in
  let voltages := positive_voltages (Reading.cells data) in
  In (Summary.minVoltage s) voltages /\
  In (Summary.maxVoltage s) voltages /\
  (forall v, In v voltages ->
     le (Summary.minVoltage s) v = true /\ le v (Summary.maxVoltage s) = true) /\
  Summary.voltageSpread s = sub (Summary.maxVoltage s) (Summary.minVoltage s).
Proof.
  intros Hne s voltages. subst s voltages. unfold getSummary.
  destruct (Reading.cells data) as [|c cells] eqn:Ec; [now elim Hne|].
  pose proof (positive_voltages_positive (c :: cells)) as Hp.
  destruct (positive_voltages (c :: cells)) as [|v vs] eqn:Ev; [now elim Hne|].
  cbn [Summary.minVoltage Summary.maxVoltage Summary.voltageSpread].
  destruct (Math_min_spec (v :: vs) Hp Hne) as [Imin Fmin].
  destruct (Math_max_spec (v :: vs) Hp Hne) as [Imax Fmax].
  rewrite Forall_forall in Fmin, Fmax.
  repeat split; auto.
Qed.

Lemma summary_bounds_witness :
  positive_voltages (Reading.cells (parse example_record)) <> [] /\
  Summary.minVoltage (getSummary (parse example_record)) = of_decimal false 396 2 /\
  Summary.maxVoltage (getSummary (parse example_record)) = of_decimal false 399 2 /\
  In (Summary.minVoltage (getSummary (parse example_record)))
     (positive_voltages (Reading.cells (parse example_record))).
Proof.
  assert (H : positive_voltages (Reading.cells (parse example_record)) <> [])
    by (vm_compute; discriminate).
  split; [exact H|]. split; [vm_compute; reflexivity|].
  split; [vm_compute; reflexivity|].
  exact (proj1 (summary_bounds (parse example_record) H)).
Defined.

(** *** What the application shows *)

Lemma above_tenth_not_danger (v : Number) :
  gt v (of_decimal false 1 1) = true -> getCellStatus v <> danger.
Proof.
  unfold getCellStatus, gt, ge, le, lt, abs.
  rewrite tenth_eq, three_eq, four_three_eq, two_half_eq.
  destruct v as [s|[]| |[] m e]; cbn [SFabs];
    try (intros H; cbv in H; discriminate H).
  - intros _. vm_compute. discriminate.
  - intros H. apply ltb_finite in H.
    replace (SFltb (S754_finite false m e)
               (S754_finite false 7205759403792794 (-56))) with false
      by (symmetry; apply (false_iff_not (ltb_finite _ _ _ _)); lia).
    destruct (_ && _); [discriminate|]. destruct (_ || _); discriminate.
Qed.

(** X9: the cells that the application draws and charts (individual
    voltage above 0.1) never have the status "danger": a cell that the
    reconciliation set to 0 V for want of a section entry, or any cell
    within 0.1 V of zero or below, is left out. *)
Theorem shown_cells_are_not_danger (text : jsstring) (c : Cell.t) :
  In c (validCells (Reading.cells (parse text))) ->
  In c (Reading.cells (parse text)) /\
  (Cell.status c = Some good \/ Cell.status c = Some warning) /\
  Cell.individualVoltage c <> Some zero.
Proof.
  unfold validCells, valid. intros H. apply filter_In in H as [Hin Hv].
  split; [exact Hin|].
  destruct (cells_reconciled_aux text c Hin) as (v & Ev & Es).
  rewrite Ev in Hv. rewrite Es, Ev.
  pose proof (above_tenth_not_danger v Hv) as Hd.
  split.
  - destruct (getCellStatus v); auto. congruence.
  - intros [= ->]. rewrite tenth_eq in Hv. discriminate Hv.
Qed.

Lemma shown_cells_are_not_danger_witness :
  exists c,
    In c (validCells (Reading.cells (parse example_record))) /\
    (Cell.status c = Some good \/ Cell.status c = Some warning).
Proof.
  assert (Hc : exists c,
             In c (validCells (Reading.cells (parse example_record)))).
  { vm_compute. eexists. left. reflexivity. }
  destruct Hc as (c & Hin). exists c. split; [exact Hin|].
  exact (proj1 (proj2 (shown_cells_are_not_danger example_record c Hin))).
Defined.

End SummaryFacts.

(** ** The rolling window of the chart *)

Module ChartFacts.
Import JsNumber Parser App Chart.

Lemma string_eqb_eq (a b : jsstring) : string_eqb a b = true <-> a = b.
Proof.
  unfold string_eqb. destruct (list_eq_dec N.eq_dec a b); split;
    congruence.
Qed.

Lemma string_eqb_refl (a : jsstring) : string_eqb a a = true.
Proof. now apply string_eqb_eq. Qed.

Lemma string_eqb_neq (a b : jsstring) : string_eqb a b = false <-> a <> b.
Proof.
  unfold string_eqb. destruct (list_eq_dec N.eq_dec a b); split;
    congruence.
Qed.

Lemma string_eqb_sym (a b : jsstring) : string_eqb a b = string_eqb b a.
Proof.
  destruct (string_eqb b a) eqn:E.
  - apply string_eqb_eq in E. subst. apply string_eqb_refl.
  - apply string_eqb_neq. apply string_eqb_neq in E. congruence.
Qed.

(** *** Pushing within the window *)

Lemma tl_skipn {A} (k : nat) (l : list A) : tl (skipn k l) = skipn (S k) l.
Proof.
  revert l; induction k as [|k IH]; intros [|x l]; try reflexivity.
  - cbn [skipn]. apply IH.
Qed.

Lemma push_within_last {A} (max : Z) (l : list A) (x : A) :
  (0 <= max)%Z ->
  push_within max (last_of max l) x = last_of max (l ++ [x]).
Proof.
  intros Hmax. unfold push_within, last_of.
  rewrite !length_app, length_skipn. cbn [length].
  remember (Z.to_nat max) as n eqn:Hn.
  assert (Hm : max = Z.of_nat n) by lia. rewrite Hm.
  destruct (Z.ltb_spec (Z.of_nat n)
              (Z.of_nat (length l - (length l - n) + 1))) as [H | H].
  - assert (Hle : (n <= length l)%nat) by lia.
    replace (length l + 1 - n)%nat with (S (length l - n)) by lia.
    destruct n as [|n].
    + rewrite Nat.sub_0_r, skipn_all. cbn [app tl].
      rewrite skipn_all2; [reflexivity | rewrite length_app; cbn; lia].
    + rewrite skipn_app.
      replace (S (length l - S n) - length l)%nat with 0%nat by lia.
      change (skipn 0 [x]) with [x]. rewrite <- tl_skipn.
      destruct (skipn (length l - S n) l) as [|y ys] eqn:E; [|reflexivity].
      apply (f_equal (@length _)) in E. rewrite length_skipn in E.
      cbn [length] in E. lia.
  - replace (length l - n)%nat with 0%nat by lia.
    replace (length l + 1 - n)%nat with 0%nat by lia. reflexivity.
Qed.

(** *** Entries *)

Lemma lookup_change {V} (key name : jsstring) (f : V -> V)
    (entries : list (jsstring * V)) :
  lookup name (change key f entries) =
  if string_eqb key name then option_map f (lookup name entries)
  else lookup name entries.
Proof.
  induction entries as [|[k v] rest IH]; cbn [change lookup option_map].
  - now destruct (string_eqb key name).
  - destruct (string_eqb k key) eqn:Ek; cbn [lookup].
    + apply string_eqb_eq in Ek. subst k.
      destruct (string_eqb key name); reflexivity.
    + destruct (string_eqb k name) eqn:En; [|exact IH].
      apply string_eqb_eq in En. subst k.
      now rewrite (string_eqb_sym key name), Ek.
Qed.

Lemma lookup_app {V} (name : jsstring) (a b : list (jsstring * V)) :
  lookup name (a ++ b) =
  match lookup name a with Some v => Some v | None => lookup name b end.
Proof.
  induction a as [|[k v] a IH]; cbn [app lookup]; [reflexivity|].
  destruct (string_eqb k name); [reflexivity | exact IH].
Qed.

Lemma lookup_keys {V} (name : jsstring) (entries : list (jsstring * V)) :
  existsb (string_eqb name) (map fst entries) =
  match lookup name entries with Some _ => true | None => false end.
Proof.
  induction entries as [|[k v] rest IH]; cbn [map existsb lookup fst];
    [reflexivity|].
  rewrite (string_eqb_sym name k).
  destruct (string_eqb k name); [reflexivity | exact IH].
Qed.

Lemma change_keys {V} (key : jsstring) (f : V -> V)
    (entries : list (jsstring * V)) :
  map fst (change key f entries) = map fst entries.
Proof.
  induction entries as [|[k v] rest IH]; cbn [change map fst]; [reflexivity|].
  destruct (string_eqb k key); cbn [map fst]; [reflexivity | now rewrite IH].
Qed.

(** *** One point *)

Lemma add_point_fields (cm : ChartManager) (entry : jsstring * Number) :
  maxDataPoints (add_point cm entry) = maxDataPoints cm /\
  labels (add_point cm entry) = labels cm.
Proof.
  destruct entry as [k v]. unfold add_point.
  destruct (lookup k (datasets cm)); split; reflexivity.
Qed.

Lemma add_point_lookup (cm : ChartManager) (k name : jsstring) (v : Number) :
  lookup name (datasets (add_point cm (k, v))) =
  if string_eqb k name then
    match lookup name (datasets cm) with
    | Some dataset => Some (push_data (maxDataPoints cm) v dataset)
    | None =>
        Some {| label := name;
                data := push_within (maxDataPoints cm) [] v;
                borderColor := fst (getNextColor cm);
                backgroundColor :=
                  replace (js "1)") (js "0.1)") (fst (getNextColor cm));
                fill := false |}
    end
  else lookup name (datasets cm).
Proof.
  unfold add_point. destruct (lookup k (datasets cm)) as [d|] eqn:G.
  - cbn [datasets set_datasets]. rewrite lookup_change.
    destruct (string_eqb k name) eqn:E; [|reflexivity].
    apply string_eqb_eq in E. subst name. now rewrite G.
  - cbn [getNextColor datasets set_datasets fst]. rewrite lookup_app.
    cbn [lookup]. destruct (string_eqb k name) eqn:E.
    + apply string_eqb_eq in E. subst name. now rewrite G.
    + now destruct (lookup name (datasets cm)).
Qed.

Lemma add_point_keys (cm : ChartManager) (k : jsstring) (v : Number) :
  map fst (datasets (add_point cm (k, v))) =
  map fst (datasets cm)
  ++ (if existsb (string_eqb k) (map fst (datasets cm)) then [] else [k]).
Proof.
  rewrite lookup_keys. unfold add_point.
  destruct (lookup k (datasets cm)) as [d|].
  - cbn [datasets set_datasets]. now rewrite change_keys, app_nil_r.
  - cbn [getNextColor datasets set_datasets]. now rewrite map_app.
Qed.

Lemma add_point_tracks (max : Z) (cm : ChartManager)
    (given : jsstring -> list Number) (k : jsstring) (v : Number) :
  (0 <= max)%Z -> tracks max cm given ->
  tracks max (add_point cm (k, v))
    (fun name => given name ++ points_of name [(k, v)]).
Proof.
  intros Hmax [Hm H]. split; [now rewrite (proj1 (add_point_fields cm (k, v)))|].
  intros name. rewrite add_point_lookup. specialize (H name).
  unfold points_of. cbn [filter fst].
  destruct (string_eqb k name) eqn:E; cbn [map snd].
  - rewrite Hm. destruct (lookup name (datasets cm)) as [d|].
    + destruct H as [Hl Hd]. cbn [label data push_data]. split; [exact Hl|].
      rewrite Hd. now apply push_within_last.
    + cbn [label data]. split; [reflexivity|]. rewrite H.
      exact (push_within_last max [] v Hmax).
  - rewrite app_nil_r. exact H.
Qed.

Lemma fold_add_point_tracks (max : Z) (cellsData : list (jsstring * Number)) :
  (0 <= max)%Z ->
  forall cm given, tracks max cm given ->
  tracks max (fold_left add_point cellsData cm)
    (fun name => given name ++ points_of name cellsData).
Proof.
  intros Hmax. induction cellsData as [|[k v] rest IH]; intros cm given Ht.
  - destruct Ht as [Hm H]. split; [exact Hm|]. intros name.
    unfold points_of. cbn [filter map]. rewrite app_nil_r. apply H.
  - cbn [fold_left].
    destruct (IH _ _ (add_point_tracks max cm given k v Hmax Ht)) as [Hm H].
    split; [exact Hm|]. intros name. specialize (H name).
    replace (given name ++ points_of name ((k, v) :: rest))
      with ((given name ++ points_of name [(k, v)]) ++ points_of name rest);
      [exact H|].
    rewrite <- app_assoc. f_equal. unfold points_of. cbn [filter fst].
    destruct (string_eqb k name); reflexivity.
Qed.

Lemma fold_add_point_fields (cellsData : list (jsstring * Number)) :
  forall cm,
  maxDataPoints (fold_left add_point cellsData cm) = maxDataPoints cm /\
  labels (fold_left add_point cellsData cm) = labels cm.
Proof.
  induction cellsData as [|e rest IH]; intros cm; [split; reflexivity|].
  cbn [fold_left]. destruct (IH (add_point cm e)) as [-> ->].
  apply add_point_fields.
Qed.

Lemma replay_tracks (max : Z) (history : History) :
  (0 <= max)%Z ->
  forall cm given seen,
  tracks max cm given -> labels cm = last_of max seen ->
  tracks max (replay cm history)
    (fun name => given name ++ points name history) /\
  labels (replay cm history) = last_of max (seen ++ map snd history).
Proof.
  intros Hmax. induction history as [|[cellsData timestamp] rest IH];
    intros cm given seen Ht Hl.
  - cbn [replay fold_left map]. rewrite app_nil_r. split; [|exact Hl].
    destruct Ht as [Hm H]. split; [exact Hm|]. intros name.
    unfold points. cbn [flat_map]. rewrite app_nil_r. apply H.
  - unfold replay. cbn [fold_left fst snd]. fold (replay (updateCells cm cellsData timestamp) rest).
    assert (Ht1 : tracks max (updateCells cm cellsData timestamp)
                    (fun name => given name ++ points_of name cellsData)).
    { unfold updateCells. apply fold_add_point_tracks; [exact Hmax|].
      destruct Ht as [Hm H]. split; [exact Hm | exact H]. }
    assert (Hl1 : labels (updateCells cm cellsData timestamp) =
                  last_of max (seen ++ [timestamp])).
    { unfold updateCells.
      rewrite (proj2 (fold_add_point_fields cellsData _)).
      cbn [labels set_labels]. rewrite Hl, (proj1 Ht).
      now apply push_within_last. }
    destruct (IH _ _ _ Ht1 Hl1) as [[Hm H] Hlab]. split.
    + split; [exact Hm|]. intros name. specialize (H name).
      unfold points in *. cbn [flat_map fst]. rewrite app_assoc. exact H.
    + rewrite Hlab. cbn [map snd]. now rewrite <- app_assoc.
Qed.

(** X24: on a new or cleared manager, with a maximum that is not
    negative, any sequence of [updateCells] calls leaves as labels the
    last [maxDataPoints] timestamps given, and for every cell name a
    dataset exactly when the name was given, labelled with the name and
    holding the last [maxDataPoints] voltages given for it, in order. *)
Theorem chart_keeps_the_last_points (cm0 : ChartManager) (history : History)
    (name : jsstring) :
  (0 <= maxDataPoints cm0)%Z ->
  let max := maxDataPoints cm0 in
  let cm := replay (clear cm0) history in
  maxDataPoints cm = max /\
  labels cm = last_of max (map snd history) /\
  match lookup name (datasets cm) with
  | Some dataset =>
      label dataset = name /\ data dataset = last_of max (points name history)
  | None => points name history = []
  end.
Proof.
  intros Hmax. cbv zeta.
  assert (Ht : tracks (maxDataPoints cm0) (clear cm0) (fun _ => [])).
  { split; [reflexivity|]. intros n. reflexivity. }
  destruct (replay_tracks (maxDataPoints cm0) history Hmax (clear cm0)
              (fun _ => []) [] Ht eq_refl) as [[Hm H] Hl].
  split; [exact Hm|]. split; [exact Hl|]. exact (H name).
Qed.

Lemma chart_keeps_the_last_points_witness :
  let cm := replay (clear (setMaxDataPoints 2 new_manager)) three_readings in
  labels cm = [js "10:00:01"; js "10:00:02"] /\
  option_map data (lookup (js "1S") (datasets cm)) =
    Some [of_decimal false 395 2; of_decimal false 394 2] /\
  option_map data (lookup (js "2S") (datasets cm)) =
    Some [of_decimal false 399 2; of_decimal false 398 2].
Proof.
  cbv zeta.
  assert (H0 : (0 <= maxDataPoints (setMaxDataPoints 2 new_manager))%Z)
    by (cbn; lia).
  pose proof (chart_keeps_the_last_points (setMaxDataPoints 2 new_manager)
                three_readings (js "1S") H0) as (_ & Hl & H1).
  pose proof (chart_keeps_the_last_points (setMaxDataPoints 2 new_manager)
                three_readings (js "2S") H0) as (_ & _ & H2).
  cbv zeta in *.
  split; [rewrite Hl; vm_compute; reflexivity|].
  destruct (lookup (js "1S") _) as [d1|]; [|vm_compute in H1; discriminate H1].
  destruct (lookup (js "2S") _) as [d2|]; [|vm_compute in H2; discriminate H2].
  cbn [option_map]. rewrite (proj2 H1), (proj2 H2).
  split; vm_compute; reflexivity.
Defined.

(** *** Colours and order *)

Lemma palette :
  map (replace (js "1)") (js "0.1)")) generateColors = translucent.
Proof. vm_compute. reflexivity. Qed.

Lemma palette_nth (j : nat) :
  replace (js "1)") (js "0.1)") (nth j generateColors []) =
  nth j translucent [].
Proof.
  rewrite <- palette.
  exact (eq_sym (map_nth (replace (js "1)") (js "0.1)")) generateColors [] j)).
Qed.

Lemma nth_error_change {V} (key : jsstring) (f : V -> V)
    (entries : list (jsstring * V)) (i : nat) (name : jsstring) (v : V) :
  nth_error (change key f entries) i = Some (name, v) ->
  exists v0, nth_error entries i = Some (name, v0) /\ (v = v0 \/ v = f v0).
Proof.
  revert i; induction entries as [|[k x] rest IH]; intros i;
    cbn [change].
  - destruct i; discriminate.
  - destruct (string_eqb k key).
    + destruct i as [|i]; cbn [nth_error].
      * intros [= <- <-]. exists x. split; [reflexivity | now right].
      * intros H. exists v. split; [exact H | now left].
    + destruct i as [|i]; cbn [nth_error].
      * intros [= <- <-]. exists x. split; [reflexivity | now left].
      * apply IH.
Qed.

Lemma add_point_painted (cm : ChartManager) (entry : jsstring * Number) :
  painted cm -> painted (add_point cm entry).
Proof.
  destruct entry as [k v]. intros [Hc H]. unfold add_point.
  destruct (lookup k (datasets cm)) as [d|].
  - split.
    + cbn [colorIndex datasets set_datasets].
      rewrite <- (length_map fst (change _ _ _)), change_keys, length_map.
      exact Hc.
    + cbn [datasets set_datasets]. intros i name ds Hn.
      apply nth_error_change in Hn as (ds0 & Hn & [-> | ->]);
        exact (H i name ds0 Hn).
  - cbn [getNextColor]. split.
    + cbn [colorIndex datasets set_datasets]. rewrite length_app, Hc.
      cbn [length]. lia.
    + cbn [datasets set_datasets]. intros i name ds Hn.
      destruct (Nat.lt_ge_cases i (length (datasets cm))) as [Hi | Hi].
      * rewrite nth_error_app1 in Hn by exact Hi. exact (H i name ds Hn).
      * rewrite nth_error_app2 in Hn by exact Hi.
        destruct (i - length (datasets cm))%nat as [|j] eqn:E;
          [|destruct j; discriminate Hn].
        cbn [nth_error] in Hn. injection Hn as <- <-.
        cbn [borderColor backgroundColor push_data].
        assert (Ei : colorIndex cm = i) by lia. rewrite Ei.
        change (length generateColors) with 10%nat.
        split; [reflexivity | apply palette_nth].
Qed.

Lemma first_seen_app (a b seen : list jsstring) :
  first_seen (a ++ b) seen =
  first_seen a seen ++ first_seen b (seen ++ first_seen a seen).
Proof.
  revert seen; induction a as [|n a IH]; intros seen; cbn [app first_seen].
  - now rewrite app_nil_r.
  - destruct (existsb (string_eqb n) seen); [apply IH|].
    cbn [app]. rewrite IH, <- app_assoc. reflexivity.
Qed.

Lemma fold_add_point_datasets (cellsData : list (jsstring * Number)) :
  forall cm, painted cm ->
  painted (fold_left add_point cellsData cm) /\
  map fst (datasets (fold_left add_point cellsData cm)) =
  map fst (datasets cm)
  ++ first_seen (map fst cellsData) (map fst (datasets cm)).
Proof.
  induction cellsData as [|[k v] rest IH]; intros cm Hp.
  - cbn [fold_left map first_seen]. now rewrite app_nil_r.
  - cbn [fold_left map fst first_seen].
    destruct (IH _ (add_point_painted cm (k, v) Hp)) as [Hp' Hk].
    split; [exact Hp'|]. rewrite Hk, add_point_keys.
    destruct (existsb (string_eqb k) (map fst (datasets cm)));
      rewrite <- ?app_assoc, ?app_nil_r; reflexivity.
Qed.

Lemma replay_datasets (history : History) :
  forall cm, painted cm ->
  painted (replay cm history) /\
  map fst (datasets (replay cm history)) =
  map fst (datasets cm)
  ++ first_seen (names_given history) (map fst (datasets cm)).
Proof.
  induction history as [|[cellsData timestamp] rest IH]; intros cm Hp.
  - unfold replay, names_given. cbn [fold_left flat_map first_seen].
    now rewrite app_nil_r.
  - unfold replay, names_given. cbn [fold_left flat_map fst snd].
    fold (replay (updateCells cm cellsData timestamp) rest).
    fold (names_given rest).
    assert (Hp0 : painted (set_labels
                    (push_within (maxDataPoints cm) (labels cm) timestamp) cm))
      by exact Hp.
    destruct (fold_add_point_datasets cellsData _ Hp0) as [Hp1 Hk1].
    fold (updateCells cm cellsData timestamp) in Hp1, Hk1.
    cbn [datasets set_labels] in Hk1.
    destruct (IH _ Hp1) as [Hp2 Hk2]. split; [exact Hp2|].
    rewrite Hk2, Hk1, first_seen_app, <- app_assoc. reflexivity.
Qed.

Lemma first_seen_NoDup (names : list jsstring) :
  forall seen, NoDup seen -> NoDup (seen ++ first_seen names seen).
Proof.
  induction names as [|n names IH]; intros seen Hs; cbn [first_seen].
  - now rewrite app_nil_r.
  - destruct (existsb (string_eqb n) seen) eqn:E; [now apply IH|].
    change (n :: first_seen names (seen ++ [n]))
      with ([n] ++ first_seen names (seen ++ [n])).
    rewrite app_assoc. apply IH.
    apply NoDup_app; repeat split; try exact Hs.
    + constructor; [intros [] | constructor].
    + intros x Hx [E0 | []]. subst x.
      assert (E' : existsb (string_eqb n) seen = true).
      { apply existsb_exists. exists n. split; [exact Hx|].
        apply string_eqb_refl. }
      congruence.
Qed.

(** X25: on a new or cleared manager, the datasets are created in the
    order in which the cell names are first given, one per name; the
    colour index counts them, and the dataset at place [i] has the
    [i mod 10]-th colour of the palette as border and the same colour
    with alpha 0.1 as background. *)
Theorem datasets_follow_first_appearance (cm0 : ChartManager)
    (history : History) :
  let cm := replay (clear cm0) history in
  map fst (datasets cm) = first_seen (names_given history) [] /\
  NoDup (map fst (datasets cm)) /\
  colorIndex cm = length (datasets cm) /\
  forall i name dataset,
    nth_error (datasets cm) i = Some (name, dataset) ->
    borderColor dataset = nth (i mod 10) generateColors [] /\
    backgroundColor dataset = nth (i mod 10) translucent [].
Proof.
  cbv zeta.
  assert (Hp : painted (clear cm0)).
  { split; [reflexivity|]. intros [|i] name ds H; discriminate H. }
  destruct (replay_datasets history (clear cm0) Hp) as [[Hc H] Hk].
  cbn [datasets clear map app] in Hk.
  split; [exact Hk|]. split.
  - rewrite Hk. exact (first_seen_NoDup (names_given history) [] (NoDup_nil _)).
  - split; [exact Hc | exact H].
Qed.

(** *** What [updateChart] gives to the chart *)

Lemma lookup_set_property (obj : list (jsstring * Number)) (k name : jsstring)
    (v : Number) :
  lookup name (set_property obj k v) =
  if string_eqb k name then Some v else lookup name obj.
Proof.
  induction obj as [|[k0 v0] rest IH]; cbn [set_property lookup].
  - reflexivity.
  - destruct (string_eqb k0 k) eqn:Ek; cbn [lookup].
    + apply string_eqb_eq in Ek. subst k0.
      destruct (string_eqb k name); reflexivity.
    + destruct (string_eqb k0 name) eqn:En; [|exact IH].
      apply string_eqb_eq in En. subst k0.
      now rewrite (string_eqb_sym k name), Ek.
Qed.

Lemma set_property_keys (obj : list (jsstring * Number)) (k : jsstring)
    (v : Number) :
  map fst (set_property obj k v) =
  map fst obj ++ (if existsb (string_eqb k) (map fst obj) then [] else [k]).
Proof.
  induction obj as [|[k0 v0] rest IH]; cbn [set_property map fst existsb];
    [reflexivity|].
  rewrite (string_eqb_sym k k0).
  destruct (string_eqb k0 k); cbn [map fst orb app].
  - now rewrite app_nil_r.
  - now rewrite IH.
Qed.

Lemma find_last {A} (f : A -> bool) (l : list A) (x : A) :
  find f (l ++ [x]) =
  match find f l with
  | Some y => Some y
  | None => if f x then Some x else None
  end.
Proof.
  induction l as [|y l IH]; cbn [app find]; [reflexivity|].
  destruct (f y); [reflexivity | exact IH].
Qed.

(** The loop of [updateChart], from any object. *)
Lemma cellsData_from (cells : list Cell.t) :
  forall obj,
  let step := fun obj cell =>
    match Cell.individualVoltage cell with
    | Some v =>
        if gt v (of_decimal false 1 1)
        then set_property obj (Cell.name cell) v else obj
    | None => obj
    end in
  map fst (fold_left step cells obj) =
    map fst obj
    ++ first_seen (map Cell.name (validCells cells)) (map fst obj) /\
  forall name,
    lookup name (fold_left step cells obj) =
    match last_valid name cells with
    | Some c => Cell.individualVoltage c
    | None => lookup name obj
    end.
Proof.
  cbv zeta. unfold last_valid, validCells, valid.
  induction cells as [|c cells IH]; intros obj.
  - cbn [fold_left filter map first_seen rev find]. rewrite app_nil_r.
    split; reflexivity.
  - cbn [fold_left filter].
    destruct (Cell.individualVoltage c) as [v|] eqn:Ev; [|apply IH].
    destruct (gt v (of_decimal false 1 1)) eqn:Eg; [|apply IH].
    destruct (IH (set_property obj (Cell.name c) v)) as [Hk Hg].
    split.
    + rewrite Hk, set_property_keys. cbn [map first_seen].
      destruct (existsb (string_eqb (Cell.name c)) (map fst obj));
        rewrite <- ?app_assoc, ?app_nil_r; reflexivity.
    + intros name. rewrite Hg. cbn [rev]. rewrite find_last.
      destruct (find _ (rev _)) as [c'|]; [reflexivity|].
      rewrite lookup_set_property.
      destruct (string_eqb (Cell.name c) name); [now rewrite Ev | reflexivity].
Qed.

(** X26: the object that [updateChart] hands to the chart has one
    property per name of a cell with an individual voltage above 0.1, in
    the order in which these names first occur among the cells, and the
    value of a name is the individual voltage of the last such cell with
    that name; names of other cells are absent. *)
Theorem chart_takes_the_valid_cells (cells : list Cell.t) (name : jsstring) :
  map fst (cellsData_of cells) =
    first_seen (map Cell.name (validCells cells)) [] /\
  NoDup (map fst (cellsData_of cells)) /\
  lookup name (cellsData_of cells) =
    match last_valid name cells with
    | Some c => Cell.individualVoltage c
    | None => None
    end.
Proof.
  destruct (cellsData_from cells []) as [Hk Hg]. cbv zeta in *.
  fold (cellsData_of cells) in Hk, Hg. cbn [map app lookup] in Hk, Hg.
  split; [exact Hk|]. split; [|exact (Hg name)].
  rewrite Hk.
  exact (first_seen_NoDup (map Cell.name (validCells cells)) [] (NoDup_nil _)).
Qed.

End ChartFacts.
